(** * biogo: the PALS aligner (align/pals, align/pals/dp) and its helpers

    A shallow embedding of the parts of the repository that the
    specification talks about: the feature-pair adapter and its GFF
    writer, the coordinate conversion [featureOf], the filter-parameter
    selector [Optimise] with its memory estimate, and the recursive
    dynamic-programming kernel [alignRecursion] with its two banded
    traces.

    Conventions.
    - A Go [int] is a 64-bit two's complement integer.  It is a [Z] here
      and every arithmetic operation wraps explicitly ([iadd], [isub],
      [imul], [ineg]); [uintptr] is a 64-bit unsigned integer ([uadd],
      [umul]).  Division truncates towards zero and panics on a zero
      divisor ([iquo]).
    - A Go [float64] is a primitive binary64 float.
    - A nil-able pointer is an [option].
    - A run-time panic is an explicit outcome ([Panic]).  A loop that
      the source does not bound takes fuel, and [Diverge] is the outcome
      of a run that uses its fuel up. *)

From Stdlib Require Import ZArith Floats Lia.
From stdpp Require Import base option list strings pretty gmap.

Open Scope Z_scope.

(** ** Machine arithmetic *)

Module GoInt.

Definition MinInt : Z := - 2 ^ 63.
Definition MaxInt : Z := 2 ^ 63 - 1.

(** Two's complement reduction of an unbounded integer to 64 bits. *)
Definition wrap (z : Z) : Z := (z + 2 ^ 63) mod 2 ^ 64 - 2 ^ 63.

Definition inrange (z : Z) : Prop := MinInt <= z <= MaxInt.

Definition iadd (a b : Z) : Z := wrap (a + b).
Definition isub (a b : Z) : Z := wrap (a - b).
Definition imul (a b : Z) : Z := wrap (a * b).
Definition ineg (a : Z) : Z := wrap (- a).

(** [a / b]: truncated division, [None] for the division-by-zero panic. *)
Definition iquo (a b : Z) : option Z :=
  if b =? 0 then None else Some (wrap (Z.quot a b)).

(** [a / b] for a non-zero constant [b]. *)
Definition idiv (a b : Z) : Z := wrap (Z.quot a b).

(** [uintptr(x)] and arithmetic on [uintptr]. *)
Definition uintptr (z : Z) : Z := z mod 2 ^ 64.
Definition uadd (a b : Z) : Z := (a + b) mod 2 ^ 64.
Definition umul (a b : Z) : Z := (a * b) mod 2 ^ 64.

(** [float64(x)] for an [int] x: the nearest binary64, ties to even. *)
Definition float64 (z : Z) : float :=
  SF2Prim (binary_normalize prec emax z 0 false).

(** [int(f)] for a [float64] f: the fraction is discarded.  The language
    leaves the result open when the value does not fit (NaN, infinities,
    magnitudes of 2^63 and more); the amd64 instruction yields the least
    integer there, and so does this definition. *)
Definition int_of_float (f : float) : Z :=
  match Prim2SF f with
  | S754_zero _ => 0
  | S754_finite s m e =>
      let v := if 0 <=? e then Z.pos m * 2 ^ e
               else Z.quot (Z.pos m) (2 ^ (- e)) in
      let v := if s then - v else v in
      if (MinInt <=? v) && (v <=? MaxInt) then v else MinInt
  | _ => MinInt
  end.

End GoInt.

Export GoInt.

(** ** Outcomes of a computation: a value, a panic, or out of fuel *)

Inductive Res (A : Type) : Type :=
| Ok (a : A)
| Panic (msg : string)
| Diverge.
Arguments Ok {A} a.
Arguments Panic {A} msg.
Arguments Diverge {A}.

(** ** Errors ([bio.NewError], [fmt.Errorf]) *)

Record error : Type := NewError { message : string }.

(** ** Features ([feat.Feature]) and feature pairs *)

Module feat.

(** The fields of [feat.Feature] that the PALS code reads or writes. *)
Record Feature : Type := mkFeature {
  ID : string;
  Source : string;
  Location : string;
  Start : Z;
  End_ : Z;
  Feature_ : string;
  Score : option float;
  Strand : Z;
  Frame : Z;
  Attributes : string
}.

(** The zero value of the struct. *)
Definition zero : Feature :=
  mkFeature "" "" "" 0 0 "" None 0 0 "".

End feat.

Module pair.

(** A FeaturePair holds a pair of features with additional information
    relating the two.  [A] and [B] are pointers. *)
Record FeaturePair : Type := mkFeaturePair {
  A : option feat.Feature;
  B : option feat.Feature;
  Score : Z;
  Error : float;
  Strand : Z
}.

(** [Invert] returns a reversed copy of the feature pair such that
    A', B' = B, A. *)
Definition Invert (fp : FeaturePair) : FeaturePair :=
  {| A := B fp;
     B := A fp;
     Score := Score fp;
     Error := Error fp;
     Strand := Strand fp |}.

End pair.

(** *** The GFF writer adapter (write.go) *)

Module writer.

Import pair.

(** [var t *feat.Feature = &feat.Feature{Source: "pals", Feature: "hit"}] *)
Definition t_init : feat.Feature :=
  feat.mkFeature "" "pals" "" 0 0 "hit" None 0 0 "".

Section Write.

(** [fmt]'s rendering of a float64 under the verb [%.2g] belongs to the
    language's library. *)
Variable fmt_g2 : float -> string.

(** [%d] and [%s]. *)
Definition fmt_d (z : Z) : string := pretty z.

(** [fmt.Sprintf("Target %s %d %d; maxe %.2g", id, s, e, err)] *)
Definition attributes (id : string) (s e : Z) (err : float) : string :=
  "Target " +:+ id +:+ " " +:+ fmt_d s +:+ " " +:+ fmt_d e
    +:+ "; maxe " +:+ fmt_g2 err.

(** [Write] fills the shared record [t] from the pair and hands it to
    the underlying GFF writer; the result is the record handed over.  A
    nil [A] or [B] is a nil dereference. *)
Definition Write (t : feat.Feature) (p : FeaturePair) : Res feat.Feature :=
  match B p with
  | None => Panic "nil pointer dereference"
  | Some b =>
      let t := feat.mkFeature (feat.ID t) (feat.Source t) (feat.ID b)
                 (feat.Start t) (feat.End_ t) (feat.Feature_ t)
                 (feat.Score t) (feat.Strand t) (feat.Frame t)
                 (feat.Attributes t) in
      let t := feat.mkFeature (feat.ID t) (feat.Source t) (feat.Location t)
                 (feat.Start b) (feat.End_ b) (feat.Feature_ t)
                 (Some (float64 (Score p))) (Strand p) (-1)
                 (feat.Attributes t) in
      match A p with
      | None => Panic "nil pointer dereference"
      | Some a =>
          Ok (feat.mkFeature (feat.ID t) (feat.Source t) (feat.Location t)
                (feat.Start t) (feat.End_ t) (feat.Feature_ t)
                (feat.Score t) (feat.Strand t) (feat.Frame t)
                (attributes (feat.ID a) (iadd (feat.Start a) 1)
                   (feat.End_ a) (Error p)))
      end
  end.

(** The records the shared [t] can hold: its initial value, and what a
    successful [Write] leaves in it. *)
Inductive t_state : feat.Feature -> Prop :=
| t_state_init : t_state t_init
| t_state_write t p t' :
    t_state t -> Write t p = Ok t' -> t_state t'.

End Write.

End writer.

(** ** Sequences ([seq.Seq]) and the packed-sequence map *)

Module seq.

(** A sequence carries its letters and, when it was packed from several
    contigs, a [seqMap] in its [Meta] field: the contigs with their
    offsets, and for every bin of the packed sequence the index of the
    contig the bin lies in. *)
Inductive Seq : Type :=
| mkSeq (ID : string) (letters : list Byte.byte) (Meta : option seqMap)
with seqMap : Type :=
| mkSeqMap (contigs : list contig) (binMap : list Z)
with contig : Type :=
| mkContig (cseq : Seq) (from : Z).

Definition ID (s : Seq) : string := let 'mkSeq i _ _ := s in i.
Definition letters (s : Seq) : list Byte.byte := let 'mkSeq _ l _ := s in l.
Definition Meta (s : Seq) : option seqMap := let 'mkSeq _ _ m := s in m.
Definition contigs (m : seqMap) : list contig := let 'mkSeqMap c _ := m in c.
Definition binMap (m : seqMap) : list Z := let 'mkSeqMap _ b := m in b.
Definition cseq (c : contig) : Seq := let 'mkContig s _ := c in s.
Definition from (c : contig) : Z := let 'mkContig _ f := c in f.

(** [s.Len()] *)
Definition Len (s : Seq) : Z := Z.of_nat (length (letters s)).

End seq.

(** [xs[i]] on a slice: [None] is the index-out-of-range panic. *)
Definition index {A : Type} (xs : list A) (i : Z) : option A :=
  if (0 <=? i) && (i <? Z.of_nat (length xs)) then xs !! Z.to_nat i else None.

(** ** Alignment hits and trapezoids ([dp.DPHit], [filter.Trapezoid]) *)

Record DPHit : Type := mkDPHit {
  Abpos : Z; Bbpos : Z;
  Aepos : Z; Bepos : Z;
  LowDiagonal : Z; HighDiagonal : Z;
  Score : Z;
  Error : float
}.

Record Trapezoid : Type := mkTrapezoid {
  Top : Z; Bottom : Z;
  Left : Z; Right : Z
}.

(** ** Conversion of hit coordinates into features *)

Module convert.

Section featureOf.

(** The bin width of the packed-sequence map, a constant of the package. *)
Variable binSize : Z.

Definition fail {A : Type} (msg : string) : Res (A + error) :=
  Ok (inr (NewError msg)).

(** Convert coordinates in a packed sequence into a [feat.Feature]. *)
Definition featureOf (contigs : seq.Seq) (from to : Z) (comp : bool)
  : Res (feat.Feature + error) :=
  let '(from, to) :=
    if comp then (isub (seq.Len contigs) to, isub (seq.Len contigs) from)
    else (from, to) in
  if from >=? to then fail (seq.ID contigs +:+ ": from > to")
  else
    (* DPHit coordinates sometimes over/underflow. *)
    let from := if from <? 0 then 0 else from in
    let to := if to >? seq.Len contigs then seq.Len contigs else to in
    (* Take midpoint of segment. *)
    match iquo (iadd from to) (imul 2 binSize),
          iquo (isub (iadd (seq.Len contigs) binSize) 1) binSize with
    | None, _ | _, None => Panic "integer divide by zero"
    | Some bin, Some binCount =>
        if (bin <? 0) || (bin >=? binCount) then
          fail (seq.ID contigs +:+ ": bin " +:+ pretty bin
                  +:+ " out of range 0.." +:+ pretty (isub binCount 1))
        else
          match seq.Meta contigs with
          | None => Panic "interface conversion"
          | Some sm =>
              match index (seq.binMap sm) bin with
              | None => Panic "index out of range"
              | Some contigIndex =>
                  if (contigIndex <? 0)
                     || (contigIndex >=? Z.of_nat (length (seq.contigs sm)))
                  then
                    fail (seq.ID contigs +:+ ": contig index "
                            +:+ pretty contigIndex +:+ " out of range 0.."
                            +:+ pretty (Z.of_nat (length (seq.contigs sm))))
                  else
                    let length := isub to from in
                    if length <? 0 then
                      fail (seq.ID contigs +:+ ": length < 0")
                    else
                      match index (seq.contigs sm) contigIndex with
                      | None => Panic "index out of range"
                      | Some contig =>
                          let contigFrom := isub from (seq.from contig) in
                          let contigTo := iadd contigFrom length in
                          let contigFrom :=
                            if contigFrom <? 0 then 0 else contigFrom in
                          let contigTo :=
                            if contigTo >? seq.Len (seq.cseq contig)
                            then seq.Len (seq.cseq contig) else contigTo in
                          Ok (inl (feat.mkFeature (seq.ID (seq.cseq contig))
                                     "" "" contigFrom contigTo "" None 0 0 ""))
                      end
              end
          end
    end.

(** Convert a DPHit and two packed sequences into a FeaturePair. *)
Definition NewFeaturePair (target query : seq.Seq) (hit : DPHit) (comp : bool)
  : Res (pair.FeaturePair + error) :=
  match featureOf target (Abpos hit) (Aepos hit) false with
  | Panic m => Panic m
  | Diverge => Diverge
  | Ok (inr err) => Ok (inr err)
  | Ok (inl t) =>
      match featureOf query (Bbpos hit) (Bepos hit) comp with
      | Panic m => Panic m
      | Diverge => Diverge
      | Ok (inr err) => Ok (inr err)
      | Ok (inl q) =>
          let strand := if comp then -1 else 1 in
          Ok (inl (pair.mkFeaturePair (Some t) (Some q) (Score hit)
                     (Error hit) strand))
      end
  end.

(** The end points after the optional complement transform. *)
Definition endpoints (contigs : seq.Seq) (from to : Z) (comp : bool) : Z * Z :=
  if comp then (isub (seq.Len contigs) to, isub (seq.Len contigs) from)
  else (from, to).

(** A packed sequence as packing leaves it: the map is there, it has one
    entry for each bin, and each entry is the index of a contig. *)
Definition wellPacked (contigs : seq.Seq) : bool :=
  match seq.Meta contigs with
  | None => false
  | Some sm =>
      (Z.of_nat (length (seq.binMap sm))
       =? Z.quot (seq.Len contigs + binSize - 1) binSize)
      && forallb (fun ci => (0 <=? ci)
                            && (ci <? Z.of_nat (length (seq.contigs sm))))
           (seq.binMap sm)
  end.

End featureOf.

End convert.

(** ** The aligner and its filter-parameter selector (pals.go) *)

Module pals.

Open Scope float_scope.
Open Scope Z_scope.

(** Default values for filter and alignment. *)
Definition MaxIGap : Z := 5.
Definition DiffCost : Z := 3.
Definition SameCost : Z := 1.
Definition MatchCost : Z := iadd DiffCost SameCost.
Definition BlockCost : Z := imul DiffCost MaxIGap.
Definition RMatchCost : float := (float64 DiffCost + 1)%float.

(** Default thresholds for filter and alignment. *)
Definition DefaultLength : Z := 400.
Definition DefaultMinIdentity : float := 0x1.e147ae147ae14p-1%float. (* 0.94 *)
Definition MaxAvgIndexListLen : float := 15%float.
Definition TubeOffsetDelta : Z := 32.

(** Default word characteristics. *)
Definition MinWordLength : Z := 4.
Definition MaxKmerLen : Z := 15.

(** [filter.Params] *)
Record Params : Type := mkParams {
  WordSize : Z;
  MinMatch : Z;
  MaxError : Z;
  TubeOffset : Z
}.

(** [dp.Params] *)
Record DPParams : Type := mkDPParams {
  MinHitLength : Z;
  MinId : float
}.

(** A [*seq.Seq] as parameter selection sees it: the address, which is
    what [!=] compares, and the length [Len()] of the sequence found
    there. *)
Record SeqPtr : Type := mkSeqPtr {
  addr : nat;
  Len : Z
}.

(** The fields of [PALS] that parameter selection reads or writes; [log]
    tells whether a logger is installed and [maxMem] is a pointer. *)
Record PALS : Type := mkPALS {
  target : SeqPtr;
  query : SeqPtr;
  selfCompare : bool;
  FilterParams : option Params;
  DPParams_ : option DPParams;
  log : bool;
  tubeOffset : Z;
  maxMem : option Z
}.

(** Return a new PALS aligner. *)
Definition New (target query : SeqPtr) (selfComp : bool) (tubeOffset : Z)
    (mem : option Z) (log : bool) : PALS :=
  mkPALS target query selfComp None None log tubeOffset mem.

(** What the logger is handed, one entry for each [Print] or [Printf]
    with the arguments of the call. *)
Inductive LogEntry : Type :=
| LogOptimising
| LogWordSizeTooSmall (maxKmerLen minWordSize : Z)
| LogMem (n k e memMB maxmemMB : Z)
| LogMinWords (n k e B : Z)
| LogAvgLen (n k e B : Z) (avgixlen max : float).

Definition logIf (p : PALS) (lg : list LogEntry) (e : LogEntry) : list LogEntry :=
  if log p then lg ++ [e] else lg.

(** [int(1) << s] for an unsigned shift count [s]. *)
Definition shl1 (s : Z) : Z := if s <? 64 then wrap (2 ^ s) else 0.

(** Modelled from the spec: [util.Pow4] is not among the sources; the
    index has 4^k words for word size k. *)
Definition Pow4 (k : Z) : Z := wrap (4 ^ k).

(** Modelled from the spec: [filter.MinWordsPerFilterHit] is not among the
    sources; the minimum number of words per filter hit is
    B = n - k*(e+1) + 1. *)
Definition MinWordsPerFilterHit (n k e : Z) : Z :=
  iadd (isub n (imul k (iadd e 1))) 1.

(** [unsafe.Sizeof] of a [tubeState] (three ints), a [uint32], an [int]
    and a pointer, on a 64-bit platform. *)
Definition sizeof_tubeState : Z := 24.
Definition sizeof_uint32 : Z := 4.
Definition sizeof_int : Z := 8.
Definition sizeof_ptr : Z := 8.

Definition targetLen (p : PALS) : Z := Len (target p).
Definition queryLen (p : PALS) : Z := Len (query p).

(** Return an estimate of the average number of hits for any given kmer. *)
Definition AvgIndexListLength (p : PALS) (filterParams : Params) : float :=
  (float64 (targetLen p)
   / float64 (shl1 (umul (uintptr (WordSize filterParams)) 2)))%float.

(** Return an estimate of the amount of memory required for the filter. *)
Definition filterMemRequired (p : PALS) (filterParams : Params) : Res Z :=
  let words := Pow4 (WordSize filterParams) in
  let tubeWidth := iadd (TubeOffset filterParams) (MaxError filterParams) in
  match iquo (isub (iadd (targetLen p) tubeWidth) 1) (TubeOffset filterParams) with
  | None => Panic "integer divide by zero"
  | Some q =>
      let maxActiveTubes := iadd q 1 in
      let tubes := umul (uintptr maxActiveTubes) sizeof_tubeState in
      let finger := umul sizeof_uint32 (uintptr words) in
      let pos := umul sizeof_int (uintptr (targetLen p)) in
      Ok (uadd (uadd finger pos) tubes)
  end.

(** Return an estimate of the total amount of memory required. *)
Definition MemRequired (p : PALS) (filterParams : Params) : Res Z :=
  match filterMemRequired p filterParams with
  | Ok filter =>
      let sequence := uadd (uintptr (targetLen p)) sizeof_ptr in
      let sequence :=
        if Nat.eqb (addr (target p)) (addr (query p)) then sequence
        else uadd sequence (uadd (uintptr (queryLen p)) sizeof_ptr) in
      Ok (uadd filter sequence)
  | r => r
  end.

(** The candidate loop
    [for wordSize := MaxKmerLen; wordSize >= minWordSize; wordSize--].
    It yields [minWords] (positive after a [break], -1 otherwise), the
    parameter record as the loop leaves it, and the log.  The count [n]
    bounds the iterations; it is used up only if [wordSize--] wraps
    around. *)
Fixpoint tryWordSizes (n : nat) (p : PALS) (seedLength seedDiffs : Z)
    (minWordSize wordSize : Z) (filterParams : Params) (lg : list LogEntry)
  : Res (Z * Params * list LogEntry) :=
  if wordSize >=? minWordSize then
    match n with
    | O => Diverge
    | S n' =>
        let filterParams :=
          mkParams wordSize seedLength seedDiffs
            (if tubeOffset p >? 0 then tubeOffset p
             else iadd seedDiffs TubeOffsetDelta) in
        match MemRequired p filterParams with
        | Panic m => Panic m
        | Diverge => Diverge
        | Ok mem =>
            let next := tryWordSizes n' p seedLength seedDiffs minWordSize
                          (isub wordSize 1) filterParams in
            if match maxMem p with Some mx => mem >? mx | None => false end then
              next (logIf p lg
                      (LogMem seedLength wordSize seedDiffs (mem / 1000000)
                         (default 0 (maxMem p) / 1000000)))
            else
              let minWords := MinWordsPerFilterHit seedLength wordSize seedDiffs in
              if minWords <=? 0 then
                next (logIf p lg (LogMinWords seedLength wordSize seedDiffs minWords))
              else
                let length := AvgIndexListLength p filterParams in
                if (MaxAvgIndexListLen <? length)%float then
                  next (logIf p lg
                          (LogAvgLen seedLength wordSize seedDiffs minWords
                             length MaxAvgIndexListLen))
                else Ok (minWords, filterParams, lg)
        end
    end
  else Ok (-1, filterParams, lg).

(** The number of iterations of the candidate loop when nothing wraps. *)
Definition wordSizeCount (minWordSize : Z) : nat :=
  Z.to_nat (MaxKmerLen - minWordSize + 1).

(** The search loop [for { ... }] of [Optimise]: [Some] parameters after
    the [break], [None] for the final [return bio.NewError(...)]. *)
Fixpoint search (fuel : nat) (p : PALS) (minHitLen minWordSize : Z)
    (seedLength seedDiffs : Z) (filterParams : Params) (lg : list LogEntry)
  : Res (option Params * list LogEntry) :=
  match fuel with
  | O => Diverge
  | S fuel' =>
      let lg := if MaxKmerLen <? minWordSize
                then logIf p lg (LogWordSizeTooSmall MaxKmerLen minWordSize)
                else lg in
      match tryWordSizes (wordSizeCount minWordSize) p seedLength seedDiffs
              minWordSize MaxKmerLen filterParams lg with
      | Panic m => Panic m
      | Diverge => Diverge
      | Ok (minWords, filterParams, lg) =>
          if minWords >? 0 then Ok (Some filterParams, lg)
          else
            (* Failed to find filter parameters, try fewer errors and
               shorter seed. *)
            if seedLength >=? idiv minHitLen 4 then
              search fuel' p minHitLen minWordSize (idiv seedLength 2)
                seedDiffs filterParams lg
            else if seedDiffs >? 0 then
              search fuel' p minHitLen minWordSize seedLength
                (isub seedDiffs 1) filterParams lg
            else Ok (None, lg)
      end
  end.

Section Optimise.

(** [util.Log4] is not among the sources: the logarithm to base 4 on
    float64. *)
Variable Log4 : float -> float.

Definition minWordSizeOf (p : PALS) : Z :=
  int_of_float (Log4 (float64 (targetLen p)) - Log4 MaxAvgIndexListLen + 0.5)%float.

Definition seedDiffsOf (minHitLen : Z) (minId : float) : Z :=
  int_of_float (float64 minHitLen * (1 - minId))%float.

(** Optimise the PALS parameters for given memory, kmer length, hit
    length and sequence identity.  An error is returned if no
    satisfactory parameters can be found.  The result is the returned
    error ([None] for nil), the aligner as the call leaves it, and what
    was logged. *)
Definition Optimise (fuel : nat) (p : PALS) (minHitLen : Z) (minId : float)
  : Res (option error * PALS * list LogEntry) :=
  if (minId <? 0)%float || (1 <? minId)%float then
    Ok (Some (NewError "bad minId"), p, [])
  else if minHitLen <=? MinWordLength then
    Ok (Some (NewError "bad minHitLength"), p, [])
  else
    let lg := logIf p [] LogOptimising in
    let filterParams := mkParams 0 0 0 0 in
    let minWordSize := minWordSizeOf p in
    let seedLength := minHitLen in
    let seedDiffs := seedDiffsOf minHitLen minId in
    match search fuel p minHitLen minWordSize seedLength seedDiffs
            filterParams lg with
    | Panic m => Panic m
    | Diverge => Diverge
    | Ok (None, lg) =>
        Ok (Some (NewError "failed to find filter parameters"), p, lg)
    | Ok (Some filterParams, lg) =>
        Ok (None,
            mkPALS (target p) (query p) (selfCompare p) (Some filterParams)
              (Some (mkDPParams minHitLen minId)) (log p) (tubeOffset p)
              (maxMem p),
            lg)
    end.

End Optimise.

(** *** The relaxation of the seed, in the words of the specification *)

(** The seed lengths tried in turn: each is half the one before, as long
    as the one before is still at least [q]. *)
Fixpoint halvings (n : nat) (q s : Z) : list Z :=
  s :: match n with
       | O => []
       | S n' => if s >=? q then halvings n' q (idiv s 2) else []
       end.

(** [d - 1], [d - 2], ..., [0]. *)
Definition countdown (d : Z) : list Z :=
  map (fun i => d - 1 - Z.of_nat i) (seq 0 (Z.to_nat d)).

(** The seeds (length, differences) in the order in which they are
    tried: first the halvings of the seed length with the differences
    unchanged, then, with the last seed length, the differences counted
    down to 0. *)
Definition schedule (minHitLen seedDiffs : Z) : list (Z * Z) :=
  let hs := halvings (Z.to_nat minHitLen) (idiv minHitLen 4) minHitLen in
  map (fun s => (s, seedDiffs)) hs
  ++ map (fun d => (List.last hs minHitLen, d)) (countdown seedDiffs).

(** Run the candidate loop on each seed of a schedule in turn and stop
    at the first seed for which a word size passes; [None] when the
    schedule is used up. *)
Fixpoint firstPassing (p : PALS) (minWordSize : Z) (sched : list (Z * Z))
    (filterParams : Params) (lg : list LogEntry)
  : Res (option Params * list LogEntry) :=
  match sched with
  | [] => Ok (None, lg)
  | (seedLength, seedDiffs) :: rest =>
      let lg := if MaxKmerLen <? minWordSize
                then logIf p lg (LogWordSizeTooSmall MaxKmerLen minWordSize)
                else lg in
      match tryWordSizes (wordSizeCount minWordSize) p seedLength seedDiffs
              minWordSize MaxKmerLen filterParams lg with
      | Panic m => Panic m
      | Diverge => Diverge
      | Ok (minWords, filterParams, lg) =>
          if minWords >? 0 then Ok (Some filterParams, lg)
          else firstPassing p minWordSize rest filterParams lg
      end
  end.

(** [Optimise] as the specification describes it: the parameter checks,
    then the first passing seed of the schedule. *)
Definition OptimiseSpec (Log4 : float -> float) (p : PALS) (minHitLen : Z)
    (minId : float) : Res (option error * PALS * list LogEntry) :=
  if (minId <? 0)%float || (1 <? minId)%float then
    Ok (Some (NewError "bad minId"), p, [])
  else if minHitLen <=? MinWordLength then
    Ok (Some (NewError "bad minHitLength"), p, [])
  else
    match firstPassing p (minWordSizeOf Log4 p)
            (schedule minHitLen (seedDiffsOf minHitLen minId))
            (mkParams 0 0 0 0) (logIf p [] LogOptimising) with
    | Panic m => Panic m
    | Diverge => Diverge
    | Ok (None, lg) =>
        Ok (Some (NewError "failed to find filter parameters"), p, lg)
    | Ok (Some filterParams, lg) =>
        Ok (None,
            mkPALS (target p) (query p) (selfCompare p) (Some filterParams)
              (Some (mkDPParams minHitLen minId)) (log p) (tubeOffset p)
              (maxMem p),
            lg)
    end.

(** The memory estimate in unbounded arithmetic, in the words of the
    specification: the finger array of 4^k words of 4 bytes, the
    positions with a pointer-sized word each, the tubes with the size of
    a [tubeState] each, and the letters of the sequences. *)
Definition memEstimate (p : PALS) (fp : Params) : Z :=
  4 * 4 ^ WordSize fp
  + 8 * targetLen p
  + ((targetLen p + (TubeOffset fp + MaxError fp) - 1) / TubeOffset fp + 1) * 24
  + targetLen p
  + (if Nat.eqb (addr (target p)) (addr (query p)) then 0 else queryLen p).

(** The bytes [MemRequired] adds for the pointers to the sequences. *)
Definition pointerBytes (p : PALS) : Z :=
  if Nat.eqb (addr (target p)) (addr (query p)) then 8 else 16.

(** The parameters of the candidate with word size [k]. *)
Definition candidate (p : PALS) (s d k : Z) : Params :=
  mkParams k s d (if tubeOffset p >? 0 then tubeOffset p
                  else iadd d TubeOffsetDelta).

(** A candidate that passed the three checks. *)
Definition passed (p : PALS) (minWordSize : Z) (fp : Params) : Prop :=
  minWordSize <= WordSize fp <= MaxKmerLen
  /\ fp = candidate p (MinMatch fp) (MaxError fp) (WordSize fp)
  /\ (exists mem, MemRequired p fp = Ok mem
                 /\ forall mx, maxMem p = Some mx -> mem <= mx)
  /\ 0 < MinWordsPerFilterHit (MinMatch fp) (WordSize fp) (MaxError fp)
  /\ (MaxAvgIndexListLen <? AvgIndexListLength p fp)%float = false.

(** The error kinds of the specification, told apart by the message. *)
Definition BadParameter (e : error) : Prop :=
  message e = "bad minId" \/ message e = "bad minHitLength".

Definition ParameterSearchFailed (e : error) : Prop :=
  message e = "failed to find filter parameters".

End pals.

(** ** Code-to-letter lookup tables (util.go) *)

Module util.

(** A CTL holds a code to letter lookup table: [ValueToCode [256]int]. *)
Record CTL : Type := mkCTL { ValueToCode : Byte.byte -> Z }.

Definition byteval (b : Byte.byte) : Z := Z.of_N (Byte.to_N b).

(** Initialise and return a CTL based on a map m. *)
Definition NewCTL (m : gmap Z Z) : CTL :=
  mkCTL (fun b =>
           match m !! byteval b with
           | Some code => code
           | None => -1
           end).

(** Modelled from the spec: [util.Log4] is not among the sources; the
    logarithm to base 4.  The natural logarithm is computed from the
    binary exponent and the mantissa m in [sqrt(1/2), sqrt 2), as
    e*ln 2 + 2*atanh((m-1)/(m+1)), the latter by its series. *)
Definition ln2 : float := 0x1.62e42fefa39efp-1%float.
Definition ln4 : float := 0x1.62e42fefa39efp+0%float.
Definition sqrt_half : float := 0x1.6a09e667f3bcdp-1%float.

Definition atanh_series (u : float) : float :=
  fold_left (fun s k => (s * u + 1 / float64 k)%float)
    [21; 19; 17; 15; 13; 11; 9; 7; 5; 3; 1] (1 / 23)%float.

Definition Log (x : float) : float :=
  if (x <? 0)%float then nan
  else if (x =? 0)%float then neg_infinity
  else if (x =? infinity)%float then infinity
  else if negb (x =? x)%float then nan
  else
    let '(m, e) := Z.frexp x in
    let '(m, e) :=
      if (m <? sqrt_half)%float then ((2 * m)%float, e - 1) else (m, e) in
    let t := ((m - 1) / (m + 1))%float in
    (float64 e * ln2 + 2 * t * atanh_series (t * t))%float.

Definition Log4 (x : float) : float := (Log x / ln4)%float.

End util.

(** ** The dynamic-programming kernel (dp) *)

Module dp.

(** An offset view on an array: [at(i)] is a view on [slice[i-offset]].
    The slice is a handle on a backing array in the store. *)
Record offsetSlice : Type := mkOffsetSlice {
  offset : Z;
  slice : nat
}.

(** A kernel handles the actual dp alignment process.  [store] holds the
    backing arrays of all slices made so far; [vectors] are handles into
    it.  [result] is the channel: the hits sent so far, oldest first. *)
Record kernel : Type := mkKernel {
  target : seq.Seq;
  query : seq.Seq;
  minLen : Z;
  maxDiff : float;
  maxIGap : Z;
  diffCost : Z;
  sameCost : Z;
  matchCost : Z;
  blockCost : Z;
  rMatchCost : float;
  lowEnd : DPHit;
  highEnd : DPHit;
  vectors : nat * nat;
  store : list (list Z);
  trapezoids : list Trapezoid;
  covered : list bool;
  slot : Z;
  result : list DPHit
}.

Definition vecBuffering : Z := 100000.

(** *** State and panics *)

Definition M (A : Type) : Type := kernel -> Res A * kernel.

Definition ret {A : Type} (a : A) : M A := fun k => (Ok a, k).
Definition bind {A B : Type} (m : M A) (f : A -> M B) : M B :=
  fun k =>
    match m k with
    | (Ok a, k') => f a k'
    | (Panic msg, k') => (Panic msg, k')
    | (Diverge, k') => (Diverge, k')
    end.
Definition panic {A : Type} (msg : string) : M A := fun k => (Panic msg, k).
Definition diverge {A : Type} : M A := fun k => (Diverge, k).
Definition get : M kernel := fun k => (Ok k, k).
Definition modify (f : kernel -> kernel) : M unit := fun k => (Ok tt, f k).

Notation "'do' x <- m ; f" := (bind m (fun x => f))
  (at level 10, x name, m at level 100, f at level 200).
Notation "'run' m ; f" := (bind m (fun _ => f))
  (at level 10, m at level 100, f at level 200).

(** A [for] loop: [step] yields [inl s] when the loop is left (its
    condition fails, or a [break]) and [inr s] to go round again.  The
    count [n] bounds the rounds; where it is used up with the loop still
    going, the outcome is [Diverge]. *)
Fixpoint loop {S : Type} (n : nat) (step : S -> M (S + S)) (s : S) : M S :=
  do r <- step s ;
  match r with
  | inl s' => ret s'
  | inr s' =>
      match n with
      | O => diverge
      | S n' => loop n' step s'
      end
  end.

(** The rounds of [for j = a; j <= b; j++] and of its mirror image. *)
Definition rounds (a b : Z) : nat := Z.to_nat (b - a + 1).

(** *** Field updates *)

Definition set_lowEnd (h : DPHit) (k : kernel) : kernel :=
  mkKernel (target k) (query k) (minLen k) (maxDiff k) (maxIGap k)
    (diffCost k) (sameCost k) (matchCost k) (blockCost k) (rMatchCost k)
    h (highEnd k) (vectors k) (store k) (trapezoids k) (covered k)
    (slot k) (result k).

Definition set_highEnd (h : DPHit) (k : kernel) : kernel :=
  mkKernel (target k) (query k) (minLen k) (maxDiff k) (maxIGap k)
    (diffCost k) (sameCost k) (matchCost k) (blockCost k) (rMatchCost k)
    (lowEnd k) h (vectors k) (store k) (trapezoids k) (covered k)
    (slot k) (result k).

Definition set_vectors (v : nat * nat) (st : list (list Z)) (k : kernel) : kernel :=
  mkKernel (target k) (query k) (minLen k) (maxDiff k) (maxIGap k)
    (diffCost k) (sameCost k) (matchCost k) (blockCost k) (rMatchCost k)
    (lowEnd k) (highEnd k) v st (trapezoids k) (covered k)
    (slot k) (result k).

Definition set_covered (c : list bool) (k : kernel) : kernel :=
  mkKernel (target k) (query k) (minLen k) (maxDiff k) (maxIGap k)
    (diffCost k) (sameCost k) (matchCost k) (blockCost k) (rMatchCost k)
    (lowEnd k) (highEnd k) (vectors k) (store k) (trapezoids k) c
    (slot k) (result k).

Definition set_result (r : list DPHit) (k : kernel) : kernel :=
  mkKernel (target k) (query k) (minLen k) (maxDiff k) (maxIGap k)
    (diffCost k) (sameCost k) (matchCost k) (blockCost k) (rMatchCost k)
    (lowEnd k) (highEnd k) (vectors k) (store k) (trapezoids k) (covered k)
    (slot k) r.

(** *** Slices *)

Definition array (k : kernel) (h : nat) : list Z := default [] (store k !! h).

(** [len(k.vectors[0])] *)
Definition lenVectors0 : M Z :=
  fun k => (Ok (Z.of_nat (length (array k (fst (vectors k))))), k).

(** [o.at(i)] *)
Definition at_ (o : offsetSlice) (i : Z) : M Z :=
  fun k =>
    match index (array k (slice o)) (isub i (offset o)) with
    | Some v => (Ok v, k)
    | None => (Panic "index out of range", k)
    end.

(** [o.set(i, v)] *)
Definition set (o : offsetSlice) (i v : Z) : M unit :=
  fun k =>
    let a := array k (slice o) in
    let x := isub i (offset o) in
    if (0 <=? x) && (x <? Z.of_nat (length a)) then
      (Ok tt, set_vectors (vectors k)
                (<[slice o := <[Z.to_nat x := v]> a]> (store k)) k)
    else (Panic "index out of range", k).

(** [allocateVectors] makes two fresh zeroed arrays. *)
Definition allocateVectors (required : Z) : M unit :=
  fun k =>
    let vecMax := iadd (iadd required (Z.shiftr required 2)) vecBuffering in
    if vecMax <? 0 then (Panic "makeslice: len out of range", k)
    else
      let fresh := repeat 0 (Z.to_nat vecMax) in
      let h := length (store k) in
      (Ok tt, set_vectors (h, Datatypes.S h) (store k ++ [fresh; fresh]) k).

Definition targetAt (i : Z) : M Byte.byte :=
  fun k =>
    match index (seq.letters (target k)) i with
    | Some b => (Ok b, k)
    | None => (Panic "index out of range", k)
    end.

Definition queryAt (i : Z) : M Byte.byte :=
  fun k =>
    match index (seq.letters (query k)) i with
    | Some b => (Ok b, k)
    | None => (Panic "index out of range", k)
    end.

Definition max3 (cost score temp : Z) : Z :=
  let ratchet := cost in
  let ratchet := if score >? ratchet then score else ratchet in
  if temp >? ratchet then temp else ratchet.

Definition max2 (score cost : Z) : Z :=
  if cost >? score then cost else score.

(** The running state of a trace between rows. *)
Record band : Type := mkBand {
  b_row : Z;
  b_low : Z;
  b_high : Z;
  b_odd : bool;
  b_this : offsetSlice;
  b_xfactor : Z;
  b_maxScore : Z;
  b_maxLeft : Z;
  b_maxRight : Z;
  b_maxI : Z;
  b_maxJ : Z
}.

(** The running state within a row. *)
Record cell : Type := mkCell {
  c_col : Z;
  c_cost : Z;
  c_score : Z;
  c_maxScore : Z;
  c_maxI : Z;
  c_maxJ : Z
}.

Section Kernel.

(** The lookup table of the package, [lookUp]. *)
Variable lookUp : util.CTL.

(** [k.query.Seq[i] == k.target.Seq[j] && lookUp.ValueToCode[k.query.Seq[i]] >= 0] *)
Definition isMatch (i j : Z) : M bool :=
  do q <- queryAt i ;
  do t <- targetAt j ;
  if Byte.eqb q t then
    do q' <- queryAt i ;
    ret (util.ValueToCode lookUp q' >=? 0)
  else ret false.

(** [for low <= high && v.at(low) < bound { low++ }] *)
Definition shrinkLow (v : offsetSlice) (bound : Z) (low high : Z) : M Z :=
  loop (rounds low high)
    (fun low =>
       if low <=? high then
         do x <- at_ v low ;
         if x <? bound then ret (inr (iadd low 1)) else ret (inl low)
       else ret (inl low))
    low.

(** [for low <= high && v.at(high) < bound { high-- }] *)
Definition shrinkHigh (v : offsetSlice) (bound : Z) (low high : Z) : M Z :=
  loop (rounds low high)
    (fun high =>
       if low <=? high then
         do x <- at_ v high ;
         if x <? bound then ret (inr (isub high 1)) else ret (inl high)
       else ret (inl high))
    high.

(** [if required > len(k.vectors[0]) { k.allocateVectors(required) }] *)
Definition growVectors (strict : bool) (required : Z) : M unit :=
  do n <- lenVectors0 ;
  if (if strict then required >? n else required >=? n)
  then allocateVectors required else ret tt.

(** *** The forward trace *)

(** One row of [traceForward]: the body of [for i = mid; ...; i++]. *)
Definition forwardRow (b : band) : M band :=
  do k <- get ;
  let i := b_row b in
  let thatVector := b_this b in
  let thisVector :=
    mkOffsetSlice (b_low b)
      (if b_odd b then fst (vectors k) else snd (vectors k)) in
  let odd := negb (b_odd b) in
  do score <- at_ thatVector (b_low b) ;
  run set thisVector (b_low b) (isub score (diffCost k)) ;
  do cost <- at_ thisVector (b_low b) ;
  do c <- loop (rounds (iadd (b_low b) 1) (b_high b))
         (fun c =>
            let j := c_col c in
            if j <=? b_high b then
              let temp := c_cost c in
              let cost := c_score c in
              do score <- at_ thatVector j ;
              do m <- isMatch i (isub j 1) ;
              let cost := if m then iadd cost (matchCost k) else cost in
              let cost := isub (max3 cost score temp) (diffCost k) in
              run set thisVector j cost ;
              ret (inr (if cost >=? c_maxScore c
                        then mkCell (iadd j 1) cost score cost (iadd i 1) j
                        else mkCell (iadd j 1) cost score (c_maxScore c)
                               (c_maxI c) (c_maxJ c)))
            else ret (inl c))
         (mkCell (iadd (b_low b) 1) cost score (b_maxScore b) (b_maxI b) (b_maxJ b)) ;
  do c <- (if c_col c <=? seq.Len (target k) then
          let j := c_col c in
          do m <- isMatch i (isub j 1) ;
          let score := if m then iadd (c_score c) (matchCost k) else c_score c in
          let score := isub (max2 score (c_cost c)) (diffCost k) in
          run set thisVector j score ;
          let c := if score >? c_maxScore c
                   then mkCell j (c_cost c) score score (iadd i 1) j
                   else mkCell j (c_cost c) score (c_maxScore c) (c_maxI c) (c_maxJ c) in
          loop (rounds (iadd j 1) (seq.Len (target k)))
            (fun c =>
               let j := c_col c in
               if j <=? seq.Len (target k) then
                 let score := isub (c_score c) (diffCost k) in
                 if score <? isub (c_maxScore c) (blockCost k) then
                   ret (inl (mkCell j (c_cost c) score (c_maxScore c) (c_maxI c) (c_maxJ c)))
                 else
                   run set thisVector j score ;
                   ret (inr (mkCell (iadd j 1) (c_cost c) score (c_maxScore c)
                               (c_maxI c) (c_maxJ c)))
               else ret (inl c))
            (mkCell (iadd j 1) (c_cost c) (c_score c) (c_maxScore c) (c_maxI c) (c_maxJ c))
        else ret c) ;
  let high := isub (c_col c) 1 in
  let bound := isub (c_maxScore c) (blockCost k) in
  do low <- shrinkLow thisVector bound (b_low b) high ;
  do high <- shrinkHigh thisVector bound low high ;
  run growVectors true (iadd (isub high low) 2) ;
  let maxRight := if isub (iadd i 1) low >? b_maxRight b
                  then isub (iadd i 1) low else b_maxRight b in
  let maxLeft := if isub (iadd i 1) high <? b_maxLeft b
                 then isub (iadd i 1) high else b_maxLeft b in
  ret (mkBand (iadd i 1) low high odd thisVector (b_xfactor b)
         (c_maxScore c) maxLeft maxRight (c_maxI c) (c_maxJ c)).

Definition traceForward (mid low high : Z) : M unit :=
  do k <- get ;
  (* Set basis from (mid,low) .. (mid,high) *)
  let low := if low <? 0 then 0 else low in
  let high := if high >? seq.Len (target k) then seq.Len (target k) else high in
  run growVectors false (iadd (isub high low) (maxIGap k)) ;
  do k' <- get ;
  let thisVector := mkOffsetSlice low (fst (vectors k')) in
  do j <- loop (rounds low high)
         (fun j => if j <=? high
                   then run set thisVector j 0 ; ret (inr (iadd j 1))
                   else ret (inl j))
         low ;
  let high := iadd high (maxIGap k) in
  let high := if high >? seq.Len (target k) then seq.Len (target k) else high in
  run loop (rounds j high)
         (fun j => if j <=? high
                   then do x <- at_ thisVector (isub j 1) ;
                        run set thisVector j (isub x (diffCost k)) ;
                        ret (inr (iadd j 1))
                   else ret (inl j))
         j ;
  (* Advance to next row *)
  do b <- loop (Z.to_nat (seq.Len (query k) - mid))
         (fun b =>
            if (b_low b <=? b_high b) && (b_row b <? seq.Len (query k))
            then do b' <- forwardRow b ; ret (inr b')
            else ret (inl b))
         (mkBand mid low high false thisVector (blockCost k)
            0 (isub mid high) (isub mid low) mid low) ;
  modify (fun k'' =>
            set_lowEnd
              (mkDPHit (Abpos (lowEnd k'')) (Bbpos (lowEnd k''))
                 (b_maxJ b) (b_maxI b) (b_maxLeft b) (b_maxRight b)
                 (b_maxScore b) (Error (lowEnd k'')))
              k'').

(** *** The reverse trace *)

(** One row of [traceReverse]: the body of [for i = top - 1; ...; i--]. *)
Definition reverseRow (bottom : Z) (b : band) : M band :=
  do k <- get ;
  do n <- lenVectors0 ;
  let i := b_row b in
  let thatVector := b_this b in
  let thisVector :=
    mkOffsetSlice (isub (b_high b) (isub n 1))
      (if b_odd b then fst (vectors k) else snd (vectors k)) in
  let odd := negb (b_odd b) in
  do score <- at_ thatVector (b_high b) ;
  run set thisVector (b_high b) (isub score (diffCost k)) ;
  do cost <- at_ thisVector (b_high b) ;
  do c <- loop (rounds (b_low b) (isub (b_high b) 1))
         (fun c =>
            let j := c_col c in
            if j >=? b_low b then
              let temp := c_cost c in
              let cost := c_score c in
              do score <- at_ thatVector j ;
              do m <- isMatch i j ;
              let cost := if m then iadd cost (matchCost k) else cost in
              let cost := isub (max3 cost score temp) (diffCost k) in
              run set thisVector j cost ;
              ret (inr (if cost >=? c_maxScore c
                        then mkCell (isub j 1) cost score cost i j
                        else mkCell (isub j 1) cost score (c_maxScore c)
                               (c_maxI c) (c_maxJ c)))
            else ret (inl c))
         (mkCell (isub (b_high b) 1) cost score (b_maxScore b) (b_maxI b) (b_maxJ b)) ;
  do c <- (if c_col c >=? 0 then
          let j := c_col c in
          do m <- isMatch i j ;
          let score := if m then iadd (c_score c) (matchCost k) else c_score c in
          let score := isub (max2 score (c_cost c)) (diffCost k) in
          run set thisVector j score ;
          let c := if score >? c_maxScore c
                   then mkCell j (c_cost c) score score i j
                   else mkCell j (c_cost c) score (c_maxScore c) (c_maxI c) (c_maxJ c) in
          loop (rounds 0 (isub j 1))
            (fun c =>
               let j := c_col c in
               if j >=? 0 then
                 let score := isub (c_score c) (diffCost k) in
                 if score <? isub (c_maxScore c) (b_xfactor b) then
                   ret (inl (mkCell j (c_cost c) score (c_maxScore c) (c_maxI c) (c_maxJ c)))
                 else
                   run set thisVector j score ;
                   ret (inr (mkCell (isub j 1) (c_cost c) score (c_maxScore c)
                               (c_maxI c) (c_maxJ c)))
               else ret (inl c))
            (mkCell (isub j 1) (c_cost c) (c_score c) (c_maxScore c) (c_maxI c) (c_maxJ c))
        else ret c) ;
  let low := iadd (c_col c) 1 in
  let bound := isub (c_maxScore c) (b_xfactor b) in
  do low <- shrinkLow thisVector bound low (b_high b) ;
  do high <- shrinkHigh thisVector bound low (b_high b) ;
  let xfactor := if i =? bottom then blockCost k else b_xfactor b in
  run growVectors true (iadd (isub high low) 2) ;
  let maxRight := if isub i low >? b_maxRight b
                  then isub i low else b_maxRight b in
  let maxLeft := if isub i high <? b_maxLeft b
                 then isub i high else b_maxLeft b in
  ret (mkBand (isub i 1) low high odd thisVector xfactor
         (c_maxScore c) maxLeft maxRight (c_maxI c) (c_maxJ c)).

Definition traceReverse (top low high bottom xfactor : Z) : M unit :=
  do k <- get ;
  (* Set basis from (top,low) .. (top,high) *)
  let low := if low <? 0 then 0 else low in
  let high := if high >? seq.Len (target k) then seq.Len (target k) else high in
  run growVectors false (iadd (isub high low) (maxIGap k)) ;
  do k' <- get ;
  do n <- lenVectors0 ;
  let thisVector := mkOffsetSlice (isub high (isub n 1)) (fst (vectors k')) in
  do j <- loop (rounds low high)
         (fun j => if j >=? low
                   then run set thisVector j 0 ; ret (inr (isub j 1))
                   else ret (inl j))
         high ;
  let low := isub low (maxIGap k) in
  let low := if low <? 0 then 0 else low in
  run loop (rounds low j)
         (fun j => if j >=? low
                   then do x <- at_ thisVector (iadd j 1) ;
                        run set thisVector j (isub x (diffCost k)) ;
                        ret (inr (isub j 1))
                   else ret (inl j))
         j ;
  (* Advance to next row *)
  let xfactor := if isub top 1 <=? bottom then blockCost k else xfactor in
  do b <- loop (Z.to_nat top)
         (fun b =>
            if (b_low b <=? b_high b) && (b_row b >=? 0)
            then do b' <- reverseRow bottom b ; ret (inr b')
            else ret (inl b))
         (mkBand (isub top 1) low high false thisVector xfactor
            0 (isub top high) (isub top low) top low) ;
  modify (fun k'' =>
            set_highEnd
              (mkDPHit (b_maxJ b) (b_maxI b)
                 (Aepos (highEnd k'')) (Bepos (highEnd k''))
                 (b_maxLeft b) (b_maxRight b) (b_maxScore b)
                 (Error (highEnd k'')))
              k'').

(** *** The recursive search for alignable segments *)

(** [0.99], as the nearest float64. *)
Definition coverThreshold : float := 0x1.fae147ae147aep-1%float.

(** The fraction of a trapezoid's area that the hit [h] covers, or
    [None] where the body of the loop says [continue]. *)
Definition overlap (h : DPHit) (trap : Trapezoid) : option float :=
  let trapBProjection := iadd (isub (Top trap) (Bottom trap)) 1 in
  let trapAProjection := iadd (isub (Right trap) (Left trap)) 1 in
  let coverageA :=
    if Left trap <? LowDiagonal h then LowDiagonal h else Left trap in
  let coverageB :=
    if Right trap >? HighDiagonal h then HighDiagonal h else Right trap in
  if coverageA >? coverageB then None
  else
    let coverageA := iadd (isub coverageB coverageA) 1 in
    let coverageB :=
      if Top trap >? Bepos h then iadd (isub (Bepos h) (Bottom trap)) 1
      else trapBProjection in
    Some ((float64 coverageA / float64 trapAProjection)
          * (float64 coverageB / float64 trapBProjection))%float.

(** [k.covered[i] = true] *)
Definition markCovered (i : Z) : M unit :=
  fun k =>
    if (0 <=? i) && (i <? Z.of_nat (length (covered k))) then
      (Ok tt, set_covered (<[Z.to_nat i := true]> (covered k)) k)
    else (Panic "index out of range", k).

(** The body of [for i, trap := range k.trapezoids[k.slot+1:]], over the
    elements of the sub-slice that are still to come. *)
Fixpoint coverLoop (i : Z) (traps : list Trapezoid) : M unit :=
  match traps with
  | [] => ret tt
  | trap :: rest =>
      do k <- get ;
      if Bottom trap >=? Bepos (highEnd k) then ret tt
      else
        match overlap (highEnd k) trap with
        | None => coverLoop (iadd i 1) rest
        | Some f =>
            run (if (coverThreshold <? f)%float then markCovered i else ret tt) ;
            coverLoop (iadd i 1) rest
        end
  end.

(** [k.trapezoids[k.slot+1:]] *)
Definition laterTrapezoids : M (list Trapezoid) :=
  do k <- get ;
  let s := iadd (slot k) 1 in
  if (0 <=? s) && (s <=? Z.of_nat (length (trapezoids k)))
  then ret (drop (Z.to_nat s) (trapezoids k))
  else panic "slice bounds out of range".

(** The alignment's error as [alignRecursion] computes it from the end
    points, the score and the absolute indel. *)
Definition identityOf (rMatchCost : float) (h : DPHit) (indel : Z) : float :=
  ((1 / rMatchCost)
   - float64 (isub (Score h) indel)
     / (rMatchCost * float64 (isub (Bepos h) (Bbpos h))))%float.

(** The condition and the body of the loop
    [for x := 1; x == 1 || ...; x++ { k.traceReverse(...) }]. *)
Definition retryStep (mid x : Z) : M (Z + Z) :=
  do k <- get ;
  if (x =? 1)
     || ((Bbpos (highEnd k) >? iadd mid (imul x (maxIGap k)))
         && (Score (highEnd k) <? Score (lowEnd k)))
  then
    run traceReverse (Bepos (lowEnd k)) (Aepos (lowEnd k))
          (Aepos (lowEnd k)) (iadd mid (maxIGap k))
          (iadd (blockCost k) (imul (imul 2 x) (diffCost k))) ;
    ret (inr (iadd x 1))
  else ret (inl x).

(** The retries of the reverse trace. *)
Definition reverseRetries (fuel : nat) (mid : Z) : M Z :=
  loop fuel (retryStep mid) 1.

(** [h.Error = e] *)
Definition withError (e : float) (h : DPHit) : DPHit :=
  mkDPHit (Abpos h) (Bbpos h) (Aepos h) (Bepos h)
    (LowDiagonal h) (HighDiagonal h) (Score h) e.

(** [h.LowDiagonal, h.HighDiagonal = -h.HighDiagonal, -h.LowDiagonal] *)
Definition swapDiagonals (h : DPHit) : DPHit :=
  mkDPHit (Abpos h) (Bbpos h) (Aepos h) (Bepos h)
    (ineg (HighDiagonal h)) (ineg (LowDiagonal h)) (Score h) (Error h).

(** [k.highEnd.Aepos, k.highEnd.Bepos = k.lowEnd.Aepos, k.lowEnd.Bepos] *)
Definition joinEnds (k : kernel) : kernel :=
  let h := highEnd k in
  set_highEnd
    (mkDPHit (Abpos h) (Bbpos h) (Aepos (lowEnd k)) (Bepos (lowEnd k))
       (LowDiagonal h) (HighDiagonal h) (Score h) (Error h)) k.

(** The acceptance block of [alignRecursion]: test the spans, compute
    the error, mark covered trapezoids and send the hit. *)
Definition accept : M unit :=
  do k <- get ;
  let h := highEnd k in
  if (isub (Bepos h) (Bbpos h) >=? minLen k)
     && (isub (Aepos h) (Abpos h) >=? minLen k)
  then
    let indel := isub (isub (Abpos h) (Bbpos h)) (isub (Aepos h) (Bepos h)) in
    do indel <- (if indel <? 0 then
                   if indel =? ineg indel
                   then panic "dp: weird number overflow"
                   else ret (ineg indel)
                 else ret indel) ;
    let identity := identityOf (rMatchCost k) h indel in
    if (identity <=? maxDiff k)%float then
      run modify (set_highEnd (withError identity h)) ;
      do later <- laterTrapezoids ;
      run coverLoop 0 later ;
      (* diagonals to this point are query-target, not target-query. *)
      run modify (fun k' => set_highEnd (swapDiagonals (highEnd k')) k') ;
      modify (fun k' => set_result (result k' ++ [highEnd k']) k')
    else ret tt
  else ret tt.

(** Handle the recursive search for alignable segments.  [fuel] bounds
    the depth of the recursion and the retries of the reverse trace. *)
Fixpoint alignRecursion (fuel : nat) (workingTrap : Trapezoid) : M unit :=
  match fuel with
  | O => diverge
  | S fuel' =>
      do k <- get ;
      let mid := idiv (iadd (Bottom workingTrap) (Top workingTrap)) 2 in
      run traceForward mid (isub mid (Right workingTrap))
            (isub mid (Left workingTrap)) ;
      run reverseRetries fuel' mid ;
      run modify joinEnds ;
      do k2 <- get ;
      let lowTrap :=
        mkTrapezoid (isub (Bbpos (highEnd k2)) (maxIGap k2))
          (Bottom workingTrap) (Left workingTrap) (Right workingTrap) in
      let highTrap :=
        mkTrapezoid (Top workingTrap)
          (iadd (Bepos (highEnd k2)) (maxIGap k2))
          (Left workingTrap) (Right workingTrap) in
      run accept ;
      run (if (isub (Top lowTrap) (Bottom lowTrap) >? minLen k)
              && (Top lowTrap <? isub (Top workingTrap) (maxIGap k))
           then alignRecursion fuel' lowTrap else ret tt) ;
      if isub (Top highTrap) (Bottom highTrap) >? minLen k
      then alignRecursion fuel' highTrap else ret tt
  end.

(** *** The retries of the reverse trace, in the words of the specification *)

(** The reverse trace with the inflated xfactor of the x-th run. *)
Definition reverseRun (mid x : Z) : M unit :=
  do k <- get ;
  traceReverse (Bepos (lowEnd k)) (Aepos (lowEnd k)) (Aepos (lowEnd k))
    (iadd mid (maxIGap k))
    (iadd (blockCost k) (imul (imul 2 x) (diffCost k))).

(** The x-th run is due: the reverse end's query begin is still above
    mid + x*MaxIGap and its score below the forward score. *)
Definition goesOn (mid x : Z) (k : kernel) : bool :=
  (Bbpos (highEnd k) >? iadd mid (imul x (maxIGap k)))
  && (Score (highEnd k) <? Score (lowEnd k)).

(** Run x without a test, then run x+1, x+2, ... each while it is due;
    the result is the number of the first run that is not made.  [n]
    bounds the number of further runs. *)
Fixpoint retriesSpec (n : nat) (mid x : Z) : M Z :=
  run reverseRun mid x ;
  match n with
  | O => diverge
  | S n' =>
      do k <- get ;
      if goesOn mid (x + 1) k then retriesSpec n' mid (x + 1)
      else ret (x + 1)
  end.

End Kernel.

(** *** What an emitted hit has to satisfy *)

(** The absolute indel of a hit. *)
Definition absIndel (h : DPHit) : Z :=
  let indel := isub (isub (Abpos h) (Bbpos h)) (isub (Aepos h) (Bepos h)) in
  if indel <? 0 then ineg indel else indel.

(** Both spans reach the minimum length, the recorded error is the one
    the formula gives, and it is at most [maxDiff]. *)
Definition acceptable (minLen : Z) (maxDiff rMatchCost : float) (h : DPHit)
  : Prop :=
  minLen <= isub (Aepos h) (Abpos h)
  /\ minLen <= isub (Bepos h) (Bbpos h)
  /\ Error h = identityOf rMatchCost h (absIndel h)
  /\ (Error h <=? maxDiff)%float = true.

(** *** The slots that the covering loop marks *)

(** The indices [i] at which the loop over the later trapezoids executes
    [k.covered[i] = true], in order; the first trapezoid has index
    [i]. *)
Fixpoint marked (h : DPHit) (i : Z) (traps : list Trapezoid) : list Z :=
  match traps with
  | [] => []
  | trap :: rest =>
      if Bottom trap >=? Bepos h then []
      else
        match overlap h trap with
        | None => marked h (iadd i 1) rest
        | Some f =>
            if (coverThreshold <? f)%float
            then i :: marked h (iadd i 1) rest
            else marked h (iadd i 1) rest
        end
  end.

(** *** Relations between the state before and after *)

(** A computation steps along [R] when [R] relates the state before it
    to the state after it, whatever its outcome. *)
Definition steps (R : kernel -> kernel -> Prop) {A : Type} (m : M A) : Prop :=
  forall k, R k (snd (m k)).

(** The fields that the traces leave alone: all but the two ends and
    the vectors. *)
Definition outer (k : kernel) :=
  (target k, query k, minLen k, maxDiff k, maxIGap k, diffCost k,
   sameCost k, matchCost k, blockCost k, rMatchCost k,
   trapezoids k, covered k, slot k, result k).

(** The fields that the covering loop leaves alone: all but [covered]. *)
Definition uncovered (k : kernel) :=
  (target k, query k, minLen k, maxDiff k, maxIGap k, diffCost k,
   sameCost k, matchCost k, blockCost k, rMatchCost k,
   lowEnd k, highEnd k, vectors k, store k, trapezoids k, slot k, result k).

Definition keeps {V A : Type} (view : kernel -> V) (m : M A) : Prop :=
  steps (fun k k' => view k' = view k) m.

(** *** Values and states under an invariant *)

(** From a state in [P], a run of [m] that ends with a value ends in [Q]. *)
Definition triple {A : Type} (P : kernel -> Prop) (m : M A)
    (Q : A -> kernel -> Prop) : Prop :=
  forall k, P k -> match m k with (Ok a, k') => Q a k' | _ => True end.

(** [m] keeps the invariant [inv] and its value is in [Q]. *)
Definition val (inv : kernel -> Prop) {A : Type} (m : M A) (Q : A -> Prop)
  : Prop :=
  triple inv m (fun a k => inv k /\ Q a).

(** *** Where the ends of a trace lie *)

(** Between rows of the forward trace over the target [T]: the band lies
    in the target, and the best end so far is a position in the target
    and a row above the least integer. *)
Definition bandOk (T : seq.Seq) (b : band) : Prop :=
  0 <= b_low b <= MaxInt
  /\ MinInt <= b_high b <= seq.Len T
  /\ 0 <= b_maxJ b <= MaxInt
  /\ MinInt < b_maxI b <= MaxInt
  /\ inrange (b_row b).

Definition cellOk (lo hi : Z) (c : cell) : Prop :=
  lo <= c_col c <= hi
  /\ 0 <= c_maxJ c <= MaxInt
  /\ MinInt < c_maxI c <= MaxInt.

Definition forwardOk (h : DPHit) : Prop :=
  0 <= Aepos h <= MaxInt /\ MinInt < Bepos h <= MaxInt.

(** In the reverse trace from the row [top]: the begin row is [top]
    itself or a row below it, not below 0. *)
Definition rowOk (top i : Z) : Prop := i = top \/ 0 <= i < top.

Definition revBandOk (T : seq.Seq) (top : Z) (b : band) : Prop :=
  0 <= b_low b <= MaxInt
  /\ MinInt <= b_high b <= seq.Len T
  /\ 0 <= b_maxJ b <= MaxInt
  /\ rowOk top (b_maxI b)
  /\ MinInt <= b_row b < top.

Definition revCellOk (top lo hi : Z) (c : cell) : Prop :=
  lo <= c_col c <= hi
  /\ 0 <= c_maxJ c <= MaxInt
  /\ rowOk top (c_maxI c).

Definition reverseOk (top : Z) (h : DPHit) : Prop :=
  0 <= Abpos h <= MaxInt /\ rowOk top (Bbpos h).

(** Both ends of the hit that [alignRecursion] tests. *)
Definition endsOk (h : DPHit) : Prop :=
  0 <= Abpos h <= MaxInt /\ 0 <= Aepos h <= MaxInt
  /\ MinInt < Bepos h <= MaxInt /\ rowOk (Bepos h) (Bbpos h).

Definition sameOuter (O k : kernel) : Prop := outer k = outer O.

(** *** The hits that are sent *)

(** What one pass of the acceptance block does to the state: all but
    the high end, [covered] and the result stay; nothing is sent, or
    the high end is, with its error and with its diagonals exchanged,
    and it is acceptable. *)
Definition emitted (k k' : kernel) : Prop :=
  minLen k' = minLen k /\ maxDiff k' = maxDiff k
  /\ rMatchCost k' = rMatchCost k
  /\ target k' = target k /\ query k' = query k
  /\ (result k' = result k
      \/ exists e,
           result k' = result k ++ [swapDiagonals (withError e (highEnd k))]
           /\ acceptable (minLen k) (maxDiff k) (rMatchCost k)
                (swapDiagonals (withError e (highEnd k)))).

(** The spans as plain differences. *)
Definition plainSpans (minLen : Z) (h : DPHit) : Prop :=
  minLen <= Aepos h - Abpos h /\ minLen <= Bepos h - Bbpos h.

(** The sequences are no longer than a slice can be. *)
Definition bounded (k : kernel) : Prop :=
  seq.Len (target k) < MaxInt /\ seq.Len (query k) <= MaxInt.

(** The state has the same sequences and thresholds, and the hits sent
    in between are acceptable; their spans are the plain differences
    where the sequences are bounded. *)
Definition sendsOk (k k' : kernel) : Prop :=
  minLen k' = minLen k /\ maxDiff k' = maxDiff k
  /\ rMatchCost k' = rMatchCost k
  /\ target k' = target k /\ query k' = query k
  /\ exists new,
       result k' = result k ++ new
       /\ Forall (acceptable (minLen k) (maxDiff k) (rMatchCost k)) new
       /\ (bounded k -> Forall (plainSpans (minLen k)) new).

(** Modelled from the spec: the construction of the kernel by
    [AlignTraps] is not among the sources.  The kernel gets the
    aligner's sequences and costs, the minimum hit length and
    [maxDiff = 1 - MinId]; nothing is covered and no vector is allocated
    yet. *)
Definition newKernel (target query : seq.Seq) (minHitLength : Z) (minId : float)
    (trapezoids : list Trapezoid) (slot : Z) : kernel :=
  let zero := mkDPHit 0 0 0 0 0 0 0 0%float in
  mkKernel target query minHitLength (1 - minId)%float
    pals.MaxIGap pals.DiffCost pals.SameCost pals.MatchCost pals.BlockCost
    pals.RMatchCost zero zero (0%nat, 0%nat) [[]] trapezoids
    (repeat false (length trapezoids)) slot [].

End dp.

(** ** Concrete inputs used in the examples below *)

Module examples.

(** A hit of the target chr1, 10..20, on the query contig ctg7,
    100..110. *)
Definition pair0 : pair.FeaturePair :=
  pair.mkFeaturePair
    (Some (feat.mkFeature "chr1" "" "" 10 20 "" None 0 0 ""))
    (Some (feat.mkFeature "ctg7" "" "" 100 110 "" None 0 0 ""))
    10 0%float 1.

(** A packed sequence of 2048 letters in one contig, with bins of 1024. *)
Definition ctg1 : seq.Seq := seq.mkSeq "ctg1" (repeat Byte.x41 2048) None.
Definition packed : seq.Seq :=
  seq.mkSeq "packed" (repeat Byte.x41 2048)
    (Some (seq.mkSeqMap [seq.mkContig ctg1 0] [0; 0])).

(** The lookup table for nucleotides: A, C, G and T in either case. *)
Definition lookUpN : util.CTL :=
  util.NewCTL (list_to_map [(65, 0); (67, 1); (71, 2); (84, 3);
                            (97, 0); (99, 1); (103, 2); (116, 3)]).

Definition acgt2 : seq.Seq :=
  seq.mkSeq "acgt2" (String.list_byte_of_string "ACGTACGT") None.

(** Two trapezoids over the same diagonals, sorted by [Bottom]; the
    second lies inside the first. *)
Definition trap0 : Trapezoid := mkTrapezoid 8 0 0 0.
Definition trap1 : Trapezoid := mkTrapezoid 8 1 0 0.

(** The kernel for ACGTACGT against itself, at the first trapezoid, with
    minimum hit length 4 and minimum identity 0.9. *)
Definition kernel0 : dp.kernel :=
  dp.newKernel acgt2 acgt2 4 0x1.ccccccccccccdp-1%float [trap0; trap1] 0.

(** A self-comparison of 1000 letters with a negative tube offset. *)
Definition selfSmall : pals.PALS :=
  pals.New (pals.mkSeqPtr 1 1000) (pals.mkSeqPtr 1 1000) true (-1) None true.

(** A self-comparison of 2^36 letters: the least word size is 16. *)
Definition selfHuge : pals.PALS :=
  pals.New (pals.mkSeqPtr 1 (2 ^ 36)) (pals.mkSeqPtr 1 (2 ^ 36)) true 0 None true.

(** A million letters under a memory ceiling of 10240 bytes. *)
Definition selfCapped : pals.PALS :=
  pals.New (pals.mkSeqPtr 1 1000000) (pals.mkSeqPtr 1 1000000) true 0
    (Some 10240) false.

(** Two sequences of 1000 and 500 letters under a ceiling of 2^33 bytes. *)
Definition twoSeqs : pals.PALS :=
  pals.New (pals.mkSeqPtr 1 1000) (pals.mkSeqPtr 2 500) false 0
    (Some (2 ^ 33)) false.

End examples.

(** ** Notions used in the further properties *)

Module floats.

(** A float that is not a negative number: a zero, an infinity, a NaN,
    or a positive number. *)
Definition notNegative (x : spec_float) : Prop :=
  forall m e, x <> S754_finite true m e.

End floats.

Module checks.

Import pals.

(** A candidate fails one of the three checks of the candidate loop of
    [Optimise]: the memory ceiling, the number of words per filter hit,
    or the average length of the index lists. *)
Definition failsCheck (p : PALS) (fp : Params) : Prop :=
  (exists mem mx, MemRequired p fp = Ok mem /\ maxMem p = Some mx /\ mx < mem)
  \/ MinWordsPerFilterHit (MinMatch fp) (WordSize fp) (MaxError fp) <= 0
  \/ (MaxAvgIndexListLen <? AvgIndexListLength p fp)%float = true.

(** [fp] with another word size. *)
Definition withWordSize (k : Z) (fp : Params) : Params :=
  mkParams k (MinMatch fp) (MaxError fp) (TubeOffset fp).

End checks.

Module dpViews.

Import dp.

(** The fields that a run of the kernel never writes: the sequences, the
    thresholds and costs, the trapezoids and the slot. *)
Definition config (k : kernel) :=
  (target k, query k, minLen k, maxDiff k, maxIGap k, diffCost k,
   sameCost k, matchCost k, blockCost k, rMatchCost k,
   trapezoids k, slot k).

(** [c'] has a flag for each flag of [c], and every flag set in [c] is
    set in [c']. *)
Definition coversMore (c c' : list bool) : Prop :=
  length c' = length c /\ forall i, c !! i = Some true -> c' !! i = Some true.

Definition settles (k k' : kernel) : Prop :=
  config k' = config k /\ coversMore (covered k) (covered k').

(** The message of the overflow guard of [alignRecursion]. *)
Definition weird : string := "dp: weird number overflow".

(** [m] does not panic with the message of the overflow guard. *)
Definition quiet {A : Type} (m : M A) : Prop :=
  forall k msg, fst (m k) = Panic msg -> msg <> weird.

(** From a state in [P], [m] ends in [Q] or panics with another message
    than that of the overflow guard. *)
Definition safe {A : Type} (P : kernel -> Prop) (m : M A)
    (Q : A -> kernel -> Prop) : Prop :=
  forall k, P k ->
    match m k with
    | (Ok a, k') => Q a k'
    | (Panic msg, _) => msg <> weird
    | (Diverge, _) => True
    end.

(** The hit lies where a hit can lie: both ends in place, and with a
    positive minimum length the begin before the end on both
    sequences. *)
Definition inPlace (minLen : Z) (h : DPHit) : Prop :=
  endsOk h
  /\ (0 < minLen ->
      0 <= Abpos h < Aepos h /\ 0 <= Bbpos h < Bepos h).

(** The hits sent in between lie in place where the sequences are
    bounded. *)
Definition sendsInPlace (k k' : kernel) : Prop :=
  minLen k' = minLen k /\ target k' = target k /\ query k' = query k
  /\ exists new,
       result k' = result k ++ new
       /\ (bounded k -> Forall (inPlace (minLen k)) new).

End dpViews.

(** ** Expanding a written record into a feature pair *)

Module expand.

(** *** The library functions that [ExpandFeature] calls

    [strconv.Atoi] and [strings.Fields] belong to the language's
    library; they are written out here for ASCII text, as the library
    documents them. *)

(** The two kinds of error of [strconv]: [ErrSyntax] and [ErrRange]. *)
Inductive numError : Type := ErrSyntax | ErrRange.

Definition isDigit (c : Ascii.ascii) : bool :=
  ((48 <=? Ascii.N_of_ascii c) && (Ascii.N_of_ascii c <=? 57))%N.

Definition digitVal (c : Ascii.ascii) : Z := Z.of_N (Ascii.N_of_ascii c) - 48.

(** The digit loop of [strconv.ParseUint] for base 10 and 64 bits: a
    character that is no digit is a syntax error; a value that leaves
    the range is a range error, met before the characters behind it are
    looked at. *)
Definition cutoff : Z := (2 ^ 64 - 1) / 10 + 1.

Fixpoint parseUint (s : string) (n : Z) : Z + numError :=
  match s with
  | EmptyString => inl n
  | String c r =>
      if negb (isDigit c) then inr ErrSyntax
      else if n >=? cutoff then inr ErrRange
      else
        let n1 := n * 10 + digitVal c in
        if n1 >? 2 ^ 64 - 1 then inr ErrRange else parseUint r n1
  end.

(** [strconv.Atoi]: an optional sign and decimal digits, within the
    range of [int]. *)
Definition magnitude (neg : bool) (s : string) : Z + numError :=
  match s with
  | EmptyString => inr ErrSyntax
  | _ =>
      match parseUint s 0 with
      | inr e => inr e
      | inl un =>
          if neg then if un >? 2 ^ 63 then inr ErrRange else inl (- un)
          else if un >=? 2 ^ 63 then inr ErrRange else inl un
      end
  end.

Definition Atoi (s : string) : Z + numError :=
  match s with
  | EmptyString => inr ErrSyntax
  | String c r =>
      if (Ascii.N_of_ascii c =? 45)%N then magnitude true r
      else if (Ascii.N_of_ascii c =? 43)%N then magnitude false r
      else magnitude false s
  end.

(** White space among the ASCII characters, [unicode.IsSpace]. *)
Definition isSpace (c : Ascii.ascii) : bool :=
  let n := Ascii.N_of_ascii c in ((9 <=? n) && (n <=? 13) || (n =? 32))%N.

Definition isASCII (c : Ascii.ascii) : bool := (Ascii.N_of_ascii c <? 128)%N.

Fixpoint allASCII (s : string) : bool :=
  match s with
  | EmptyString => true
  | String c r => isASCII c && allASCII r
  end.

(** [strings.Fields] on ASCII text: the maximal runs of characters that
    are not white space.  [cur] is the field being read. *)
Fixpoint fieldsFrom (cur : string) (s : string) : list string :=
  match s with
  | EmptyString => match cur with EmptyString => [] | _ => [cur] end
  | String c r =>
      if isSpace c then
        match cur with
        | EmptyString => fieldsFrom "" r
        | _ => cur :: fieldsFrom "" r
        end
      else fieldsFrom (cur +:+ String c "") r
  end.

(** [s[:len(s)-1]] *)
Definition dropLast (s : string) : option string :=
  match String.length s with
  | O => None
  | S n => Some (String.substring 0 n s)
  end.

Section ExpandFeature.

(** The parts of the library that are left open: the errors of
    [strconv], [strconv.ParseFloat], and [strings.Fields] on text that
    is not ASCII. *)
Variable atoiError : string -> numError -> error.
Variable ParseFloat : string -> float + error.
Variable FieldsUnicode : string -> list string.

Definition Fields (s : string) : list string :=
  if allASCII s then fieldsFrom "" s else FieldsUnicode s.

Definition notPair : error := NewError "pals: not a feature pair".

(** Expand a [feat.Feature] containing a PALS-type feature attribute
    into a FeaturePair.  [A] of the pair is the pointer [f] itself, so
    it shows [f] as the call leaves it: without score, attributes and
    strand. *)
Definition ExpandFeature (f : feat.Feature) : Res (pair.FeaturePair + error) :=
  let a := feat.Attributes f in
  if (String.length a <? 7)%nat || negb (String.eqb (String.substring 0 7 a) "Target ")
  then Ok (inr notPair)
  else
    match Fields a with
    | [_; f1; f2; f3; _; f5] =>
        match Atoi f2 with
        | inr e => Ok (inr (atoiError f2 e))
        | inl s =>
            let s := isub s 1 in
            match dropLast f3 with
            | None => Panic "slice bounds out of range"
            | Some f3' =>
                match Atoi f3' with
                | inr e => Ok (inr (atoiError f3' e))
                | inl e =>
                    match ParseFloat f5 with
                    | inr err => Ok (inr err)
                    | inl maxe =>
                        match feat.Score f with
                        | None => Panic "nil pointer dereference"
                        | Some score =>
                            Ok (inl (pair.mkFeaturePair
                                  (Some (feat.mkFeature (feat.ID f)
                                           (feat.Source f) (feat.Location f)
                                           (feat.Start f) (feat.End_ f)
                                           (feat.Feature_ f) None 0
                                           (feat.Frame f) ""))
                                  (Some (feat.mkFeature
                                           (f1 +:+ ":" +:+ pretty s +:+ ".."
                                               +:+ pretty e)
                                           "" f1 s e "" None 0 0 ""))
                                  (int_of_float score) maxe (feat.Strand f)))
                        end
                    end
                end
            end
        end
    | _ => Ok (inr notPair)
    end.

End ExpandFeature.

(** A word: not empty, ASCII, and without white space. *)
Fixpoint plain (s : string) : bool :=
  match s with
  | EmptyString => true
  | String c r => isASCII c && negb (isSpace c) && plain r
  end.

Definition word (s : string) : Prop := s <> "" /\ plain s = true.

End expand.

(** ** Nucleic acid sequences with qualities (exp/seq/nucleic/qseq.go) *)

Module nucleic.

(** [alphabet.QLetter]: a letter with its Phred quality, both bytes. *)
Record QLetter : Type := mkQLetter { L : Byte.byte; Q : Z }.

(** What [QSeq] asks of its alphabet, [alphabet.Nucleic]. *)
Record Nucleic : Type := mkNucleic {
  ComplementTable : list Byte.byte;
  IsValid : Byte.byte -> bool;
  Gap : Byte.byte;
  Ambiguous : Byte.byte
}.

(** [seq.Position] *)
Record Position : Type := mkPosition { Pos : Z; Ind : Z }.

(** QSeq is a basic nucleic acid sequence with Phred quality scores.
    [Meta] is kept only as present or absent, and the two function
    fields [LowQFilter] and [Stringify] are left out.  [Strand] is a
    small signed integer, an [int8] here. *)
Record QSeq : Type := mkQSeq {
  ID : string;
  Desc : string;
  Loc : string;
  S : list QLetter;
  Strand : Z;
  Threshold : Z;
  Meta : bool;
  alphabet : Nucleic;
  circular : bool;
  offset : Z;
  encoding : Z
}.

Definition set_S (s : list QLetter) (q : QSeq) : QSeq :=
  mkQSeq (ID q) (Desc q) (Loc q) s (Strand q) (Threshold q) (Meta q)
    (alphabet q) (circular q) (offset q) (encoding q).

(** Two's complement reduction to an [int8]. *)
Definition wrap8 (z : Z) : Z := (z + 128) mod 256 - 128.

(** Create a new QSeq with the given id, letter sequence, alphabet and
    quality encoding. *)
Definition NewQSeq (id : string) (ql : list QLetter) (alpha : Nucleic)
    (encode : Z) : QSeq :=
  mkQSeq id "" "" ([] ++ ql) 1 2 false alpha false 0 encode.

(** Return the length of the sequence. *)
Definition Len (q : QSeq) : Z := Z.of_nat (length (S q)).

(** Return the start and the end position of the sequence in global
    coordinates. *)
Definition Start (q : QSeq) : Z := offset q.
Definition End_ (q : QSeq) : Z := iadd (offset q) (Len q).

Section Methods.

(** [DefaultQphred], a variable of the package. *)
Variable DefaultQphred : Z.

(** Append letters to the sequence, the DefaultQphred value is used for
    quality scores. *)
Definition AppendLetters (a : list Byte.byte) (q : QSeq) : QSeq :=
  let l := Len q in
  let s := take (Z.to_nat l)
             (S q ++ repeat (mkQLetter Byte.x00 0) (length a)) in
  set_S (fold_left (fun s v => s ++ [mkQLetter v DefaultQphred]) a s) q.

(** Append letters with quality scores to the seq. *)
Definition AppendQLetters (a : list QLetter) (q : QSeq) : QSeq :=
  set_S (S q ++ a) q.

(** Return the letter at position pos. *)
Definition At (pos : Position) (q : QSeq) : Res QLetter :=
  if negb (Ind pos =? 0) then Panic "nucleic: index out of range"
  else
    match index (S q) (isub (Pos pos) (offset q)) with
    | Some l => Ok l
    | None => Panic "index out of range"
    end.

(** Set the letter at position pos to l. *)
Definition Set_ (pos : Position) (l : QLetter) (q : QSeq) : Res QSeq :=
  if negb (Ind pos =? 0) then Panic "nucleic: index out of range"
  else
    let i := isub (Pos pos) (offset q) in
    if (0 <=? i) && (i <? Len q)
    then Ok (set_S (<[Z.to_nat i := l]> (S q)) q)
    else Panic "index out of range".

(** Validate the letters of the sequence according to the specified
    alphabet: the loop over [self.S] from the index [i] on. *)
Fixpoint validateFrom (valid : Byte.byte -> bool) (i : Z) (s : list QLetter)
  : bool * Z :=
  match s with
  | [] => (true, -1)
  | ql :: rest =>
      if negb (valid (L ql)) then (false, i)
      else validateFrom valid (iadd i 1) rest
  end.

Definition Validate (q : QSeq) : bool * Z :=
  validateFrom (IsValid (alphabet q)) 0 (S q).

(** [complement[l]] *)
Definition complementOf (complement : list Byte.byte) (l : Byte.byte)
  : option Byte.byte :=
  complement !! N.to_nat (Byte.to_N l).

(** The loop of [revComp]: the two ends exchange their complemented
    letters and their qualities, and move inwards; a letter left in the
    middle is complemented in place.  The count [n] bounds the rounds. *)
Fixpoint revCompFrom (n : nat) (complement : list Byte.byte)
    (s : list QLetter) (i j : Z) : Res (list QLetter) :=
  if i <? j then
    match n with
    | O => Diverge
    | Datatypes.S n' =>
        match index s j, index s i with
        | Some sj, Some si =>
            match complementOf complement (L sj),
                  complementOf complement (L si) with
            | Some cj, Some ci =>
                let s := <[Z.to_nat i := mkQLetter cj (Q si)]> s in
                let s := <[Z.to_nat j := mkQLetter ci (Q sj)]> s in
                let s := <[Z.to_nat i := mkQLetter cj (Q sj)]> s in
                let s := <[Z.to_nat j := mkQLetter ci (Q si)]> s in
                revCompFrom n' complement s (iadd i 1) (isub j 1)
            | _, _ => Panic "index out of range"
            end
        | _, _ => Panic "index out of range"
        end
    end
  else if i =? j then
    match index s i with
    | Some si =>
        match complementOf complement (L si) with
        | Some ci => Ok (<[Z.to_nat i := mkQLetter ci (Q si)]> s)
        | None => Panic "index out of range"
        end
    | None => Panic "index out of range"
    end
  else Ok s.

Definition revComp (s : list QLetter) (complement : list Byte.byte)
  : Res (list QLetter) :=
  revCompFrom (length s) complement s 0 (isub (Z.of_nat (length s)) 1).

(** Reverse complement the sequence. *)
Definition RevComp (q : QSeq) : Res QSeq :=
  match revComp (S q) (ComplementTable (alphabet q)) with
  | Ok s =>
      Ok (mkQSeq (ID q) (Desc q) (Loc q) s (wrap8 (- Strand q)) (Threshold q)
            (Meta q) (alphabet q) (circular q) (offset q) (encoding q))
  | Panic m => Panic m
  | Diverge => Diverge
  end.

(** [sequtils.Truncate] is not among the sources. *)
Variable Truncate : list QLetter -> Z -> Z -> bool -> list QLetter + error.

(** Return a subsequence from start to end, wrapping if the sequence is
    circular.  The result is the pointer ([None] for nil) and the
    error. *)
Definition Subseq (start end_ : Z) (q : QSeq) : option QSeq * option error :=
  match Truncate (S q) (isub start (offset q)) (isub end_ (offset q))
          (circular q) with
  | inl cut =>
      let s := q in
      let s := set_S cut s in
      let s := set_S [] s in
      (Some (mkQSeq (ID s) (Desc s) (Loc s) (S s) (Strand s) (Threshold s)
               false (alphabet s) false start (encoding s)),
       None)
  | inr _ => (None, None)
  end.

(** Truncate the sequence from start to end, wrapping if the sequence is
    circular.  The result is the sequence as the call leaves it and the
    error. *)
Definition Truncate_ (start end_ : Z) (q : QSeq) : QSeq * option error :=
  match Truncate (S q) (isub start (offset q)) (isub end_ (offset q))
          (circular q) with
  | inl cut =>
      (mkQSeq (ID q) (Desc q) (Loc q) cut (Strand q) (Threshold q)
         (Meta q) (alphabet q) false start (encoding q),
       None)
  | inr err => (q, Some err)
  end.

End Methods.

(** The letter-wise complement that [revComp] computes. *)
Definition complemented (complement : list Byte.byte) (ql : QLetter) : QLetter :=
  mkQLetter (default Byte.x00 (complementOf complement (L ql))) (Q ql).

End nucleic.

(** ** Further concrete inputs *)

Module samples.

Import examples.

(** A second hit, on the opposite strand. *)
Definition pair1 : pair.FeaturePair :=
  pair.mkFeaturePair
    (Some (feat.mkFeature "chr2" "" "" 5 9 "" None 0 0 ""))
    (Some (feat.mkFeature "ctg3" "" "" 40 44 "" None 0 0 ""))
    4 0%float (-1).

(** The shared record after [pair0] was written. *)
Definition written0 : feat.Feature :=
  feat.mkFeature "" "pals" "ctg7" 100 110 "hit" (Some (float64 10)) 1 (-1)
    "Target chr1 11 20; maxe 0".

(** Stand-ins for the parts of the library that are left open. *)
Definition fmt0 (f : float) : string := "0".
Definition atoiError0 (s : string) (e : expand.numError) : error := NewError s.
Definition ParseFloat0 (s : string) : float + error := inl 0%float.
Definition FieldsUnicode0 (s : string) : list string := [].

(** A thousand letters against themselves under a ceiling of 2^20
    bytes. *)
Definition selfTight : pals.PALS :=
  pals.New (pals.mkSeqPtr 1 1000) (pals.mkSeqPtr 1 1000) true 0
    (Some (2 ^ 20)) false.

(** A hit inside the packed example, on both sequences. *)
Definition hit0 : DPHit := mkDPHit 10 20 300 310 0 0 7 0%float.

(** The kernel of the examples with two vectors of three cells. *)
Definition kernel1 : dp.kernel :=
  dp.set_vectors (0%nat, 1%nat) [[0; 0; 0]; [0; 0; 0]] kernel0.

(** The complement table of the nucleotides: A and T, C and G change
    places in either case, every other byte stays. *)
Definition complementByte (b : Byte.byte) : Byte.byte :=
  match b with
  | Byte.x41 => Byte.x54 | Byte.x54 => Byte.x41
  | Byte.x43 => Byte.x47 | Byte.x47 => Byte.x43
  | Byte.x61 => Byte.x74 | Byte.x74 => Byte.x61
  | Byte.x63 => Byte.x67 | Byte.x67 => Byte.x63
  | _ => b
  end.

Definition allBytes : list Byte.byte :=
  omap (fun n => Byte.of_N (N.of_nat n)) (seq 0 256).

Definition dna : nucleic.Nucleic :=
  nucleic.mkNucleic (map complementByte allBytes)
    (fun b => match b with
              | Byte.x41 | Byte.x43 | Byte.x47 | Byte.x54 => true
              | _ => false
              end)
    Byte.x2d Byte.x6e.

(** ACGN with qualities 30, 31, 32, 33. *)
Definition acgn : nucleic.QSeq :=
  nucleic.NewQSeq "acgn"
    [nucleic.mkQLetter Byte.x41 30; nucleic.mkQLetter Byte.x43 31;
     nucleic.mkQLetter Byte.x47 32; nucleic.mkQLetter Byte.x4e 33]
    dna 0.

End samples.

(** * Properties *)

(** ** Machine arithmetic *)

Module GoIntFacts.

Lemma wrap_inrange z : inrange (wrap z).
Proof.
  unfold inrange, wrap, MinInt, MaxInt.
  pose proof (Z.mod_pos_bound (z + 2 ^ 63) (2 ^ 64) ltac:(lia)). lia.
Qed.

Lemma wrap_id z : inrange z -> wrap z = z.
Proof.
  unfold inrange, wrap, MinInt, MaxInt. intros H.
  rewrite Z.mod_small by lia. lia.
Qed.

Lemma isub_exact a b : inrange (a - b) -> isub a b = a - b.
Proof. apply wrap_id. Qed.

Lemma iadd_exact a b : inrange (a + b) -> iadd a b = a + b.
Proof. apply wrap_id. Qed.

Lemma imul_exact a b : inrange (a * b) -> imul a b = a * b.
Proof. apply wrap_id. Qed.

Lemma idiv_exact a b : inrange (Z.quot a b) -> idiv a b = Z.quot a b.
Proof. apply wrap_id. Qed.

End GoIntFacts.

(** ** Feature pairs and the GFF adapter *)

Module pairFacts.

Import pair.

(** C10.  [Invert] exchanges the two features and keeps score, error and
    strand; inverting twice gives the pair back, field for field. *)
Theorem Invert_swaps_involutive (fp : FeaturePair) :
  A (Invert fp) = B fp /\ B (Invert fp) = A fp
  /\ Score (Invert fp) = Score fp
  /\ Error (Invert fp) = Error fp
  /\ Strand (Invert fp) = Strand fp
  /\ Invert (Invert fp) = fp.
Proof. destruct fp as [a b s e st]. cbn. repeat split. Qed.

End pairFacts.

Module writerFacts.

Import pair writer examples.

(** [Write] never touches the source and the feature type of the shared
    record. *)
Lemma Write_keeps_type fmt_g2 t p t' :
  Write fmt_g2 t p = Ok t' ->
  feat.Source t' = feat.Source t /\ feat.Feature_ t' = feat.Feature_ t.
Proof.
  unfold Write. destruct (B p); [|discriminate].
  destruct (A p); [|discriminate].
  intros [= <-]. cbn. split; reflexivity.
Qed.

Lemma t_state_type fmt_g2 t :
  t_state fmt_g2 t -> feat.Source t = "pals" /\ feat.Feature_ t = "hit".
Proof.
  induction 1 as [|t p t' _ [IHs IHf] Hw].
  - split; reflexivity.
  - destruct (Write_keeps_type _ _ _ _ Hw) as [-> ->]. auto.
Qed.

(** C8, as amended.  The record that [Write] hands to the GFF writer has
    the query feature's id as location, source "pals" and type "hit",
    the query feature's stored start and end, the pair's score and
    strand, frame -1, and the attributes
    [Target <target id> <target start + 1> <target end>; maxe <error>]. *)
Theorem Write_record fmt_g2 t p a b :
  t_state fmt_g2 t -> A p = Some a -> B p = Some b ->
  exists r, Write fmt_g2 t p = Ok r
    /\ feat.Location r = feat.ID b
    /\ feat.Source r = "pals"
    /\ feat.Feature_ r = "hit"
    /\ feat.Start r = feat.Start b
    /\ feat.End_ r = feat.End_ b
    /\ feat.Score r = Some (float64 (Score p))
    /\ feat.Strand r = Strand p
    /\ feat.Frame r = -1
    /\ feat.Attributes r =
         "Target " +:+ feat.ID a +:+ " " +:+ pretty (iadd (feat.Start a) 1)
           +:+ " " +:+ pretty (feat.End_ a) +:+ "; maxe " +:+ fmt_g2 (Error p).
Proof.
  intros Ht Ha Hb. destruct (t_state_type _ _ Ht) as [Hs Hf].
  unfold Write. rewrite Hb, Ha. eexists. split; [reflexivity|].
  cbn. repeat split; assumption.
Qed.

Lemma Write_record_witness :
  exists r, Write (fun _ => "0") t_init pair0 = Ok r
    /\ feat.Location r = "ctg7"
    /\ feat.Source r = "pals"
    /\ feat.Feature_ r = "hit"
    /\ feat.Start r = 100
    /\ feat.End_ r = 110
    /\ feat.Score r = Some (float64 10)
    /\ feat.Strand r = 1
    /\ feat.Frame r = -1
    /\ feat.Attributes r = "Target chr1 11 20; maxe 0".
Proof.
  exact (Write_record (fun _ => "0") t_init pair0 _ _
           (t_state_init _) eq_refl eq_refl).
Defined.

(** C8, as stated, fails: the start and end of the record are not the
    1-based target coordinates.  For [pair0] the target is 10..20, and
    the record runs from 100 to 110. *)
Lemma Write_start_end_not_target :
  ~ (forall fmt_g2 t p a b r,
       t_state fmt_g2 t -> A p = Some a -> B p = Some b ->
       Write fmt_g2 t p = Ok r ->
       feat.Start r = iadd (feat.Start a) 1 /\ feat.End_ r = feat.End_ a).
Proof.
  intros H.
  destruct (H (fun _ => "0") t_init pair0 _ _ _
              (t_state_init _) eq_refl eq_refl eq_refl) as [Hs _].
  vm_compute in Hs. discriminate.
Qed.

End writerFacts.

(** ** Conversion of hit coordinates *)

Module convertFacts.

Import convert GoIntFacts examples.

Lemma index_Some {A} (xs : list A) i :
  0 <= i < Z.of_nat (length xs) -> exists x, index xs i = Some x.
Proof.
  intros H. unfold index.
  replace ((0 <=? i) && (i <? Z.of_nat (length xs))) with true
    by (symmetry; apply andb_true_iff; split; [apply Z.leb_le|apply Z.ltb_lt]; lia).
  apply lookup_lt_is_Some_2. lia.
Qed.

Lemma index_elem {A} (xs : list A) i x : index xs i = Some x -> In x xs.
Proof.
  unfold index. destruct (_ && _); [|discriminate].
  intros H. apply list_elem_of_In. eapply list_elem_of_lookup_2; eauto.
Qed.

Section featureOf.

Variable binSize : Z.
Hypothesis binSize_range : 0 < binSize < 2 ^ 61.

Lemma quot_inrange a b : inrange a -> 0 < b -> inrange (Z.quot a b).
Proof.
  unfold inrange, MinInt, MaxInt. intros Ha Hb.
  destruct (Z.le_gt_cases 0 a) as [H0|H0].
  - rewrite Z.quot_div_nonneg by lia.
    pose proof (Z.div_pos a b H0 Hb).
    assert (a / b <= a) by (apply Z.div_le_upper_bound; nia). lia.
  - assert (Hq : Z.quot a b = - Z.quot (- a) b) by (rewrite Z.quot_opp_l; lia).
    rewrite Hq. rewrite Z.quot_div_nonneg by lia.
    pose proof (Z.div_pos (- a) b ltac:(lia) Hb).
    assert (- a / b <= - a) by (apply Z.div_le_upper_bound; nia). lia.
Qed.

Lemma iquo_pos a b : inrange a -> 0 < b -> iquo a b = Some (Z.quot a b).
Proof.
  intros Ha Hb. unfold iquo.
  destruct (Z.eqb_spec b 0); [lia|].
  rewrite wrap_id; [reflexivity|]. apply quot_inrange; assumption.
Qed.

(** The number of bins, as [featureOf] computes it. *)
Lemma binCount_exact (contigs : seq.Seq) :
  seq.Len contigs < 2 ^ 61 ->
  iquo (isub (iadd (seq.Len contigs) binSize) 1) binSize
  = Some ((seq.Len contigs + binSize - 1) / binSize).
Proof.
  intros Hl. assert (0 <= seq.Len contigs) by (unfold seq.Len; lia).
  rewrite iadd_exact by (unfold inrange, MinInt, MaxInt; lia).
  rewrite isub_exact by (unfold inrange, MinInt, MaxInt; lia).
  rewrite iquo_pos by (unfold inrange, MinInt, MaxInt; lia).
  rewrite Z.quot_div_nonneg by lia. reflexivity.
Qed.

Lemma wellPacked_lookup contigs bin :
  seq.Len contigs < 2 ^ 61 ->
  wellPacked binSize contigs = true ->
  0 <= bin < (seq.Len contigs + binSize - 1) / binSize ->
  exists sm ci c,
    seq.Meta contigs = Some sm
    /\ index (seq.binMap sm) bin = Some ci
    /\ 0 <= ci < Z.of_nat (length (seq.contigs sm))
    /\ index (seq.contigs sm) ci = Some c.
Proof.
  intros Hl Hw Hb. unfold wellPacked in Hw.
  assert (0 <= seq.Len contigs) by (unfold seq.Len; lia).
  destruct (seq.Meta contigs) as [sm|]; [|discriminate].
  apply andb_true_iff in Hw as [Hn Hall]. apply Z.eqb_eq in Hn.
  rewrite Z.quot_div_nonneg in Hn by lia.
  destruct (index_Some (seq.binMap sm) bin ltac:(lia)) as [ci Hci].
  pose proof (index_elem _ _ _ Hci) as Hin.
  rewrite forallb_forall in Hall. specialize (Hall _ Hin).
  apply andb_true_iff in Hall as [H1 H2].
  apply Z.leb_le in H1. apply Z.ltb_lt in H2.
  destruct (index_Some (seq.contigs sm) ci ltac:(lia)) as [c Hc].
  exists sm, ci, c. repeat split; auto; lia.
Qed.

Lemma featureOf_endpoints contigs from to comp :
  featureOf binSize contigs from to comp
  = featureOf binSize contigs (fst (endpoints contigs from to comp))
      (snd (endpoints contigs from to comp)) false.
Proof. destruct comp; reflexivity. Qed.

Lemma endpoints_inrange contigs from to comp :
  inrange from -> inrange to ->
  inrange (fst (endpoints contigs from to comp))
  /\ inrange (snd (endpoints contigs from to comp)).
Proof.
  intros Hf Ht. destruct comp; split; try assumption; apply wrap_inrange.
Qed.

Ltac range := unfold inrange, MinInt, MaxInt in *; lia.

Lemma reversed_fails contigs f t :
  t <= f ->
  featureOf binSize contigs f t false = fail (seq.ID contigs +:+ ": from > to").
Proof.
  intros H. unfold featureOf.
  destruct (Z.geb_spec f t); [reflexivity|lia].
Qed.

Lemma overlapping_succeeds contigs f t :
  inrange f -> inrange t -> seq.Len contigs < 2 ^ 61 ->
  wellPacked binSize contigs = true ->
  f < t -> 0 <= t -> Z.max 0 f < seq.Len contigs ->
  exists sm ci c,
    seq.Meta contigs = Some sm
    /\ index (seq.binMap sm)
         ((Z.max 0 f + Z.min (seq.Len contigs) t) / (2 * binSize)) = Some ci
    /\ index (seq.contigs sm) ci = Some c
    /\ featureOf binSize contigs f t false
       = Ok (inl (feat.mkFeature (seq.ID (seq.cseq c)) "" ""
                    (Z.max 0 (isub (Z.max 0 f) (seq.from c)))
                    (Z.min (seq.Len (seq.cseq c))
                       (iadd (isub (Z.max 0 f) (seq.from c))
                          (Z.min (seq.Len contigs) t - Z.max 0 f)))
                    "" None 0 0 "")).
Proof.
  intros Hf Ht Hl Hw Hft H0 Hlen.
  set (len := seq.Len contigs) in *.
  set (fc := Z.max 0 f). set (tc := Z.min len t).
  assert (Hfc : 0 <= fc < len) by lia.
  assert (Htc : fc <= tc <= len) by lia.
  assert (Hbin : 0 <= (fc + tc) / (2 * binSize)
                 < (len + binSize - 1) / binSize).
  { split; [apply Z.div_pos; lia|].
    apply Z.div_lt_upper_bound; [lia|].
    pose proof (Z.mul_div_le (len + binSize - 1) binSize ltac:(lia)).
    pose proof (Z.mod_pos_bound (len + binSize - 1) binSize ltac:(lia)).
    pose proof (Z.div_mod (len + binSize - 1) binSize ltac:(lia)).
    nia. }
  destruct (wellPacked_lookup contigs _ Hl Hw Hbin)
    as (sm & ci & c & Hm & Hci & Hcir & Hc).
  exists sm, ci, c. repeat split; auto.
  unfold featureOf. fold len.
  destruct (Z.geb_spec f t); [lia|].
  replace (if f <? 0 then 0 else f) with fc
    by (unfold fc; destruct (Z.ltb_spec f 0); lia).
  replace (if t >? len then len else t) with tc
    by (unfold tc; destruct (Z.gtb_spec t len); lia).
  rewrite iadd_exact by range.
  rewrite imul_exact by range.
  rewrite iquo_pos by range.
  rewrite Z.quot_div_nonneg by lia.
  unfold len. rewrite binCount_exact by assumption. fold len.
  destruct (Z.ltb_spec ((fc + tc) / (2 * binSize)) 0); [lia|].
  destruct (Z.geb_spec ((fc + tc) / (2 * binSize))
              ((len + binSize - 1) / binSize)); [lia|].
  cbn [orb]. rewrite Hm, Hci.
  destruct (Z.ltb_spec ci 0); [lia|].
  destruct (Z.geb_spec ci (Z.of_nat (length (seq.contigs sm)))); [lia|].
  cbn [orb]. rewrite (isub_exact tc fc) by range.
  destruct (Z.ltb_spec (tc - fc) 0); [lia|].
  rewrite Hc. do 3 f_equal.
  - destruct (Z.ltb_spec (isub fc (seq.from c)) 0); lia.
  - destruct (Z.gtb_spec (iadd (isub fc (seq.from c)) (tc - fc))
                (seq.Len (seq.cseq c))); lia.
Qed.

Lemma outside_fails contigs f t :
  inrange f -> inrange t -> seq.Len contigs < 2 ^ 61 ->
  wellPacked binSize contigs = true ->
  f < t -> t < 0 \/ seq.Len contigs < f ->
  exists e, featureOf binSize contigs f t false = Ok (inr e).
Proof.
  intros Hf Ht Hl Hw Hft Hout.
  set (len := seq.Len contigs) in *.
  assert (0 <= len) by (unfold len, seq.Len; lia).
  unfold featureOf. fold len.
  destruct (Z.geb_spec f t); [lia|].
  set (fc := if f <? 0 then 0 else f).
  set (tc := if t >? len then len else t).
  assert (Hneg : tc - fc < 0 /\ inrange (tc - fc)).
  { unfold fc, tc.
    destruct (Z.ltb_spec f 0), (Z.gtb_spec t len); range. }
  rewrite imul_exact by range.
  rewrite iquo_pos by (try apply wrap_inrange; lia).
  unfold len. rewrite binCount_exact by assumption. fold len.
  set (bin := Z.quot (iadd fc tc) (2 * binSize)).
  destruct ((bin <? 0) || (bin >=? (len + binSize - 1) / binSize)) eqn:Hb.
  { eexists. reflexivity. }
  apply orb_false_iff in Hb as [Hb1 Hb2].
  apply Z.ltb_ge in Hb1.
  assert (Hb3 : bin < (len + binSize - 1) / binSize)
    by (destruct (Z.geb_spec bin ((len + binSize - 1) / binSize));
        [discriminate|lia]).
  destruct (wellPacked_lookup contigs bin Hl Hw ltac:(fold len; lia))
    as (sm & ci & c & Hm & Hci & Hcir & Hc).
  rewrite Hm, Hci.
  destruct (Z.ltb_spec ci 0); [lia|].
  destruct (Z.geb_spec ci (Z.of_nat (length (seq.contigs sm)))); [lia|].
  cbn [orb]. rewrite (isub_exact tc fc) by tauto.
  destruct (Z.ltb_spec (tc - fc) 0); [|lia].
  eexists. reflexivity.
Qed.

(** C9, as amended.  After the optional complement transform, with end
    points f and t: [featureOf] fails when t <= f; when f < t and the
    segment reaches into the sequence (t is not negative and f, raised
    to 0, lies before the end) it replaces an f below 0 by 0 and a t
    beyond the length by the length and returns the feature of the
    contig at the midpoint bin; when f < t and both end points lie
    beyond the same end of the sequence it fails. *)
Theorem featureOf_clamps contigs from to comp :
  inrange from -> inrange to -> seq.Len contigs < 2 ^ 61 ->
  wellPacked binSize contigs = true ->
  let f := fst (endpoints contigs from to comp) in
  let t := snd (endpoints contigs from to comp) in
  let len := seq.Len contigs in
  (t <= f ->
     featureOf binSize contigs from to comp
     = fail (seq.ID contigs +:+ ": from > to"))
  /\ (f < t -> 0 <= t -> Z.max 0 f < len ->
      exists sm ci c,
        seq.Meta contigs = Some sm
        /\ index (seq.binMap sm) ((Z.max 0 f + Z.min len t) / (2 * binSize))
           = Some ci
        /\ index (seq.contigs sm) ci = Some c
        /\ featureOf binSize contigs from to comp
           = Ok (inl (feat.mkFeature (seq.ID (seq.cseq c)) "" ""
                        (Z.max 0 (isub (Z.max 0 f) (seq.from c)))
                        (Z.min (seq.Len (seq.cseq c))
                           (iadd (isub (Z.max 0 f) (seq.from c))
                              (Z.min len t - Z.max 0 f)))
                        "" None 0 0 "")))
  /\ (f < t -> t < 0 \/ len < f ->
      exists e, featureOf binSize contigs from to comp = Ok (inr e)).
Proof.
  intros Hf Ht Hl Hw f t len.
  destruct (endpoints_inrange contigs from to comp Hf Ht) as [Hf' Ht'].
  rewrite featureOf_endpoints. fold f t.
  split; [|split].
  - apply reversed_fails.
  - intros. apply overlapping_succeeds; auto.
  - intros. apply outside_fails; auto.
Qed.

End featureOf.

(** On the packed example: a segment from -10 to 300 is cut to 0..300. *)
Lemma featureOf_clamps_witness :
  featureOf 1024 packed (-10) 300 false
  = Ok (inl (feat.mkFeature "ctg1" "" "" 0 300 "" None 0 0 "")).
Proof.
  destruct (featureOf_clamps 1024 ltac:(lia) packed (-10) 300 false
              ltac:(unfold inrange, MinInt, MaxInt; lia)
              ltac:(unfold inrange, MinInt, MaxInt; lia)
              ltac:(vm_compute; reflexivity) ltac:(vm_compute; reflexivity))
    as (_ & H & _).
  destruct (H ltac:(vm_compute; reflexivity) ltac:(vm_compute; discriminate)
              ltac:(vm_compute; reflexivity))
    as (sm & ci & c & Hm & Hci & Hc & ->).
  vm_compute in Hm. injection Hm as <-.
  vm_compute in Hci. injection Hci as <-.
  vm_compute in Hc. injection Hc as <-.
  vm_compute. reflexivity.
Defined.

(** C9, as stated, fails: with from < to and both below 0, the clamp
    leaves a segment of negative length and [featureOf] returns an
    error, though every bin of the sequence maps to a contig. *)
Lemma featureOf_out_of_range_error :
  (-10 < -5)
  /\ wellPacked 1024 packed = true
  /\ featureOf 1024 packed (-10) (-5) false
     = Ok (inr (NewError "packed: length < 0")).
Proof. split; [lia|]. split; vm_compute; reflexivity. Qed.

End convertFacts.

(** ** Parameter selection *)

Module palsFacts.

Import pals GoIntFacts examples.

Ltac range := unfold inrange, MinInt, MaxInt in *; lia.

Lemma int_of_float_inrange f : inrange (int_of_float f).
Proof.
  unfold int_of_float. destruct (Prim2SF f); try range.
  match goal with |- inrange (if ?c then _ else _) => destruct c eqn:Hc end;
    [|range].
  apply andb_true_iff in Hc as [H1 H2].
  apply Z.leb_le in H1. apply Z.leb_le in H2. split; assumption.
Qed.

Lemma idiv_half s : 1 <= s -> inrange s -> 0 <= idiv s 2 < s.
Proof.
  intros Hs Hr. unfold idiv.
  rewrite Z.quot_div_nonneg by lia.
  assert (0 <= s / 2 < s) by (split; [apply Z.div_pos; lia|apply Z.div_lt; lia]).
  rewrite wrap_id by range. assumption.
Qed.

Lemma countdown_pos d : 0 < d -> countdown d = (d - 1) :: countdown (d - 1).
Proof.
  intros Hd. unfold countdown.
  replace (Z.to_nat d) with (S (Z.to_nat (d - 1))) by lia.
  cbn [seq map]. f_equal; [lia|].
  rewrite <- seq_shift, map_map. apply map_ext. intros i. lia.
Qed.

Lemma countdown_nonpos d : d <= 0 -> countdown d = [].
Proof.
  intros Hd. unfold countdown. replace (Z.to_nat d) with O by lia. reflexivity.
Qed.

Lemma last_cons {A : Type} (l : list A) (x y : A) :
  l <> [] -> List.last (x :: l) y = List.last l y.
Proof. destruct l; [contradiction|reflexivity]. Qed.

Lemma last_default {A : Type} (l : list A) (x y : A) :
  l <> [] -> List.last l x = List.last l y.
Proof.
  induction l as [|a l IH]; intros Hne; [contradiction|].
  destruct l as [|b l]; [reflexivity|].
  rewrite !(last_cons (b :: l) a) by discriminate. apply IH. discriminate.
Qed.

Section Search.

Variables (p : PALS) (minHitLen minWordSize : Z).

Let q := idiv minHitLen 4.

(** One pass of the search loop is one seed of the schedule. *)
Lemma search_step fuel s d fp lg :
  search (S fuel) p minHitLen minWordSize s d fp lg
  = match firstPassing p minWordSize [(s, d)] fp lg with
    | Ok (None, lg') =>
        match tryWordSizes (wordSizeCount minWordSize) p s d minWordSize
                MaxKmerLen fp
                (if MaxKmerLen <? minWordSize
                 then logIf p lg (LogWordSizeTooSmall MaxKmerLen minWordSize)
                 else lg) with
        | Ok (_, fp', _) =>
            if s >=? q then
              search fuel p minHitLen minWordSize (idiv s 2) d fp' lg'
            else if d >? 0 then
              search fuel p minHitLen minWordSize s (isub d 1) fp' lg'
            else Ok (None, lg')
        | _ => Ok (None, lg')
        end
    | r => r
    end.
Proof.
  cbn [search firstPassing]. fold q.
  destruct (tryWordSizes _ p s d minWordSize MaxKmerLen fp _)
    as [[[mw fp'] lg']| |]; try reflexivity.
  destruct (mw >? 0); reflexivity.
Qed.

Lemma firstPassing_cons s d rest fp lg :
  firstPassing p minWordSize ((s, d) :: rest) fp lg
  = match firstPassing p minWordSize [(s, d)] fp lg with
    | Ok (None, lg') =>
        match tryWordSizes (wordSizeCount minWordSize) p s d minWordSize
                MaxKmerLen fp
                (if MaxKmerLen <? minWordSize
                 then logIf p lg (LogWordSizeTooSmall MaxKmerLen minWordSize)
                 else lg) with
        | Ok (_, fp', _) => firstPassing p minWordSize rest fp' lg'
        | _ => Ok (None, lg')
        end
    | r => r
    end.
Proof.
  cbn [firstPassing].
  destruct (tryWordSizes _ p s d minWordSize MaxKmerLen fp _)
    as [[[mw fp'] lg']| |]; try reflexivity.
  destruct (mw >? 0); reflexivity.
Qed.

(** The second phase: the seed length is below a quarter of the hit
    length, and the differences are counted down. *)
Lemma search_countdown s (n : nat) : forall d fuel fp lg,
  s < q -> inrange d -> Z.to_nat d = n -> (n < fuel)%nat ->
  search fuel p minHitLen minWordSize s d fp lg
  = firstPassing p minWordSize
      ((s, d) :: map (fun d' => (s, d')) (countdown d)) fp lg.
Proof.
  induction n as [|n IH]; intros d fuel fp lg Hs Hd Hn Hfuel;
    (destruct fuel as [|fuel]; [lia|]);
    rewrite firstPassing_cons, search_step;
    destruct (firstPassing p minWordSize [(s, d)] fp lg)
      as [[[fp1|] lg1]| |]; try reflexivity;
    destruct (tryWordSizes _ p s d minWordSize MaxKmerLen fp _)
      as [[[mw fp'] lg']| |]; try reflexivity;
    destruct (Z.geb_spec s q); try lia.
  - destruct (Z.gtb_spec d 0); [lia|].
    rewrite countdown_nonpos by lia. reflexivity.
  - destruct (Z.gtb_spec d 0); [|lia].
    rewrite countdown_pos by lia. cbn [map].
    rewrite isub_exact by range.
    apply IH; try assumption; try range; lia.
Qed.

(** The first phase: the seed length is halved until it falls below a
    quarter of the hit length. *)
Lemma search_halvings (n : nat) : forall s d fuel fp lg,
  1 <= q -> 0 <= s -> inrange s -> inrange d -> (Z.to_nat s <= n)%nat ->
  (length (halvings n q s) + Z.to_nat d <= fuel)%nat ->
  search fuel p minHitLen minWordSize s d fp lg
  = firstPassing p minWordSize
      (map (fun s' => (s', d)) (halvings n q s)
       ++ map (fun d' => (List.last (halvings n q s) s, d')) (countdown d))
      fp lg.
Proof.
  induction n as [|n IH]; intros s d fuel fp lg Hq Hs Hsr Hd Hn Hfuel.
  - cbn [halvings length] in *. cbn [map app List.last].
    apply search_countdown with (n := Z.to_nat d); try assumption; lia.
  - cbn [halvings] in *. destruct (Z.geb_spec s q) as [Hge|Hlt].
    + cbn [length] in Hfuel. destruct fuel as [|fuel]; [lia|].
      destruct (idiv_half s ltac:(lia) Hsr) as [Hh0 Hh1].
      assert (Hne : halvings n q (idiv s 2) <> []) by (destruct n; discriminate).
      rewrite (last_cons _ s s Hne).
      rewrite (last_default _ s (idiv s 2) Hne).
      cbn [map app]. rewrite firstPassing_cons, search_step.
      destruct (firstPassing p minWordSize [(s, d)] fp lg)
        as [[[fp1|] lg1]| |]; try reflexivity.
      destruct (tryWordSizes _ p s d minWordSize MaxKmerLen fp _)
        as [[[mw fp'] lg']| |]; try reflexivity.
      destruct (Z.geb_spec s q); [|lia].
      apply IH; try assumption; try range; lia.
    + cbn [map app List.last length] in *.
      apply search_countdown with (n := Z.to_nat d); try assumption; lia.
Qed.

(** With enough fuel the search loop is the first passing seed of the
    schedule. *)
Lemma search_schedule fuel d fp lg :
  MinWordLength < minHitLen -> inrange minHitLen -> inrange d ->
  (length (schedule minHitLen d) <= fuel)%nat ->
  search fuel p minHitLen minWordSize minHitLen d fp lg
  = firstPassing p minWordSize (schedule minHitLen d) fp lg.
Proof.
  intros HL Hr Hd Hfuel. unfold schedule in *. fold q in Hfuel |- *.
  rewrite length_app, !length_map in Hfuel.
  assert (Hc : length (countdown d) = Z.to_nat d)
    by (unfold countdown; rewrite length_map, length_seq; reflexivity).
  assert (Hq : 1 <= q).
  { unfold q, idiv, MinWordLength in *. rewrite Z.quot_div_nonneg by lia.
    assert (1 <= minHitLen / 4) by (apply Z.div_le_lower_bound; lia).
    assert (minHitLen / 4 <= minHitLen) by (apply Z.div_le_upper_bound; lia).
    rewrite wrap_id by range. lia. }
  unfold MinWordLength in HL.
  rewrite (search_halvings (Z.to_nat minHitLen)); try assumption; try lia.
  reflexivity.
Qed.

(** The halvings stop at the first seed length below [q], and not
    before. *)
Lemma halvings_shape (n : nat) : forall s,
  1 <= q -> 0 <= s -> inrange s -> (Z.to_nat s <= n)%nat ->
  exists pre z,
    halvings n q s = pre ++ [z] /\ Forall (fun s' => q <= s') pre /\ z < q.
Proof.
  induction n as [|n IH]; intros s Hq Hs Hr Hn; cbn [halvings].
  - exists [], s. repeat split; [constructor|lia].
  - destruct (Z.geb_spec s q) as [Hge|Hlt].
    + destruct (idiv_half s ltac:(lia) Hr) as [Hh0 Hh1].
      destruct (IH (idiv s 2) Hq Hh0 ltac:(range) ltac:(lia))
        as (pre & z & -> & Hall & Hz).
      exists (s :: pre), z. repeat split; [constructor; assumption|assumption].
    + exists [], s. repeat split; [constructor|assumption].
Qed.

End Search.

(** *** What the candidate loop leaves behind *)

Lemma tryWordSizes_passed p s d mws (n : nat) : forall k fp lg mw fp' lg',
  inrange mws -> inrange k -> k <= MaxKmerLen ->
  (n <= Z.to_nat (k - mws + 1))%nat ->
  tryWordSizes n p s d mws k fp lg = Ok (mw, fp', lg') ->
  (mw = -1 /\ ~ 0 < mw)
  \/ (0 < mw /\ passed p mws fp' /\ MinMatch fp' = s /\ MaxError fp' = d).
Proof.
  induction n as [|n IH]; intros k fp lg mw fp' lg' Hm Hk Hk15 Hn;
    cbn [tryWordSizes]; destruct (Z.geb_spec k mws) as [Hge|Hlt];
    try discriminate;
    try (intros [= <- <- <-]; left; split; lia).
  fold (candidate p s d k).
  destruct (MemRequired p (candidate p s d k)) as [mem| |] eqn:Hmem;
    try discriminate.
  assert (Hnext : forall lg0,
             tryWordSizes n p s d mws (isub k 1) (candidate p s d k) lg0
             = Ok (mw, fp', lg') ->
             (mw = -1 /\ ~ 0 < mw)
             \/ (0 < mw /\ passed p mws fp'
                 /\ MinMatch fp' = s /\ MaxError fp' = d)).
  { intros lg0 H. destruct (Z.eq_dec k mws) as [->|Hne].
    - (* the last word size: the loop is left at once, or the count is
         used up *)
      destruct n as [|n']; [|lia].
      cbn [tryWordSizes] in H.
      destruct (isub mws 1 >=? mws); [discriminate|].
      injection H as <- <- <-. left. split; lia.
    - rewrite isub_exact in H by range.
      eapply IH; [| | | |exact H]; try assumption; try range; lia. }
  destruct (match maxMem p with Some mx => mem >? mx | None => false end)
    eqn:Hmx; [apply Hnext|].
  destruct (Z.leb_spec (MinWordsPerFilterHit s k d) 0) as [Hw|Hw];
    [apply Hnext|].
  destruct (MaxAvgIndexListLen <? AvgIndexListLength p (candidate p s d k))%float
    eqn:Havg; [apply Hnext|].
  intros [= <- <- <-]. right. split; [assumption|].
  split; [|split; reflexivity].
  unfold passed. cbn [WordSize MinMatch MaxError candidate].
  fold (candidate p s d k). repeat split; try assumption; try lia.
  exists mem. split; [assumption|].
  intros mx Hsome. rewrite Hsome in Hmx.
  destruct (Z.gtb_spec mem mx); [discriminate|lia].
Qed.

Lemma firstPassing_passed p mws (sched : list (Z * Z)) : forall fp lg fp' lg',
  inrange mws ->
  firstPassing p mws sched fp lg = Ok (Some fp', lg') ->
  passed p mws fp' /\ In (MinMatch fp', MaxError fp') sched.
Proof.
  induction sched as [|[s d] rest IH]; intros fp lg fp' lg' Hm;
    cbn [firstPassing]; [discriminate|].
  destruct (tryWordSizes _ p s d mws MaxKmerLen fp _)
    as [[[mw fp1] lg1]| |] eqn:Htry; try discriminate.
  apply tryWordSizes_passed in Htry;
    [|assumption|unfold MaxKmerLen; range|lia|unfold wordSizeCount; lia].
  destruct (Z.gtb_spec mw 0) as [Hpos|Hneg].
  - intros [= <- <-]. destruct Htry as [[_ Hno]|(_ & Hp & <- & <-)]; [lia|].
    split; [assumption|]. left. reflexivity.
  - intros H. destruct (IH _ _ _ _ Hm H) as [Hp Hin].
    split; [assumption|right; assumption].
Qed.

(** Where the least word size is above the greatest, the candidate loop
    does nothing. *)
Lemma tryWordSizes_none p s d mws n fp lg :
  MaxKmerLen < mws ->
  tryWordSizes n p s d mws MaxKmerLen fp lg = Ok (-1, fp, lg).
Proof.
  intros H. destruct n; cbn [tryWordSizes];
    destruct (Z.geb_spec MaxKmerLen mws); (lia || reflexivity).
Qed.

Lemma firstPassing_none p mws (sched : list (Z * Z)) : forall fp lg,
  MaxKmerLen < mws ->
  firstPassing p mws sched fp lg
  = Ok (None,
        lg ++ (if log p
               then repeat (LogWordSizeTooSmall MaxKmerLen mws) (length sched)
               else [])).
Proof.
  induction sched as [|[s d] rest IH]; intros fp lg H; cbn [firstPassing].
  - cbn [length repeat]. destruct (log p); rewrite app_nil_r; reflexivity.
  - destruct (Z.ltb_spec MaxKmerLen mws); [|lia].
    rewrite tryWordSizes_none by assumption.
    change (-1 >? 0) with false. cbv iota. rewrite IH by assumption.
    unfold logIf. destruct (log p); [|reflexivity].
    cbn [length repeat]. rewrite <- app_assoc. reflexivity.
Qed.

Lemma search_passed p L mws (fuel : nat) : forall s d fp lg fp' lg',
  inrange mws ->
  search fuel p L mws s d fp lg = Ok (Some fp', lg') ->
  passed p mws fp'.
Proof.
  induction fuel as [|fuel IH]; intros s d fp lg fp' lg' Hm;
    cbn [search]; [discriminate|].
  destruct (tryWordSizes _ p s d mws MaxKmerLen fp _)
    as [[[mw fp1] lg1]| |] eqn:Htry; try discriminate.
  apply tryWordSizes_passed in Htry;
    [|assumption|unfold MaxKmerLen; range|lia|unfold wordSizeCount; lia].
  destruct (Z.gtb_spec mw 0) as [Hpos|Hneg].
  - intros [= <- <-]. destruct Htry as [[_ Hno]|(_ & Hp & _)]; [lia|assumption].
  - destruct (s >=? idiv L 4); [apply IH; assumption|].
    destruct (d >? 0); [apply IH; assumption|discriminate].
Qed.

Section Optimise.

Variable Log4 : float -> float.

Lemma Optimise_valid fuel p L I :
  (I <? 0)%float = false -> (1 <? I)%float = false -> MinWordLength < L ->
  Optimise Log4 fuel p L I
  = match search fuel p L (minWordSizeOf Log4 p) L (seedDiffsOf L I)
            (mkParams 0 0 0 0) (logIf p [] LogOptimising) with
    | Panic m => Panic m
    | Diverge => Diverge
    | Ok (None, lg) =>
        Ok (Some (NewError "failed to find filter parameters"), p, lg)
    | Ok (Some filterParams, lg) =>
        Ok (None,
            mkPALS (target p) (query p) (selfCompare p) (Some filterParams)
              (Some (mkDPParams L I)) (log p) (tubeOffset p) (maxMem p),
            lg)
    end.
Proof.
  intros H0 H1 HL. unfold Optimise. rewrite H0, H1. cbn [orb].
  destruct (Z.leb_spec L MinWordLength); [lia|reflexivity].
Qed.

Lemma Optimise_accepts fuel p L I p' lg :
  Optimise Log4 fuel p L I = Ok (None, p', lg) ->
  exists fp, FilterParams p' = Some fp /\ passed p (minWordSizeOf Log4 p) fp.
Proof.
  unfold Optimise.
  destruct ((I <? 0)%float || (1 <? I)%float); [discriminate|].
  destruct (L <=? MinWordLength); [discriminate|].
  destruct (search _ _ _ _ _ _ _ _) as [[[fp|] lg1]| |] eqn:Hs;
    try discriminate.
  intros [= <- <-]. exists fp. split; [reflexivity|].
  eapply search_passed; [apply int_of_float_inrange|exact Hs].
Qed.

(** C4, as amended.  [Optimise] returns a BadParameter error, and
    nothing else, for a [minId] below 0 or above 1 and for a minimum hit
    length up to the minimum word length.  Past these two checks no
    BadParameter error arises, whatever the tube offset: a tube offset
    that is not positive is replaced by MaxError + TubeOffsetDelta in
    every candidate. *)
Theorem Optimise_rejections fuel p L I :
  ((I <? 0)%float = true \/ (1 <? I)%float = true \/ L <= MinWordLength ->
   exists e, Optimise Log4 fuel p L I = Ok (Some e, p, []) /\ BadParameter e)
  /\ ((I <? 0)%float = false -> (1 <? I)%float = false -> MinWordLength < L ->
      (forall e p' lg,
         Optimise Log4 fuel p L I = Ok (Some e, p', lg) ->
         ParameterSearchFailed e /\ ~ BadParameter e)
      /\ (forall p' lg,
            Optimise Log4 fuel p L I = Ok (None, p', lg) ->
            exists fp,
              FilterParams p' = Some fp
              /\ TubeOffset fp
                 = if tubeOffset p >? 0 then tubeOffset p
                   else iadd (MaxError fp) TubeOffsetDelta)).
Proof.
  split.
  - intros H. unfold Optimise.
    destruct ((I <? 0)%float || (1 <? I)%float) eqn:HI.
    + eexists. split; [reflexivity|]. left. reflexivity.
    + apply orb_false_iff in HI as [H0 H1].
      destruct H as [H|[H|H]]; try congruence.
      destruct (Z.leb_spec L MinWordLength); [|lia].
      eexists. split; [reflexivity|]. right. reflexivity.
  - intros H0 H1 HL. split.
    + intros e p' lg. rewrite Optimise_valid by assumption.
      destruct (search _ _ _ _ _ _ _ _) as [[[fp|] lg1]| |];
        try discriminate.
      intros [= <- <- <-]. split; [reflexivity|].
      intros [H|H]; discriminate.
    + intros p' lg H. destruct (Optimise_accepts _ _ _ _ _ _ H)
        as (fp & Hfp & _ & Hc & _).
      exists fp. split; [assumption|]. rewrite Hc at 1. reflexivity.
Qed.

(** C5.  With fuel for every seed of the schedule, [Optimise] is the
    search along the schedule: the seed length is halved as long as it
    is at least a quarter of the minimum hit length, then the seed
    differences are counted down to 0, the candidate loop runs once for
    each seed, and the error is what is left when the schedule is used
    up.  The halvings are not cut short: all seed lengths but the last
    are at least a quarter of the minimum hit length, the last is
    below.  Past the parameter checks the search-failed error is
    returned exactly when no seed of the schedule has a passing
    candidate. *)
Theorem Optimise_follows_schedule fuel p L I :
  inrange L ->
  (length (schedule L (seedDiffsOf L I)) <= fuel)%nat ->
  Optimise Log4 fuel p L I = OptimiseSpec Log4 p L I
  /\ (MinWordLength < L ->
      exists pre z,
        halvings (Z.to_nat L) (idiv L 4) L = pre ++ [z]
        /\ Forall (fun s => idiv L 4 <= s) pre /\ z < idiv L 4)
  /\ ((I <? 0)%float = false -> (1 <? I)%float = false ->
      MinWordLength < L ->
      forall lg,
        Optimise Log4 fuel p L I
        = Ok (Some (NewError "failed to find filter parameters"), p, lg)
        <-> firstPassing p (minWordSizeOf Log4 p)
              (schedule L (seedDiffsOf L I)) (mkParams 0 0 0 0)
              (logIf p [] LogOptimising)
            = Ok (None, lg)).
Proof.
  intros Hr Hfuel. split; [|split].
  - unfold Optimise, OptimiseSpec.
    destruct ((I <? 0)%float || (1 <? I)%float); [reflexivity|].
    destruct (Z.leb_spec L MinWordLength); [reflexivity|].
    rewrite search_schedule;
      [reflexivity|assumption|assumption|apply int_of_float_inrange|assumption].
  - intros HL. apply halvings_shape; try assumption; try lia.
    + unfold idiv, MinWordLength in *. rewrite Z.quot_div_nonneg by lia.
      assert (1 <= L / 4) by (apply Z.div_le_lower_bound; lia).
      assert (L / 4 <= L) by (apply Z.div_le_upper_bound; lia).
      rewrite wrap_id by range. lia.
    + unfold MinWordLength in *. lia.
  - intros H0 H1 HL lg. rewrite Optimise_valid by assumption.
    rewrite search_schedule;
      [|assumption|assumption|apply int_of_float_inrange|assumption].
    destruct (firstPassing _ _ _ _ _) as [[[fp|] lg1]| |];
      split; intros H; try discriminate H; congruence.
Qed.

(** C3, as amended.  Where the least word size exceeds the greatest,
    [Optimise] tries no candidate and returns the error that the search
    failed, but not at once: the loop is passed once for each seed of
    the relaxation schedule, of which there are at least two, and a
    single pass does not end the call. *)
Theorem Optimise_word_size_too_small fuel p L I :
  (I <? 0)%float = false -> (1 <? I)%float = false -> MinWordLength < L ->
  inrange L ->
  MaxKmerLen < minWordSizeOf Log4 p ->
  (length (schedule L (seedDiffsOf L I)) <= fuel)%nat ->
  Optimise Log4 fuel p L I
  = Ok (Some (NewError "failed to find filter parameters"), p,
        logIf p [] LogOptimising
        ++ (if log p
            then repeat (LogWordSizeTooSmall MaxKmerLen (minWordSizeOf Log4 p))
                   (length (schedule L (seedDiffsOf L I)))
            else []))
  /\ (forall n s d fp lg,
        tryWordSizes n p s d (minWordSizeOf Log4 p) MaxKmerLen fp lg
        = Ok (-1, fp, lg))
  /\ (2 <= length (schedule L (seedDiffsOf L I)))%nat
  /\ Optimise Log4 1 p L I = Diverge.
Proof.
  intros H0 H1 HL Hr Hk Hfuel.
  assert (Hq : idiv L 4 <= L).
  { unfold idiv, MinWordLength in *. rewrite Z.quot_div_nonneg by lia.
    assert (0 <= L / 4) by (apply Z.div_pos; lia).
    assert (L / 4 <= L) by (apply Z.div_le_upper_bound; lia).
    rewrite wrap_id by range. lia. }
  split; [|split; [|split]].
  - rewrite Optimise_valid by assumption.
    rewrite search_schedule;
      [|assumption|assumption|apply int_of_float_inrange|assumption].
    rewrite firstPassing_none by assumption. reflexivity.
  - intros. apply tryWordSizes_none. assumption.
  - unfold schedule. rewrite length_app, length_map.
    assert (0 < Z.to_nat L)%nat by (unfold MinWordLength in *; lia).
    destruct (Z.to_nat L) as [|n]; [lia|]. cbn [halvings].
    destruct (Z.geb_spec L (idiv L 4)); [|lia].
    destruct n; cbn [halvings length]; lia.
  - rewrite Optimise_valid by assumption. cbn [search].
    destruct (Z.ltb_spec MaxKmerLen (minWordSizeOf Log4 p)); [|lia].
    rewrite tryWordSizes_none by assumption.
    change (-1 >? 0) with false. cbv iota.
    destruct (Z.geb_spec L (idiv L 4)); [reflexivity|lia].
Qed.

Lemma Pow4_exact k : 0 <= k <= MaxKmerLen -> Pow4 k = 4 ^ k.
Proof.
  intros Hk. unfold Pow4, MaxKmerLen in *. apply wrap_id.
  assert (0 < 4 ^ k) by (apply Z.pow_pos_nonneg; lia).
  assert (4 ^ k <= 4 ^ 15) by (apply Z.pow_le_mono_r; lia).
  change (4 ^ 15) with 1073741824 in *. range.
Qed.

Lemma MemRequired_exact p fp mem :
  MemRequired p fp = Ok mem ->
  0 <= targetLen p < 2 ^ 40 -> 0 <= queryLen p < 2 ^ 40 ->
  0 <= WordSize fp <= MaxKmerLen ->
  0 < TubeOffset fp < 2 ^ 40 -> 0 <= MaxError fp < 2 ^ 40 ->
  mem = memEstimate p fp + pointerBytes p.
Proof.
  intros Hmem Ht Hq Hk Hd He.
  unfold MemRequired, filterMemRequired in Hmem.
  rewrite Pow4_exact in Hmem by assumption.
  assert (0 < 4 ^ WordSize fp) by (apply Z.pow_pos_nonneg; lia).
  assert (4 ^ WordSize fp <= 4 ^ 15)
    by (apply Z.pow_le_mono_r; unfold MaxKmerLen in *; lia).
  change (4 ^ 15) with 1073741824 in *.
  rewrite (iadd_exact (TubeOffset fp)) in Hmem by range.
  rewrite iadd_exact in Hmem by range.
  rewrite isub_exact in Hmem by range.
  unfold iquo in Hmem. destruct (Z.eqb_spec (TubeOffset fp) 0); [lia|].
  rewrite Z.quot_div_nonneg in Hmem by lia.
  set (nt := (targetLen p + (TubeOffset fp + MaxError fp) - 1) / TubeOffset fp)
    in *.
  assert (0 <= nt) by (apply Z.div_pos; lia).
  assert (nt <= targetLen p + (TubeOffset fp + MaxError fp) - 1)
    by (apply Z.div_le_upper_bound; nia).
  rewrite (wrap_id nt) in Hmem by range.
  rewrite iadd_exact in Hmem by range.
  unfold uadd, umul, uintptr, sizeof_tubeState, sizeof_uint32, sizeof_int,
    sizeof_ptr in Hmem.
  unfold memEstimate, pointerBytes. fold nt.
  change (2 ^ 40) with 1099511627776 in *.
  clearbody nt. change (2 ^ 64) with 18446744073709551616.
  destruct (Nat.eqb (addr (target p)) (addr (query p)));
    injection Hmem as <-; Z.div_mod_to_equations; lia.
Qed.

(** C6.  The parameters that [Optimise] accepts under a memory ceiling
    M have a memory estimate of at most M.  The estimate is computed in
    unsigned 64-bit arithmetic; for lengths, tube offsets and errors
    below 2^40 it is the sum of 4*4^WordSize for the finger array,
    8*targetLen for the positions,
    ((targetLen + tubeWidth - 1)/TubeOffset + 1)*24 for the tubes with
    tubeWidth = TubeOffset + MaxError, and the letters of the target
    (and of the query where that is another sequence), together with 8
    bytes for each pointer to a sequence; the sum is at most M. *)
Theorem Optimise_within_memory fuel p L I p' lg M :
  Optimise Log4 fuel p L I = Ok (None, p', lg) ->
  maxMem p = Some M ->
  exists fp mem,
    FilterParams p' = Some fp
    /\ MemRequired p fp = Ok mem
    /\ MemRequired p' fp = Ok mem
    /\ mem <= M
    /\ (0 <= targetLen p < 2 ^ 40 -> 0 <= queryLen p < 2 ^ 40 ->
        0 <= WordSize fp ->
        0 < TubeOffset fp < 2 ^ 40 -> 0 <= MaxError fp < 2 ^ 40 ->
        mem = memEstimate p fp + pointerBytes p
        /\ memEstimate p fp <= M).
Proof.
  intros Hopt HM.
  destruct (Optimise_accepts _ _ _ _ _ _ Hopt)
    as (fp & Hfp & Hk & _ & (mem & Hmem & Hle) & _).
  exists fp, mem. repeat split; try assumption.
  - revert Hopt. unfold Optimise.
    destruct ((I <? 0)%float || (1 <? I)%float); [discriminate|].
    destruct (L <=? MinWordLength); [discriminate|].
    destruct (search _ _ _ _ _ _ _ _) as [[[fp1|] lg1]| |];
      try discriminate.
    intros [= <- <-]. exact Hmem.
  - apply Hle. assumption.
  - apply MemRequired_exact; try assumption. lia.
  - rewrite (MemRequired_exact p fp mem) in Hle; try assumption; try lia.
    specialize (Hle _ HM). unfold pointerBytes in Hle.
    destruct (Nat.eqb _ _); lia.
Qed.

End Optimise.

(** On a self-comparison of 1000 letters, 400 and 0.94 pass both
    checks, and so does the call: the tube offset -1 is replaced by
    24 + 32. *)
Lemma Optimise_rejections_witness :
  (exists e, Optimise util.Log4 100 selfSmall 4 DefaultMinIdentity
             = Ok (Some e, selfSmall, []) /\ BadParameter e)
  /\ exists fp,
      FilterParams (mkPALS (target selfSmall) (query selfSmall) true
                      (Some (mkParams 15 400 24 56))
                      (Some (mkDPParams 400 DefaultMinIdentity)) true (-1) None)
      = Some fp
      /\ TubeOffset fp = iadd (MaxError fp) TubeOffsetDelta.
Proof.
  split.
  - apply (Optimise_rejections util.Log4 100 selfSmall 4 DefaultMinIdentity).
    right. right. unfold MinWordLength. lia.
  - apply (proj2 (proj2 (Optimise_rejections util.Log4 100 selfSmall 400
                           DefaultMinIdentity)
                    ltac:(vm_compute; reflexivity)
                    ltac:(vm_compute; reflexivity)
                    ltac:(vm_compute; reflexivity))
             _ [LogOptimising]).
    vm_compute. reflexivity.
Defined.

(** C4, as stated, fails: with the tube offset -1 the call goes ahead
    and returns parameters. *)
Lemma Optimise_negative_tubeOffset :
  tubeOffset selfSmall < 0
  /\ Optimise util.Log4 100 selfSmall 400 DefaultMinIdentity
     = Ok (None,
           mkPALS (target selfSmall) (query selfSmall) true
             (Some (mkParams 15 400 24 56))
             (Some (mkDPParams 400 DefaultMinIdentity)) true (-1) None,
           [LogOptimising]).
Proof. split; [vm_compute; reflexivity|vm_compute; reflexivity]. Qed.

(** Under a ceiling of 10240 bytes for a million letters, no seed of
    the schedule passes. *)
Lemma Optimise_follows_schedule_witness :
  Optimise util.Log4 100 selfCapped 400 DefaultMinIdentity
  = OptimiseSpec util.Log4 selfCapped 400 DefaultMinIdentity
  /\ OptimiseSpec util.Log4 selfCapped 400 DefaultMinIdentity
     = Ok (Some (NewError "failed to find filter parameters"), selfCapped, []).
Proof.
  split.
  - refine (proj1 (Optimise_follows_schedule util.Log4 100 selfCapped 400
                     DefaultMinIdentity _ _)).
    + unfold inrange, MinInt, MaxInt. lia.
    + vm_compute. lia.
  - vm_compute. reflexivity.
Defined.

(** For 2^36 letters the least word size is 16. *)
Lemma Optimise_word_size_too_small_witness :
  Optimise util.Log4 28 selfHuge 400 DefaultMinIdentity
  = Ok (Some (NewError "failed to find filter parameters"), selfHuge,
        LogOptimising :: repeat (LogWordSizeTooSmall 15 16) 28).
Proof.
  refine (eq_trans
            (proj1 (Optimise_word_size_too_small util.Log4 28 selfHuge 400
                      DefaultMinIdentity _ _ _ _ _ _)) _).
  - vm_compute. reflexivity.
  - vm_compute. reflexivity.
  - vm_compute. reflexivity.
  - unfold inrange, MinInt, MaxInt. lia.
  - vm_compute. reflexivity.
  - vm_compute. lia.
  - vm_compute. reflexivity.
Defined.

(** C3, as stated, fails: for 2^36 letters the least word size is 16,
    and the call does not return in its first pass through the loop, nor
    in its 27th; it returns in the 28th. *)
Lemma Optimise_not_fail_fast :
  MaxKmerLen < minWordSizeOf util.Log4 selfHuge
  /\ Optimise util.Log4 1 selfHuge 400 DefaultMinIdentity = Diverge
  /\ Optimise util.Log4 27 selfHuge 400 DefaultMinIdentity = Diverge
  /\ Optimise util.Log4 28 selfHuge 400 DefaultMinIdentity
     = Ok (Some (NewError "failed to find filter parameters"), selfHuge,
           LogOptimising :: repeat (LogWordSizeTooSmall 15 16) 28).
Proof. repeat split; vm_compute; reflexivity. Qed.

(** Two sequences of 1000 and 500 letters under a ceiling of 2^33
    bytes: word size 15 passes with 4294976872 bytes. *)
Lemma Optimise_within_memory_witness :
  exists fp mem,
    Some (mkParams 15 400 24 56) = Some fp
    /\ MemRequired twoSeqs fp = Ok mem
    /\ mem <= 2 ^ 33
    /\ mem = memEstimate twoSeqs fp + pointerBytes twoSeqs.
Proof.
  destruct (Optimise_within_memory util.Log4 100 twoSeqs 400
              DefaultMinIdentity _ _ (2 ^ 33)
              ltac:(vm_compute; reflexivity) eq_refl)
    as (fp & mem & Hfp & Hmem & _ & Hle & Hex).
  exists fp, mem. split; [exact Hfp|]. split; [exact Hmem|].
  split; [exact Hle|].
  cbn in Hfp. injection Hfp as <-.
  apply Hex; cbn; lia.
Defined.

End palsFacts.

(** ** The kernel *)

Module dpFacts.

Import dp GoIntFacts examples.

(** *** Steps of the state *)

Section Steps.

(** A computation steps R along [R] when [R] relates the state before it
    to the state after it, whatever its outcome. *)
Variable R : kernel -> kernel -> Prop.
Hypothesis R_refl : forall k, R k k.
Hypothesis R_trans : forall k1 k2 k3, R k1 k2 -> R k2 k3 -> R k1 k3.

Lemma steps_ret {A : Type} (a : A) : steps R (ret a).
Proof. intros k. apply R_refl. Qed.

Lemma steps_panic {A : Type} msg : steps R (@panic A msg).
Proof. intros k. apply R_refl. Qed.

Lemma steps_diverge {A : Type} : steps R (@diverge A).
Proof. intros k. apply R_refl. Qed.

Lemma steps_get : steps R get.
Proof. intros k. apply R_refl. Qed.

Lemma steps_bind {A B : Type} (m : M A) (f : A -> M B) :
  steps R m -> (forall a, steps R (f a)) -> steps R (bind m f).
Proof.
  intros Hm Hf k. unfold bind. specialize (Hm k).
  destruct (m k) as [[a| |] k1]; cbn [snd] in *; try assumption.
  eapply R_trans; [exact Hm|apply Hf].
Qed.

Lemma steps_loop {S : Type} (step : S -> M (S + S)) (n : nat) :
  (forall s, steps R (step s)) -> forall s, steps R (loop n step s).
Proof.
  intros Hstep. induction n as [|n IH]; intros s; cbn [loop];
    apply steps_bind; try apply Hstep;
    intros [s'|s']; auto using steps_ret, steps_diverge.
Qed.

End Steps.

Section Keeps.

Context {V : Type} (view : kernel -> V).

Lemma keeps_ret {A : Type} (a : A) : keeps view (ret a).
Proof. apply steps_ret. reflexivity. Qed.

Lemma keeps_panic {A : Type} msg : keeps view (@panic A msg).
Proof. apply steps_panic. reflexivity. Qed.

Lemma keeps_diverge {A : Type} : keeps view (@diverge A).
Proof. apply steps_diverge. reflexivity. Qed.

Lemma keeps_get : keeps view get.
Proof. apply steps_get. reflexivity. Qed.

Lemma keeps_bind {A B : Type} (m : M A) (f : A -> M B) :
  keeps view m -> (forall a, keeps view (f a)) -> keeps view (bind m f).
Proof. apply steps_bind; congruence. Qed.

Lemma keeps_loop {S : Type} (step : S -> M (S + S)) (n : nat) (s : S) :
  (forall s, keeps view (step s)) -> keeps view (loop n step s).
Proof. intros H. apply steps_loop; congruence. Qed.

Lemma keeps_modify (f : kernel -> kernel) :
  (forall k, view (f k) = view k) -> keeps view (modify f).
Proof. intros H k. apply H. Qed.

Lemma keeps_targetAt i : keeps view (targetAt i).
Proof. intros k. unfold targetAt. destruct (index _ _); reflexivity. Qed.

Lemma keeps_queryAt i : keeps view (queryAt i).
Proof. intros k. unfold queryAt. destruct (index _ _); reflexivity. Qed.

Lemma keeps_lenVectors0 : keeps view lenVectors0.
Proof. intros k. reflexivity. Qed.

Lemma keeps_at o i : keeps view (at_ o i).
Proof. intros k. unfold at_. destruct (index _ _); reflexivity. Qed.

End Keeps.

(** Structural steps of a proof that a computation keeps a view. *)
Ltac keeps_step :=
  first
    [ apply keeps_ret | apply keeps_panic | apply keeps_diverge
    | apply keeps_get | apply keeps_targetAt | apply keeps_queryAt
    | apply keeps_lenVectors0 | apply keeps_at
    | apply keeps_bind; [|intros ?]
    | apply keeps_loop; intros ?
    | match goal with
      | |- keeps _ (if ?c then _ else _) => destruct c
      | |- keeps _ (match ?x with _ => _ end) => destruct x
      end ].

Lemma outer_set o i v : keeps outer (set o i v).
Proof. intros k. unfold set. destruct (_ && _); reflexivity. Qed.

Lemma outer_allocateVectors r : keeps outer (allocateVectors r).
Proof. intros k. unfold allocateVectors. destruct (_ <? _); reflexivity. Qed.

Lemma outer_growVectors b r : keeps outer (growVectors b r).
Proof.
  unfold growVectors. repeat keeps_step; apply outer_allocateVectors.
Qed.

Section Kernel.

Variable lookUp : util.CTL.

Lemma keeps_isMatch {V : Type} (view : kernel -> V) i j :
  keeps view (isMatch lookUp i j).
Proof. unfold isMatch. repeat keeps_step. Qed.

Lemma keeps_shrinkLow {V : Type} (view : kernel -> V) v b l h :
  keeps view (shrinkLow v b l h).
Proof. unfold shrinkLow. repeat keeps_step. Qed.

Lemma keeps_shrinkHigh {V : Type} (view : kernel -> V) v b l h :
  keeps view (shrinkHigh v b l h).
Proof. unfold shrinkHigh. repeat keeps_step. Qed.

Ltac outer_step :=
  first
    [ apply outer_set | apply outer_growVectors | apply keeps_isMatch
    | apply keeps_shrinkLow | apply keeps_shrinkHigh
    | apply keeps_modify; intros ?; reflexivity
    | keeps_step ].

Lemma outer_forwardRow b : keeps outer (forwardRow lookUp b).
Proof. unfold forwardRow. cbv zeta. repeat outer_step. Qed.

Lemma outer_traceForward mid low high :
  keeps outer (traceForward lookUp mid low high).
Proof.
  unfold traceForward. cbv zeta.
  repeat first [apply outer_forwardRow | outer_step].
Qed.

Lemma outer_reverseRow bottom b : keeps outer (reverseRow lookUp bottom b).
Proof. unfold reverseRow. cbv zeta. repeat outer_step. Qed.

Lemma outer_traceReverse top low high bottom xfactor :
  keeps outer (traceReverse lookUp top low high bottom xfactor).
Proof.
  unfold traceReverse. cbv zeta.
  repeat first [apply outer_reverseRow | outer_step].
Qed.

Lemma outer_reverseRetries fuel mid :
  keeps outer (reverseRetries lookUp fuel mid).
Proof.
  unfold reverseRetries, retryStep.
  repeat first [apply outer_traceReverse | outer_step].
Qed.

End Kernel.

(** *** The covering loop *)

Lemma uncovered_markCovered i : keeps uncovered (markCovered i).
Proof. intros k. unfold markCovered. destruct (_ && _); reflexivity. Qed.

Lemma uncovered_coverLoop traps : forall i, keeps uncovered (coverLoop i traps).
Proof.
  induction traps as [|trap rest IH]; intros i; cbn [coverLoop];
    repeat first [apply uncovered_markCovered | apply IH | keeps_step].
Qed.

Lemma uncovered_laterTrapezoids : keeps uncovered laterTrapezoids.
Proof. unfold laterTrapezoids. cbv zeta. repeat keeps_step. Qed.

(** Where the loop comes to its end, it has set [covered] at the marked
    indices, which are counted from the first of the later trapezoids,
    and nowhere else. *)
Lemma coverLoop_marked traps : forall i k k',
  coverLoop i traps k = (Ok tt, k') ->
  covered k'
  = fold_left (fun c j => <[Z.to_nat j := true]> c)
      (marked (highEnd k) i traps) (covered k).
Proof.
  induction traps as [|trap rest IH]; intros i k k'; cbn [coverLoop marked].
  - intros [= <-]. reflexivity.
  - unfold bind at 1. cbn [get].
    destruct (Bottom trap >=? Bepos (highEnd k)).
    + intros [= <-]. reflexivity.
    + destruct (overlap (highEnd k) trap) as [f|]; [|apply IH].
      destruct (coverThreshold <? f)%float.
      * unfold bind at 1. unfold markCovered.
        destruct (_ && _); [|discriminate].
        intros H. apply IH in H. rewrite H. reflexivity.
      * unfold bind at 1. cbn [ret]. apply IH.
Qed.

Section Recursion.

Variable lookUp : util.CTL.

(** *** The retries of the reverse trace *)

Lemma loop_unfold {S : Type} (n : nat) (step : S -> M (S + S)) (s : S) :
  loop n step s
  = bind (step s) (fun r =>
      match r with
      | inl s' => ret s'
      | inr s' => match n with
                  | O => diverge
                  | Datatypes.S n' => loop n' step s'
                  end
      end).
Proof. destruct n; reflexivity. Qed.

Lemma retries_from mid (n : nat) : forall x k,
  2 <= x -> x + Z.of_nat n < 2 ^ 63 ->
  loop n (retryStep lookUp mid) x k
  = if goesOn mid x k then retriesSpec lookUp n mid x k else (Ok x, k).
Proof.
  induction n as [|n IH]; intros x k Hx Hn; rewrite loop_unfold;
    unfold retryStep; unfold bind at 1 2; cbn [get];
    (destruct (Z.eqb_spec x 1); [lia|]); cbn [orb]; fold (goesOn mid x k);
    (destruct (goesOn mid x k); [|reflexivity]);
    cbn [retriesSpec]; unfold reverseRun; unfold bind; cbn [get];
    destruct (traceReverse _ _ _ _ _ _ k) as [[[]| |] k1]; try reflexivity.
  cbn [ret]. rewrite iadd_exact by (unfold inrange, MinInt, MaxInt; lia).
  rewrite IH by lia. destruct (goesOn mid (x + 1) k1); reflexivity.
Qed.

Lemma reverseRetries_retriesSpec fuel mid k :
  Z.of_nat fuel < 2 ^ 62 ->
  reverseRetries lookUp fuel mid k = retriesSpec lookUp fuel mid 1 k.
Proof.
  intros Hfuel. unfold reverseRetries.
  rewrite loop_unfold. unfold retryStep at 1. unfold bind at 1 2. cbn [get].
  change (1 =? 1) with true. cbn [orb].
  destruct fuel as [|n]; cbn [retriesSpec]; unfold reverseRun;
    unfold bind; cbn [get];
    destruct (traceReverse _ _ _ _ _ _ k) as [[[]| |] k1]; try reflexivity.
  cbn [ret]. change (iadd 1 1) with 2. change (1 + 1) with 2.
  rewrite retries_from by lia. destruct (goesOn mid 2 k1); reflexivity.
Qed.

Lemma bind_cong {A B : Type} (m m' : M A) (f : A -> M B) k :
  m k = m' k -> bind m f k = bind m' f k.
Proof. intros H. unfold bind. rewrite H. reflexivity. Qed.

End Recursion.

End dpFacts.

(** ** Where the ends of a hit lie *)

Module posFacts.

Import dp GoIntFacts dpFacts.

Ltac range := unfold inrange, MinInt, MaxInt in *; lia.

Section Val.

Variable inv : kernel -> Prop.

Lemma val_ret {A : Type} (a : A) (Q : A -> Prop) : Q a -> val inv (ret a) Q.
Proof. intros H k Hk. split; assumption. Qed.

Lemma val_bind {A B : Type} (m : M A) (f : A -> M B) Q R :
  val inv m Q -> (forall a, Q a -> val inv (f a) R) -> val inv (bind m f) R.
Proof.
  intros Hm Hf k Hk. unfold bind. specialize (Hm k Hk).
  destruct (m k) as [[a| |] k1]; try exact I.
  destruct Hm as [Hk1 Ha]. apply (Hf a Ha k1 Hk1).
Qed.

Lemma val_weaken {A : Type} (m : M A) (Q Q' : A -> Prop) :
  val inv m Q -> (forall a, Q a -> Q' a) -> val inv m Q'.
Proof.
  intros Hm HQ k Hk. specialize (Hm k Hk).
  destruct (m k) as [[a| |] k1]; try exact I.
  destruct Hm as [Hk1 Ha]. split; auto.
Qed.

Lemma val_loop {S : Type} (step : S -> M (S + S)) (I0 Q : S -> Prop) :
  (forall s, I0 s ->
     val inv (step s)
       (fun r => match r with inl s' => Q s' | inr s' => I0 s' end)) ->
  forall n s, I0 s -> val inv (loop n step s) Q.
Proof.
  intros Hstep n. induction n as [|n IH]; intros s Hs; cbn [loop];
    (eapply val_bind; [apply Hstep; assumption|]);
    intros [s'|s'] Hs'.
  - apply val_ret. assumption.
  - intros k Hk. exact I.
  - apply val_ret. assumption.
  - apply IH. assumption.
Qed.

Lemma val_get : val inv get inv.
Proof. intros k Hk. split; assumption. Qed.

Lemma val_panic {A : Type} msg (Q : A -> Prop) : val inv (panic msg) Q.
Proof. intros k Hk. exact I. Qed.

Lemma val_targetAt i : val inv (targetAt i) (fun _ => True).
Proof. intros k Hk. unfold targetAt. destruct (index _ _); [split|]; auto. Qed.

Lemma val_queryAt i : val inv (queryAt i) (fun _ => True).
Proof. intros k Hk. unfold queryAt. destruct (index _ _); [split|]; auto. Qed.

Lemma val_lenVectors0 : val inv lenVectors0 (fun _ => True).
Proof. intros k Hk. split; auto. Qed.

Lemma val_at o i : val inv (at_ o i) (fun _ => True).
Proof. intros k Hk. unfold at_. destruct (index _ _); [split|]; auto. Qed.

Hypothesis inv_vectors : forall v st k, inv k -> inv (set_vectors v st k).

Lemma val_set o i v : val inv (set o i v) (fun _ => True).
Proof.
  intros k Hk. unfold set. destruct (_ && _); [split|]; auto.
Qed.

Lemma val_allocateVectors r : val inv (allocateVectors r) (fun _ => True).
Proof.
  intros k Hk. unfold allocateVectors. destruct (_ <? _); [|split]; auto.
Qed.

Lemma val_growVectors b r : val inv (growVectors b r) (fun _ => True).
Proof.
  unfold growVectors. eapply val_bind; [apply val_lenVectors0|].
  intros n _. destruct (if b then _ else _);
    [apply val_allocateVectors|apply val_ret; exact I].
Qed.

Variable lookUp : util.CTL.

Lemma val_isMatch i j : val inv (isMatch lookUp i j) (fun _ => True).
Proof.
  unfold isMatch. eapply val_bind; [apply val_queryAt|]. intros q _.
  eapply val_bind; [apply val_targetAt|]. intros t _.
  destruct (Byte.eqb q t); [|apply val_ret; exact I].
  eapply val_bind; [apply val_queryAt|]. intros q' _. apply val_ret. exact I.
Qed.

(** [shrinkLow] moves [low] up, [shrinkHigh] moves [high] down. *)
Lemma val_shrinkLow v bound low high :
  0 <= low <= MaxInt -> high < MaxInt ->
  val inv (shrinkLow v bound low high) (fun low' => low <= low' <= MaxInt).
Proof.
  intros Hl Hh. unfold shrinkLow.
  apply val_loop with (I0 := fun low' => low <= low' <= MaxInt); [|range].
  intros l Hlo. destruct (Z.leb_spec l high).
  - eapply val_bind; [apply val_at|]. intros x _.
    destruct (x <? bound); apply val_ret; [|assumption].
    rewrite iadd_exact by range. lia.
  - apply val_ret. assumption.
Qed.

Lemma val_shrinkHigh v bound low high :
  0 <= low -> inrange high ->
  val inv (shrinkHigh v bound low high) (fun high' => MinInt <= high' <= high).
Proof.
  intros Hl Hh. unfold shrinkHigh.
  apply val_loop with (I0 := fun high' => MinInt <= high' <= high); [|range].
  intros h Hhi. destruct (Z.leb_spec low h).
  - eapply val_bind; [apply val_at|]. intros x _.
    destruct (x <? bound); apply val_ret; [|assumption].
    rewrite isub_exact by range. range.
  - apply val_ret. assumption.
Qed.

(** *** Positions in the forward trace *)

Variable T : seq.Seq.
Variable qLen : Z.
Hypothesis inv_target : forall k, inv k -> target k = T.
Hypothesis inv_query : forall k, inv k -> seq.Len (query k) = qLen.
Hypothesis T_short : seq.Len T < MaxInt.
Hypothesis q_short : qLen <= MaxInt.

Ltac vb lem := eapply val_bind; [apply lem|]; intros ? ?.

Lemma forwardRow_bandOk b :
  (bandOk T) b -> b_low b <= b_high b -> b_row b < qLen ->
  val inv (forwardRow lookUp b) (bandOk T).
Proof.
  intros (Hlow & Hhigh & HmaxJ & HmaxI & Hrow) Hguard Hq.
  unfold forwardRow.
  eapply val_bind; [apply val_get|]. intros k Hk.
  rewrite (inv_target k Hk). cbv zeta.
  assert (Hi1 : MinInt < iadd (b_row b) 1 <= MaxInt)
    by (rewrite iadd_exact by range; range).
  vb val_at. vb val_set. vb val_at.
  (* the cells of the row *)
  eapply val_bind.
  { apply val_loop
      with (I0 := cellOk (b_low b + 1) (b_high b + 1))
           (Q := cellOk (b_low b + 1) (b_high b + 1)).
    - intros c (Hcol & HcJ & HcI).
      destruct (Z.leb_spec (c_col c) (b_high b)); [|apply val_ret; repeat split; lia].
      vb val_at. vb val_isMatch. vb val_set. apply val_ret.
      match goal with |- context [if ?c then _ else _] => destruct c end;
        unfold cellOk; cbn [c_col c_maxJ c_maxI];
        rewrite iadd_exact by range; repeat split; lia.
    - unfold cellOk. cbn [c_col c_maxJ c_maxI].
      rewrite iadd_exact by range. repeat split; lia. }
  intros c (Hcol & HcJ & HcI).
  (* the cell beyond the band, and the decay after it *)
  eapply val_bind with (Q := cellOk 0 (seq.Len T + 1)).
  { destruct (Z.leb_spec (c_col c) (seq.Len T));
      [|apply val_ret; repeat split; lia].
    vb val_isMatch. vb val_set.
    apply val_loop with (I0 := cellOk 0 (seq.Len T + 1)).
    - intros c' (Hcol' & HcJ' & HcI').
      destruct (Z.leb_spec (c_col c') (seq.Len T));
        [|apply val_ret; repeat split; lia].
      match goal with |- context [if ?c then _ else _] => destruct c end.
      + apply val_ret. unfold cellOk. cbn [c_col c_maxJ c_maxI].
        repeat split; lia.
      + vb val_set. apply val_ret. unfold cellOk. cbn [c_col c_maxJ c_maxI].
        rewrite iadd_exact by range. repeat split; lia.
    - match goal with |- context [if ?c then _ else _] => destruct c end;
        unfold cellOk; cbn [c_col c_maxJ c_maxI];
        rewrite iadd_exact by range; repeat split; lia. }
  intros c' (Hcol' & HcJ' & HcI').
  assert (Hh : isub (c_col c') 1 = c_col c' - 1) by (apply isub_exact; range).
  rewrite Hh.
  eapply val_bind; [apply val_shrinkLow; range|]. intros low' Hlow'.
  eapply val_bind; [apply val_shrinkHigh; range|]. intros high' Hhigh'.
  vb val_growVectors. apply val_ret. cbv beta in Hlow', Hhigh'.
  unfold bandOk, inrange. cbn [b_low b_high b_maxJ b_maxI b_row].
  repeat split; lia.
Qed.

Lemma val_bind_triple {A B : Type} (m : M A) (f : A -> M B) Q R :
  val inv m Q -> (forall a, Q a -> triple inv (f a) R) -> triple inv (bind m f) R.
Proof.
  intros Hm Hf k Hk. unfold bind. specialize (Hm k Hk).
  destruct (m k) as [[a| |] k1]; try exact I.
  destruct Hm as [Hk1 Ha]. apply (Hf a Ha k1 Hk1).
Qed.

Lemma triple_modify (g : kernel -> kernel) :
  triple inv (modify g) (fun _ k' => exists k0, inv k0 /\ k' = g k0).
Proof. intros k Hk. exists k. split; [assumption|reflexivity]. Qed.

Lemma val_trivial_loop {S : Type} (step : S -> M (S + S)) n s :
  (forall s, val inv (step s) (fun _ => True)) ->
  val inv (loop n step s) (fun _ => True).
Proof.
  intros H. apply val_loop with (I0 := fun _ => True); [|exact I].
  intros s0 _. eapply val_weaken; [apply H|]. intros [?|?] _; exact I.
Qed.

Lemma traceForward_forwardOk mid low high :
  MinInt < mid <= MaxInt -> inrange low ->
  triple inv (traceForward lookUp mid low high)
    (fun _ k' => exists k0 h, inv k0 /\ k' = set_lowEnd h k0 /\ forwardOk h).
Proof.
  intros Hmid Hlow. unfold traceForward.
  eapply val_bind_triple; [apply val_get|]. intros k Hk.
  rewrite (inv_target k Hk), (inv_query k Hk). cbv zeta.
  set (low0 := if low <? 0 then 0 else low).
  assert (Hlow0 : 0 <= low0 <= MaxInt)
    by (unfold low0; destruct (Z.ltb_spec low 0); range).
  eapply val_bind_triple; [apply val_growVectors|]. intros _ _.
  eapply val_bind_triple; [apply val_get|]. intros k' Hk'.
  eapply val_bind_triple.
  { apply val_trivial_loop. intros j.
    destruct (j <=? _); [vb val_set|]; apply val_ret; exact I. }
  intros j _.
  eapply val_bind_triple.
  { apply val_trivial_loop. intros j'.
    destruct (j' <=? _); [vb val_at; vb val_set|]; apply val_ret; exact I. }
  intros _ _.
  eapply val_bind_triple.
  { apply val_loop with (I0 := (bandOk T)) (Q := (bandOk T)).
    - intros b Hb.
      destruct (Z.leb_spec (b_low b) (b_high b));
        [|apply val_ret; assumption].
      destruct (Z.ltb_spec (b_row b) qLen); [|apply val_ret; assumption].
      cbn [andb]. eapply val_bind; [apply forwardRow_bandOk; assumption|].
      intros b' Hb'. apply val_ret. assumption.
    - assert (0 <= seq.Len T) by (unfold seq.Len; lia).
      unfold bandOk. cbn [b_low b_high b_maxJ b_maxI b_row].
      match goal with |- context [if ?c >? ?d then _ else _] =>
        destruct (Z.gtb_spec c d);
        [|match c with iadd ?x ?y => pose proof (wrap_inrange (x + y)) end;
          unfold iadd in *]
      end; repeat split; range. }
  intros b (Hbl & Hbh & HbJ & HbI & Hbr).
  intros k1 Hk1. cbn. eexists k1, _. split; [assumption|].
  split; [reflexivity|]. split; assumption.
Qed.

(** *** Positions in the reverse trace *)

Section Reverse.

Variable top : Z.
Hypothesis top_range : MinInt < top <= MaxInt.

Lemma reverseRow_revBandOk bottom b :
  (revBandOk T top) b -> b_low b <= b_high b -> 0 <= b_row b ->
  val inv (reverseRow lookUp bottom b) (revBandOk T top).
Proof.
  intros (Hlow & Hhigh & HmaxJ & HmaxI & Hrow) Hguard Hq.
  unfold reverseRow.
  eapply val_bind; [apply val_get|]. intros k Hk.
  vb val_lenVectors0. cbv zeta.
  assert (Hi : rowOk top (b_row b)) by (right; lia).
  vb val_at. vb val_set. vb val_at.
  eapply val_bind.
  { apply val_loop
      with (I0 := (revCellOk top) (b_low b - 1) (b_high b - 1))
           (Q := (revCellOk top) (b_low b - 1) (b_high b - 1)).
    - intros c (Hcol & HcJ & HcI).
      destruct (Z.geb_spec (c_col c) (b_low b));
        [|apply val_ret; repeat split; first [assumption|range]].
      vb val_at. vb val_isMatch. vb val_set. apply val_ret.
      match goal with |- context [if ?c then _ else _] => destruct c end;
        unfold revCellOk; cbn [c_col c_maxJ c_maxI];
        rewrite isub_exact by range; repeat split; first [assumption|range].
    - unfold revCellOk. cbn [c_col c_maxJ c_maxI].
      rewrite isub_exact by range. repeat split; first [assumption|range]. }
  intros c (Hcol & HcJ & HcI).
  eapply val_bind with (Q := (revCellOk top) (-1) (b_high b - 1)).
  { destruct (Z.geb_spec (c_col c) 0);
      [|apply val_ret; repeat split; first [assumption|range]].
    vb val_isMatch. vb val_set.
    apply val_loop with (I0 := (revCellOk top) (-1) (b_high b - 1)).
    - intros c' (Hcol' & HcJ' & HcI').
      destruct (Z.geb_spec (c_col c') 0);
        [|apply val_ret; repeat split; first [assumption|range]].
      match goal with |- context [if ?c then _ else _] => destruct c end.
      + apply val_ret. unfold revCellOk. cbn [c_col c_maxJ c_maxI].
        repeat split; first [assumption|range].
      + vb val_set. apply val_ret. unfold revCellOk.
        cbn [c_col c_maxJ c_maxI].
        rewrite isub_exact by range. repeat split; first [assumption|range].
    - match goal with |- context [if ?c then _ else _] => destruct c end;
        unfold revCellOk; cbn [c_col c_maxJ c_maxI];
        rewrite isub_exact by range; repeat split; first [assumption|range]. }
  intros c' (Hcol' & HcJ' & HcI').
  assert (Hl : iadd (c_col c') 1 = c_col c' + 1) by (apply iadd_exact; range).
  rewrite Hl.
  eapply val_bind; [apply val_shrinkLow; range|]. intros low' Hlow'.
  eapply val_bind; [apply val_shrinkHigh; range|]. intros high' Hhigh'.
  vb val_growVectors. apply val_ret. cbv beta in Hlow', Hhigh'.
  unfold revBandOk. cbn [b_low b_high b_maxJ b_maxI b_row].
  rewrite isub_exact by range.
  repeat split; first [assumption|range].
Qed.

Lemma traceReverse_reverseOk low high bottom xfactor :
  inrange low -> inrange high ->
  triple inv (traceReverse lookUp top low high bottom xfactor)
    (fun _ k' => exists k0 h, inv k0 /\ k' = set_highEnd h k0 /\ reverseOk top h).
Proof.
  intros Hlow Hhigh. unfold traceReverse.
  eapply val_bind_triple; [apply val_get|]. intros k Hk.
  rewrite (inv_target k Hk). cbv zeta.
  assert (HT : 0 <= seq.Len T) by (unfold seq.Len; lia).
  eapply val_bind_triple; [apply val_growVectors|]. intros _ _.
  eapply val_bind_triple; [apply val_get|]. intros k' Hk'.
  eapply val_bind_triple; [apply val_lenVectors0|]. intros n _.
  eapply val_bind_triple.
  { apply val_trivial_loop. intros j.
    destruct (j >=? _); [vb val_set|]; apply val_ret; exact I. }
  intros j _.
  eapply val_bind_triple.
  { apply val_trivial_loop. intros j'.
    destruct (j' >=? _); [vb val_at; vb val_set|]; apply val_ret; exact I. }
  intros _ _.
  eapply val_bind_triple.
  { apply val_loop with (I0 := (revBandOk T top)) (Q := (revBandOk T top)).
    - intros b Hb.
      destruct (Z.leb_spec (b_low b) (b_high b));
        [|apply val_ret; assumption].
      destruct (Z.geb_spec (b_row b) 0); [|apply val_ret; assumption].
      cbn [andb].
      eapply val_bind; [apply reverseRow_revBandOk; assumption|].
      intros b' Hb'. apply val_ret. assumption.
    - unfold revBandOk. cbn [b_low b_high b_maxJ b_maxI b_row].
      rewrite (isub_exact top) by range.
      match goal with |- context [isub ?x ?y] =>
        pose proof (wrap_inrange (x - y)); fold (isub x y) in *;
        destruct (Z.ltb_spec (isub x y) 0)
      end;
      destruct (Z.gtb_spec high (seq.Len T));
        repeat split; try range; left; reflexivity. }
  intros b (Hbl & Hbh & HbJ & HbI & Hbr).
  intros k1 Hk1. cbn. eexists k1, _. split; [assumption|].
  split; [reflexivity|]. split; assumption.
Qed.

End Reverse.

End Val.

(** *** The ends at the time of acceptance *)

Lemma triple_loop {S : Type} (step : S -> M (S + S))
    (I0 Q : S -> kernel -> Prop) :
  (forall s,
     triple (I0 s) (step s)
       (fun r k => match r with inl s' => Q s' k | inr s' => I0 s' k end)) ->
  forall n s, triple (I0 s) (loop n step s) Q.
Proof.
  intros Hstep n. induction n as [|n IH]; intros s k Hk; cbn [loop];
    unfold bind; specialize (Hstep s k Hk);
    destruct (step s k) as [[[s'|s']| |] k1]; try exact I; try exact Hstep.
  apply IH. exact Hstep.
Qed.

Lemma endsOk_spans h :
  endsOk h -> inrange (Aepos h - Abpos h) /\ inrange (Bepos h - Bbpos h).
Proof. intros (Ha & He & Hb & [Hr|Hr]); split; range. Qed.

Section Ends.

Variable lookUp : util.CTL.
Variable O : kernel.
Hypothesis T_short : seq.Len (target O) < MaxInt.
Hypothesis q_short : seq.Len (query O) <= MaxInt.

Lemma sameOuter_target k : (sameOuter O) k -> target k = target O.
Proof. unfold sameOuter, outer. intros H. injection H. auto. Qed.

Lemma sameOuter_query k :
  (sameOuter O) k -> seq.Len (query k) = seq.Len (query O).
Proof. unfold sameOuter, outer. intros H. injection H. intros. congruence. Qed.

(** After the forward trace and the retries of the reverse trace, with
    the ends joined, the hit has both ends in place. *)
Lemma traces_endsOk fuel mid low high :
  MinInt < mid <= MaxInt -> inrange low ->
  triple (sameOuter O)
    (run traceForward lookUp mid low high ;
     run reverseRetries lookUp fuel mid ;
     modify joinEnds)
    (fun _ k' => (sameOuter O) k' /\ endsOk (highEnd k')).
Proof.
  intros Hmid Hlow k Hk. unfold bind at 1.
  pose proof (traceForward_forwardOk (sameOuter O)
                (fun v st k0 H => H) lookUp (target O) (seq.Len (query O))
                sameOuter_target sameOuter_query T_short q_short
                mid low high Hmid Hlow k Hk) as Hf.
  destruct (traceForward lookUp mid low high k) as [[[]| |] k1];
    try exact I.
  destruct Hf as (k0 & L0 & Hk0 & -> & HaL & HbL).
  set (invR := fun k' => (sameOuter O) k' /\ lowEnd k' = L0).
  assert (Hloop :
    triple (fun k' => invR k')
      (reverseRetries lookUp fuel mid)
      (fun _ k' => invR k' /\ reverseOk (Bepos L0) (highEnd k'))).
  { unfold reverseRetries.
    intros k' Hk'.
    pose proof (triple_loop (retryStep lookUp mid)
                  (fun x k' => invR k'
                               /\ (x = 1 \/ reverseOk (Bepos L0) (highEnd k')))
                  (fun _ k' => invR k' /\ reverseOk (Bepos L0) (highEnd k')))
      as Hl.
    apply Hl; [|split; [assumption|left; reflexivity]].
    clear k' Hk' Hl. intros x k' [Hinv Hx].
    unfold retryStep. unfold bind at 1. cbn [get].
    destruct ((x =? 1) || _) eqn:Hc.
    - unfold bind.
      pose proof (traceReverse_reverseOk invR
                    (fun v st k0 H => H) lookUp (target O)
                    (fun k0 H => sameOuter_target k0 (proj1 H)) T_short
                    (Bepos L0) HbL (Aepos L0) (Aepos L0)
                    (iadd mid (maxIGap k'))
                    (iadd (blockCost k') (imul (imul 2 x) (diffCost k')))
                    ltac:(range) ltac:(range) k' Hinv) as Hr.
      destruct Hinv as [Ho Hlo]. rewrite Hlo.
      destruct (traceReverse _ _ _ _ _ _ k') as [[[]| |] k2]; try exact I.
      destruct Hr as (k3 & h & [Ho3 Hl3] & -> & Hh).
      cbn [ret]. split; [split; assumption|]. right. exact Hh.
    - apply orb_false_iff in Hc as [Hx1 _]. apply Z.eqb_neq in Hx1.
      destruct Hx as [Hx|Hx]; [contradiction|].
      cbn [ret]. split; assumption. }
  unfold bind at 1.
  specialize (Hloop (set_lowEnd L0 k0) (conj Hk0 eq_refl)).
  destruct (reverseRetries lookUp fuel mid (set_lowEnd L0 k0))
    as [[x| |] k2]; try exact I.
  destruct Hloop as ([Ho2 Hl2] & HaR & HbR).
  cbn. split; [exact Ho2|].
  unfold endsOk. cbn. rewrite Hl2. repeat split; try assumption; range.
Qed.

End Ends.

Lemma uncovered_emitted k k' : uncovered k' = uncovered k -> emitted k k'.
Proof.
  intros H. unfold uncovered in H.
  injection H as Ht Hq Hl Hd _ _ _ _ _ Hr _ _ _ _ _ _ Hres.
  unfold emitted. repeat split; try assumption. left. assumption.
Qed.

Lemma accept_emitted k : emitted k (snd (accept k)).
Proof.
  unfold accept. unfold bind at 1. cbn [get].
  set (h := highEnd k).
  destruct (Z.geb_spec (isub (Bepos h) (Bbpos h)) (minLen k)) as [HB|];
    [|apply uncovered_emitted; reflexivity].
  destruct (Z.geb_spec (isub (Aepos h) (Abpos h)) (minLen k)) as [HA|];
    [|apply uncovered_emitted; reflexivity].
  cbn [andb].
  set (indel := isub (isub (Abpos h) (Bbpos h)) (isub (Aepos h) (Bepos h))).
  assert (Hindel :
    forall (f : Z -> M unit),
      emitted k (snd (f (absIndel h) k)) ->
      emitted k
        (snd (bind (if indel <? 0
                    then if indel =? ineg indel
                         then panic "dp: weird number overflow"
                         else ret (ineg indel)
                    else ret indel) f k))).
  { intros f. unfold absIndel. fold indel. unfold bind, ret, panic.
    destruct (indel <? 0); [destruct (indel =? ineg indel)|];
      cbv beta iota; intros Hf;
      first [exact Hf|apply uncovered_emitted; reflexivity]. }
  apply Hindel.
  set (ident := identityOf (rMatchCost k) h (absIndel h)).
  destruct (ident <=? maxDiff k)%float eqn:Hid;
    [|apply uncovered_emitted; reflexivity].
  unfold bind at 1. unfold modify at 1.
  set (k1 := set_highEnd (withError ident h) k).
  unfold bind at 1.
  pose proof (uncovered_laterTrapezoids k1) as Hl.
  destruct (laterTrapezoids k1) as [[later| |] k2]; cbn [snd] in Hl |- *.
  2,3: unfold uncovered in Hl;
       injection Hl as Ht Hq Hl2 Hd2 _ _ _ _ _ Hr2 _ _ _ _ _ _ Hres2;
       unfold emitted; repeat split; try assumption; left; assumption.
  unfold bind at 1.
  pose proof (uncovered_coverLoop later 0 k2) as Hc.
  destruct (coverLoop 0 later k2) as [[[]| |] k3]; cbn [snd] in Hc |- *;
    unfold uncovered in Hl, Hc;
    injection Hl as Ht2 Hq2 Hl2 Hd2 _ _ _ _ _ Hr2 _ Hh2 _ _ _ _ Hres2;
    injection Hc as Ht3 Hq3 Hl3 Hd3 _ _ _ _ _ Hr3 _ Hh3 _ _ _ _ Hres3;
    change (target k1) with (target k) in Ht2;
    change (query k1) with (query k) in Hq2;
    change (minLen k1) with (minLen k) in Hl2;
    change (maxDiff k1) with (maxDiff k) in Hd2;
    change (rMatchCost k1) with (rMatchCost k) in Hr2;
    change (result k1) with (result k) in Hres2;
    change (highEnd k1) with (withError ident h) in Hh2.
  2,3: unfold emitted; repeat split; try congruence; left; congruence.
  cbn. unfold set_result, set_highEnd, emitted. cbn.
  repeat split; try congruence.
  right. exists ident. fold h. split; [congruence|].
  unfold acceptable. cbn. repeat split; try lia; assumption.
Qed.

(** *** The hits that are sent, with their spans *)

Lemma sendsOk_refl k : sendsOk k k.
Proof.
  unfold sendsOk. repeat split. exists [].
  split; [symmetry; apply app_nil_r|]. split; [constructor|]. constructor.
Qed.

Lemma sendsOk_trans k1 k2 k3 : sendsOk k1 k2 -> sendsOk k2 k3 -> sendsOk k1 k3.
Proof.
  intros (Hl & Hd & Hr & Ht & Hq & new1 & Hres1 & Hall1 & Hsp1)
         (Hl' & Hd' & Hr' & Ht' & Hq' & new2 & Hres2 & Hall2 & Hsp2).
  unfold sendsOk. repeat split; try congruence.
  exists (new1 ++ new2). split; [|split].
  - rewrite Hres2, Hres1, app_assoc. reflexivity.
  - rewrite Hl, Hd, Hr in Hall2. apply Forall_app. split; assumption.
  - intros Hb. apply Forall_app. split; [auto|].
    rewrite <- Hl. apply Hsp2. unfold bounded in *. rewrite Ht, Hq. exact Hb.
Qed.

Lemma outer_sendsOk k k' : outer k' = outer k -> sendsOk k k'.
Proof.
  unfold outer. intros H.
  injection H as Ht Hq Hl Hd _ _ _ _ _ Hr _ _ _ Hres.
  unfold sendsOk. repeat split; try assumption.
  exists []. split; [rewrite app_nil_r; assumption|].
  split; [constructor|]. constructor.
Qed.

Lemma emitted_sendsOk k k' :
  emitted k k' -> (bounded k -> endsOk (highEnd k)) -> sendsOk k k'.
Proof.
  intros (Hl & Hd & Hr & Ht & Hq & Hres) Hends.
  unfold sendsOk. repeat split; try assumption.
  destruct Hres as [Hres|(e & Hres & Hacc)].
  - exists []. split; [rewrite app_nil_r; assumption|].
    split; [constructor|]. constructor.
  - eexists. split; [exact Hres|]. split; [constructor; [exact Hacc|constructor]|].
    intros Hb. constructor; [|constructor].
    destruct (endsOk_spans _ (Hends Hb)) as [Ha Hbr].
    destruct Hacc as (HA & HB & _). cbn in HA, HB |- *.
    rewrite isub_exact in HA, HB by assumption.
    unfold plainSpans. cbn. split; assumption.
Qed.

Lemma bind_assoc {A B C : Type} (m : M A) (f : A -> M B) (g : B -> M C) k :
  bind (bind m f) g k = bind m (fun a => bind (f a) g) k.
Proof.
  unfold bind. destruct (m k) as [[a| |] k1]; reflexivity.
Qed.

Lemma bind_ext {A B : Type} (m : M A) (f g : A -> M B) k :
  (forall a k', f a k' = g a k') -> bind m f k = bind m g k.
Proof.
  intros H. unfold bind. destruct (m k) as [[a| |] k1]; auto.
Qed.

Lemma mid_range b t :
  MinInt < idiv (iadd b t) 2 <= MaxInt.
Proof.
  pose proof (wrap_inrange (b + t)) as H. fold (iadd b t) in H.
  unfold idiv.
  assert (- 2 ^ 62 <= Z.quot (iadd b t) 2 <= 2 ^ 62).
  { destruct (Z.le_gt_cases 0 (iadd b t)).
    - rewrite Z.quot_div_nonneg by lia.
      assert (0 <= iadd b t / 2) by (apply Z.div_pos; lia).
      assert (iadd b t / 2 <= 2 ^ 62)
        by (apply Z.div_le_upper_bound; range).
      lia.
    - assert (Hq : Z.quot (iadd b t) 2 = - Z.quot (- iadd b t) 2)
        by (rewrite Z.quot_opp_l; lia).
      rewrite Hq, Z.quot_div_nonneg by lia.
      assert (0 <= - iadd b t / 2) by (apply Z.div_pos; lia).
      assert (- iadd b t / 2 <= 2 ^ 62)
        by (apply Z.div_le_upper_bound; range).
      lia. }
  rewrite wrap_id by range. range.
Qed.

Section Recursion.

Variable lookUp : util.CTL.

Lemma alignRecursion_sendsOk fuel : forall trap,
  steps sendsOk (alignRecursion lookUp fuel trap).
Proof.
  induction fuel as [|fuel IH]; intros trap k; cbn [alignRecursion].
  - apply sendsOk_refl.
  - unfold bind at 1. cbn [get]. cbv zeta.
    set (mid := idiv (iadd (Bottom trap) (Top trap)) 2).
    set (prefix :=
           run traceForward lookUp mid (isub mid (Right trap))
                 (isub mid (Left trap)) ;
           run reverseRetries lookUp fuel mid ;
           modify joinEnds).
    match goal with
    | |- sendsOk k (snd (bind _ (fun _ => bind _ (fun _ => bind _ ?rest)) k)) =>
        assert (Heq :
          bind (traceForward lookUp mid (isub mid (Right trap))
                  (isub mid (Left trap)))
            (fun _ => bind (reverseRetries lookUp fuel mid)
                        (fun _ => bind (modify joinEnds) rest)) k
          = bind prefix rest k)
    end.
    { unfold prefix. rewrite bind_assoc. apply bind_ext. intros [] k'.
      rewrite bind_assoc. reflexivity. }
    rewrite Heq. clear Heq.
    assert (Hkeep : outer (snd (prefix k)) = outer k).
    { apply (keeps_bind outer);
        [apply outer_traceForward|intros ?].
      apply (keeps_bind outer);
        [apply outer_reverseRetries|intros ?].
      apply keeps_modify. intros ?. reflexivity. }
    assert (Hends : bounded k ->
              match prefix k with
              | (Ok _, k') => endsOk (highEnd k')
              | _ => True
              end).
    { intros [HT HQ].
      pose proof (traces_endsOk lookUp k HT HQ fuel mid
                    (isub mid (Right trap)) (isub mid (Left trap))
                    (mid_range _ _) (wrap_inrange _) k eq_refl) as H.
      fold prefix in H. destruct (prefix k) as [[[]| |] k']; try exact I.
      apply H. }
    unfold bind at 1.
    destruct (prefix k) as [[[]| |] k3]; cbn [snd] in Hkeep |- *;
      try (apply outer_sendsOk; assumption).
    apply sendsOk_trans with (k2 := k3); [apply outer_sendsOk; assumption|].
    unfold bind at 1. cbn [get].
    assert (Hb3 : bounded k3 -> bounded k).
    { unfold bounded, outer in *.
      injection Hkeep as Ht Hq _ _ _ _ _ _ _ _ _ _ _ _.
      rewrite Ht, Hq. auto. }
    assert (Hacc : sendsOk k3 (snd (accept k3)))
      by (apply emitted_sendsOk; [apply accept_emitted|auto]).
    unfold bind at 1.
    destruct (accept k3) as [[[]| |] k4]; cbn [snd] in Hacc |- *;
      try assumption.
    apply sendsOk_trans with (k2 := k4); [assumption|].
    apply (steps_bind sendsOk sendsOk_trans).
    + match goal with |- steps _ (if ?c then _ else _) => destruct c end;
        [apply IH|apply (steps_ret sendsOk sendsOk_refl)].
    + intros _.
      match goal with |- steps _ (if ?c then _ else _) => destruct c end;
        [apply IH|apply (steps_ret sendsOk sendsOk_refl)].
Qed.

End Recursion.

End posFacts.

(** ** The claims about the kernel *)

Module kernelFacts.

Import dp GoIntFacts examples dpFacts posFacts.

Section Kernel.

Variable lookUp : util.CTL.

(** C1.  Every hit that [alignRecursion] sends to the result channel
    is acceptable: both spans, as the machine subtracts, are at least the
    minimum hit length, the recorded error is
    1/RMatchCost - (Score - |indel|)/(RMatchCost*(Bepos - Bbpos)) and it
    is at most [maxDiff]; the hits sent before stay as they are.  For
    sequences no longer than a slice can be the subtractions do not wrap:
    the minimum hit length is at most Aepos - Abpos and at most
    Bepos - Bbpos.  For the kernel as it is set up from the parameters
    [maxDiff] is 1 - MinId. *)
Theorem alignRecursion_emits_acceptable fuel trap k :
  exists new,
    result (snd (alignRecursion lookUp fuel trap k)) = result k ++ new
    /\ Forall (acceptable (minLen k) (maxDiff k) (rMatchCost k)) new
    /\ (seq.Len (target k) < MaxInt -> seq.Len (query k) <= MaxInt ->
        Forall (fun h => minLen k <= Aepos h - Abpos h
                         /\ minLen k <= Bepos h - Bbpos h) new)
    /\ (forall target query L I traps slot,
          k = newKernel target query L I traps slot ->
          Forall (acceptable L (1 - I)%float pals.RMatchCost) new).
Proof.
  destruct (alignRecursion_sendsOk lookUp fuel trap k)
    as (_ & _ & _ & _ & _ & new & Hres & Hall & Hsp).
  exists new. split; [assumption|]. split; [assumption|]. split.
  - intros HT HQ. apply Hsp. split; assumption.
  - intros target query L I traps slot ->. exact Hall.
Qed.

(** C7.  The loop of the reverse trace is: the run x = 1, made without a
    test, and then the runs x = 2, 3, ..., each made exactly while
    [highEnd.Bbpos > mid + x*MaxIGap] and
    [highEnd.Score < lowEnd.Score] hold after the run before; the run x
    is [traceReverse] from the forward end, with [mid + MaxIGap] as
    bottom and [BlockCost + 2*x*DiffCost] as xfactor.  This is the loop
    that [alignRecursion] enters right after [traceForward]. *)
Theorem reverseRetries_runs fuel mid k :
  Z.of_nat fuel < 2 ^ 62 ->
  reverseRetries lookUp fuel mid k = retriesSpec lookUp fuel mid 1 k
  /\ forall trap, exists rest : kernel -> M unit, forall k0,
       alignRecursion lookUp (S fuel) trap k0
       = (do k <- get ;
          let mid := idiv (iadd (Bottom trap) (Top trap)) 2 in
          run traceForward lookUp mid (isub mid (Right trap))
                (isub mid (Left trap)) ;
          run retriesSpec lookUp fuel mid 1 ;
          rest k) k0.
Proof.
  intros Hfuel. split; [apply reverseRetries_retriesSpec; assumption|].
  intros trap. eexists (fun k => _). intros k0.
  cbn [alignRecursion]. cbv zeta.
  unfold bind at 1. cbn [get].
  symmetry. unfold bind at 1. cbn [get]. symmetry.
  set (mid' := idiv (iadd (Bottom trap) (Top trap)) 2).
  unfold bind at 1.
  symmetry. unfold bind at 1. symmetry.
  destruct (traceForward lookUp mid' _ _ k0) as [[[]| |] k1]; try reflexivity.
  apply bind_cong. apply reverseRetries_retriesSpec. assumption.
Qed.

End Kernel.

(** ACGTACGT against itself: one hit over the whole of both sequences. *)
Lemma alignRecursion_emits_acceptable_witness :
  exists new,
    result (snd (alignRecursion lookUpN 10 trap0 kernel0)) = [] ++ new
    /\ Forall (fun h => 4 <= Aepos h - Abpos h /\ 4 <= Bepos h - Bbpos h) new
    /\ Forall (acceptable 4 (1 - 0x1.ccccccccccccdp-1)%float pals.RMatchCost)
         new.
Proof.
  destruct (alignRecursion_emits_acceptable lookUpN 10 trap0 kernel0)
    as (new & Hres & _ & Hsp & Hall).
  exists new. split; [exact Hres|]. split.
  - apply Hsp; vm_compute; congruence.
  - exact (Hall acgt2 acgt2 4 0x1.ccccccccccccdp-1%float [trap0; trap1] 0
             eq_refl).
Defined.

Lemma reverseRetries_runs_witness :
  reverseRetries lookUpN 10 4 kernel0 = retriesSpec lookUpN 10 4 1 kernel0.
Proof.
  exact (proj1 (reverseRetries_runs lookUpN 10 4 kernel0 ltac:(cbn; lia))).
Defined.

(** C2 at work.  The kernel is at slot 0 of two trapezoids; the hit over
    0..8 x 0..8 covers the later trapezoid, that of slot 1, completely.
    The loop marks index 0, counted from slot 1 on, in [covered]: the
    entry of slot 0, the current trapezoid, becomes true and that of
    slot 1 stays false. *)
Lemma alignRecursion_marks_current_slot :
  slot kernel0 = 0
  /\ trapezoids kernel0 = [trap0; trap1]
  /\ covered kernel0 = [false; false]
  /\ marked (mkDPHit 0 0 8 8 (-3) 5 8 0%float) 0 [trap1] = [0]
  /\ (let k' := snd (alignRecursion lookUpN 10 trap0 kernel0) in
      (result k', covered k'))
     = ([mkDPHit 0 0 8 8 (-5) 3 8 0%float], [true; false]).
Proof.
  split; [reflexivity|]. split; [reflexivity|]. split; [reflexivity|].
  split; vm_compute; reflexivity.
Qed.

End kernelFacts.

(** * Further properties of the code *)

(** ** The writer and its shared record *)

Module writerLaws.
Import pair writer examples samples.

Lemma t_state_fixed fmt_g2 t :
  t_state fmt_g2 t ->
  feat.ID t = "" /\ feat.Source t = "pals" /\ feat.Feature_ t = "hit".
Proof.
  induction 1 as [|t p t' _ (IHi & IHs & IHf) Hw].
  - repeat split.
  - unfold Write in Hw. destruct (B p); [|discriminate].
    destruct (A p); [|discriminate].
    injection Hw as <-. cbn. auto.
Qed.

(** X1.  The record that [Write] hands over does not depend on what was
    written before: from every state that the shared record [t] can be
    in, [Write] gives what it gives from the initial state. *)
Theorem Write_forgets_history fmt_g2 t p :
  t_state fmt_g2 t -> Write fmt_g2 t p = Write fmt_g2 t_init p.
Proof.
  intros Ht. destruct (t_state_fixed _ _ Ht) as (Hi & Hs & Hf).
  unfold Write. destruct (B p); [|reflexivity].
  destruct (A p); [|reflexivity].
  cbn. rewrite Hi, Hs, Hf. reflexivity.
Qed.

(** After [pair0] was written, [pair1] is written as at first. *)
Lemma Write_forgets_history_witness :
  Write fmt0 written0 pair1 = Write fmt0 t_init pair1.
Proof.
  apply (Write_forgets_history fmt0 written0 pair1).
  apply (t_state_write fmt0 t_init pair0 written0 (t_state_init fmt0)).
  reflexivity.
Defined.

End writerLaws.

(** ** From a hit to a written record *)

Module pipelineFacts.
Import convert GoIntFacts convertFacts examples samples.

Section featureOf.
Variable binSize : Z.

(** X4.  A feature that [featureOf] returns names a contig of the map,
    starts at 0 or later and ends at the length of that contig or
    before; it carries nothing but the id, the start and the end. *)
Theorem featureOf_within contigs from to comp f :
  featureOf binSize contigs from to comp = Ok (inl f) ->
  exists sm c,
    seq.Meta contigs = Some sm
    /\ In c (seq.contigs sm)
    /\ feat.ID f = seq.ID (seq.cseq c)
    /\ 0 <= feat.Start f
    /\ feat.End_ f <= seq.Len (seq.cseq c)
    /\ f = feat.mkFeature (feat.ID f) "" "" (feat.Start f) (feat.End_ f)
             "" None 0 0 "".
Proof.
  unfold featureOf, fail.
  destruct (if comp then _ else _) as [f0 t0].
  destruct (f0 >=? t0); [discriminate|].
  destruct (iquo _ _) as [bin|]; [|discriminate].
  destruct (iquo _ _) as [binCount|]; [|discriminate].
  destruct ((bin <? 0) || (bin >=? binCount)); [discriminate|].
  destruct (seq.Meta contigs) as [sm|]; [|discriminate].
  destruct (index (seq.binMap sm) bin) as [ci|]; [|discriminate].
  destruct ((ci <? 0) || _); [discriminate|].
  destruct (_ <? 0); [discriminate|].
  destruct (index (seq.contigs sm) ci) as [c|] eqn:Hc; [|discriminate].
  intros [= <-]. exists sm, c. cbn.
  split; [reflexivity|]. split; [eapply index_elem; exact Hc|].
  split; [reflexivity|]. split; [|split; [|reflexivity]].
  - match goal with |- context [if ?a <? ?b then _ else _] =>
      destruct (Z.ltb_spec a b); lia end.
  - match goal with |- context [if ?a >? ?b then _ else _] =>
      destruct (Z.gtb_spec a b); lia end.
Qed.

Section Write.
Variable fmt_g2 : float -> string.

(** X5.  A pair that [NewFeaturePair] returns is made of the two
    features of [featureOf], with strand -1 for the complement and 1
    otherwise, and [Write] accepts it: the record has the query
    feature's id, start and end, and the target feature in its
    attributes. *)
Theorem NewFeaturePair_writes target query hit comp fp t :
  NewFeaturePair binSize target query hit comp = Ok (inl fp) ->
  exists a b r,
    featureOf binSize target (Abpos hit) (Aepos hit) false = Ok (inl a)
    /\ featureOf binSize query (Bbpos hit) (Bepos hit) comp = Ok (inl b)
    /\ fp = pair.mkFeaturePair (Some a) (Some b) (Score hit) (Error hit)
              (if comp then -1 else 1)
    /\ writer.Write fmt_g2 t fp = Ok r
    /\ feat.Location r = feat.ID b
    /\ feat.Start r = feat.Start b /\ feat.End_ r = feat.End_ b
    /\ feat.Strand r = (if comp then -1 else 1)
    /\ feat.Attributes r
       = writer.attributes fmt_g2 (feat.ID a) (iadd (feat.Start a) 1)
           (feat.End_ a) (Error hit).
Proof.
  unfold NewFeaturePair.
  destruct (featureOf binSize target _ _ false) as [[a|e]| |];
    try discriminate.
  destruct (featureOf binSize query _ _ comp) as [[b|e]| |];
    try discriminate.
  intros [= <-]. exists a, b. eexists.
  split; [reflexivity|]. split; [reflexivity|]. split; [reflexivity|].
  unfold writer.Write. cbn. repeat split.
Qed.

End Write.
End featureOf.

Lemma featureOf_within_witness :
  exists sm c,
    seq.Meta packed = Some sm
    /\ In c (seq.contigs sm)
    /\ "ctg1" = seq.ID (seq.cseq c)
    /\ 0 <= 0
    /\ 300 <= seq.Len (seq.cseq c)
    /\ feat.mkFeature "ctg1" "" "" 0 300 "" None 0 0 ""
       = feat.mkFeature "ctg1" "" "" 0 300 "" None 0 0 "".
Proof.
  exact (featureOf_within 1024 packed (-10) 300 false
           (feat.mkFeature "ctg1" "" "" 0 300 "" None 0 0 "") eq_refl).
Defined.

Lemma NewFeaturePair_writes_witness :
  exists a b r,
    featureOf 1024 packed 10 300 false = Ok (inl a)
    /\ featureOf 1024 packed 20 310 false = Ok (inl b)
    /\ pair.mkFeaturePair
         (Some (feat.mkFeature "ctg1" "" "" 10 300 "" None 0 0 ""))
         (Some (feat.mkFeature "ctg1" "" "" 20 310 "" None 0 0 ""))
         7 0%float 1
       = pair.mkFeaturePair (Some a) (Some b) 7 0%float 1
    /\ writer.Write fmt0 writer.t_init
         (pair.mkFeaturePair
            (Some (feat.mkFeature "ctg1" "" "" 10 300 "" None 0 0 ""))
            (Some (feat.mkFeature "ctg1" "" "" 20 310 "" None 0 0 ""))
            7 0%float 1)
       = Ok r
    /\ feat.Location r = feat.ID b
    /\ feat.Start r = feat.Start b /\ feat.End_ r = feat.End_ b
    /\ feat.Strand r = 1
    /\ feat.Attributes r
       = writer.attributes fmt0 (feat.ID a) (iadd (feat.Start a) 1)
           (feat.End_ a) 0%float.
Proof.
  exact (NewFeaturePair_writes 1024 fmt0 packed packed hit0 false _
           writer.t_init eq_refl).
Defined.

End pipelineFacts.

(** ** Reading a written record back *)

Module expandFacts.
Import expand GoIntFacts examples samples.
Ltac range := unfold inrange, MinInt, MaxInt in *; lia.

(** *** Printing and parsing integers *)

Lemma digit_char m :
  (m < 10)%N ->
  isDigit (pretty_N_char m) = true
  /\ digitVal (pretty_N_char m) = Z.of_N m
  /\ isASCII (pretty_N_char m) = true
  /\ isSpace (pretty_N_char m) = false.
Proof.
  intros H.
  assert (m = 0 \/ m = 1 \/ m = 2 \/ m = 3 \/ m = 4 \/ m = 5 \/ m = 6
          \/ m = 7 \/ m = 8 \/ m = 9)%N as Hm by lia.
  repeat destruct Hm as [->|Hm]; try subst m; repeat split; reflexivity.
Qed.

Lemma parseUint_pretty_go x :
  Z.of_N x <= 2 ^ 64 - 1 ->
  forall s, parseUint (pretty_N_go x s) 0 = parseUint s (Z.of_N x).
Proof.
  induction (N.lt_wf_0 x) as [x _ IH]. intros Hx s.
  destruct (N.eq_dec x 0%N) as [->|Hne]; [reflexivity|].
  assert (Hpos : (0 < x)%N) by lia.
  rewrite pretty_N_go_step by assumption.
  assert (Hdiv : (x `div` 10 < x)%N) by (apply N.div_lt; lia).
  rewrite IH; [|assumption|lia].
  assert (Hmod : (x `mod` 10 < 10)%N) by (apply N.mod_lt; lia).
  destruct (digit_char _ Hmod) as (Hd & Hv & _).
  cbn [parseUint]. rewrite Hd, Hv. cbn [negb].
  pose proof (N.div_mod x 10%N ltac:(lia)) as Hdm.
  assert (Hq : Z.of_N (x `div` 10)%N * 10 + Z.of_N (x `mod` 10)%N = Z.of_N x).
  { rewrite Hdm at 3. rewrite N2Z.inj_add, N2Z.inj_mul.
    change (Z.of_N 10) with 10. ring. }
  assert (Hlt : Z.of_N (x `mod` 10)%N < 10)
    by (change 10 with (Z.of_N 10); apply N2Z.inj_lt; assumption).
  assert (Hge : 0 <= Z.of_N (x `mod` 10)%N) by apply N2Z.is_nonneg.
  assert (Hge' : 0 <= Z.of_N (x `div` 10)%N) by apply N2Z.is_nonneg.
  clear Hdm. revert Hq Hlt Hge Hge'.
  generalize (Z.of_N (x `div` 10)%N) (Z.of_N (x `mod` 10)%N).
  intros q r Hq Hlt Hge Hge'.
  rewrite Hq.
  unfold cutoff. change ((2 ^ 64 - 1) / 10 + 1) with 1844674407370955162.
  change (2 ^ 64 - 1) with 18446744073709551615 in *.
  destruct (Z.geb_spec q 1844674407370955162); [lia|].
  destruct (Z.gtb_spec (Z.of_N x) 18446744073709551615); [lia|].
  reflexivity.
Qed.

Lemma pretty_go_head x s :
  (0 < x)%N -> exists c r, pretty_N_go x s = String c r /\ isDigit c = true.
Proof.
  revert s. induction (N.lt_wf_0 x) as [x _ IH]. intros s Hpos.
  rewrite pretty_N_go_step by assumption.
  destruct (N.eq_dec (x `div` 10)%N 0%N) as [->|Hne].
  - rewrite pretty_N_go_0. eexists _, _. split; [reflexivity|].
    apply digit_char. apply N.mod_lt. lia.
  - apply IH; [apply N.div_lt; lia|apply N.neq_0_lt_0; assumption].
Qed.

Lemma plain_pretty_go x :
  forall s, plain s = true -> plain (pretty_N_go x s) = true.
Proof.
  induction (N.lt_wf_0 x) as [x _ IH]. intros s Hs.
  destruct (N.eq_dec x 0%N) as [->|Hne]; [assumption|].
  rewrite pretty_N_go_step by lia.
  apply IH; [apply N.div_lt; lia|].
  destruct (digit_char (x `mod` 10)%N) as (_ & _ & Ha & Hsp);
    [apply N.mod_lt; lia|].
  cbn [plain]. rewrite Ha, Hsp, Hs. reflexivity.
Qed.

Lemma app_cons c s t : String c s +:+ t = String c (s +:+ t).
Proof. reflexivity. Qed.

Lemma app_nil t : "" +:+ t = t.
Proof. reflexivity. Qed.

Ltac push_app := repeat rewrite app_cons; rewrite ?app_nil.

Lemma pretty_pos p : pretty (Z.pos p) = pretty_N_go (N.pos p) "".
Proof. reflexivity. Qed.

Lemma pretty_neg p : pretty (Z.neg p) = "-" +:+ pretty_N_go (N.pos p) "".
Proof. reflexivity. Qed.

Lemma digit_no_sign c :
  isDigit c = true ->
  (Ascii.N_of_ascii c =? 45)%N = false /\ (Ascii.N_of_ascii c =? 43)%N = false.
Proof.
  unfold isDigit. intros H. apply andb_true_iff in H as [H _].
  apply N.leb_le in H. split; apply N.eqb_neq; lia.
Qed.

Lemma magnitude_pretty_go neg p :
  Z.pos p <= 2 ^ 64 - 1 ->
  magnitude neg (pretty_N_go (N.pos p) "")
  = if neg then if Z.pos p >? 2 ^ 63 then inr ErrRange else inl (Z.neg p)
    else if Z.pos p >=? 2 ^ 63 then inr ErrRange else inl (Z.pos p).
Proof.
  intros Hp. unfold magnitude.
  rewrite parseUint_pretty_go by (cbn; lia).
  destruct (pretty_go_head (N.pos p) "") as (c & r & -> & _); [lia|].
  reflexivity.
Qed.

Lemma Atoi_pretty z : inrange z -> Atoi (pretty z) = inl z.
Proof.
  intros Hz. destruct z as [|p|p].
  - reflexivity.
  - rewrite pretty_pos.
    pose proof (magnitude_pretty_go false p ltac:(range)) as Hm.
    destruct (pretty_go_head (N.pos p) "") as (c & r & Hs & Hd); [lia|].
    rewrite Hs in *. unfold Atoi.
    destruct (digit_no_sign c Hd) as [-> ->]. rewrite Hm.
    destruct (Z.geb_spec (Z.pos p) (2 ^ 63)); [range|reflexivity].
  - rewrite pretty_neg. push_app. cbn [Atoi].
    match goal with |- context [(?a =? 45)%N] =>
      change (a =? 45)%N with true end.
    cbv iota.
    rewrite magnitude_pretty_go by range.
    destruct (Z.gtb_spec (Z.pos p) (2 ^ 63)); [range|reflexivity].
Qed.

Lemma plain_pretty (z : Z) : plain (pretty z) = true /\ pretty z <> "".
Proof.
  destruct z as [|p|p].
  - split; [reflexivity|discriminate].
  - rewrite pretty_pos. split; [apply plain_pretty_go; reflexivity|].
    destruct (pretty_go_head (N.pos p) "") as (c & r & -> & _); [lia|].
    discriminate.
  - rewrite pretty_neg. split; [|discriminate].
    push_app. cbn [plain]. rewrite plain_pretty_go by reflexivity.
    reflexivity.
Qed.


(** *** Splitting into fields *)

Lemma app_assoc' (a b c : string) : (a +:+ b) +:+ c = a +:+ b +:+ c.
Proof. induction a as [|x a IH]; [reflexivity|]. rewrite !app_cons, IH. reflexivity. Qed.

Lemma app_nil_r' (a : string) : a +:+ "" = a.
Proof. induction a as [|x a IH]; [reflexivity|]. rewrite app_cons, IH. reflexivity. Qed.

Lemma app_not_empty (a b : string) : a <> "" -> a +:+ b <> "".
Proof. destruct a; [contradiction|discriminate]. Qed.

Lemma fields_word w : forall cur s,
  plain w = true -> fieldsFrom cur (w +:+ s) = fieldsFrom (cur +:+ w) s.
Proof.
  induction w as [|c w IH]; intros cur s Hw.
  - rewrite app_nil, app_nil_r'. reflexivity.
  - cbn [plain] in Hw. apply andb_true_iff in Hw as [Hc Hw].
    apply andb_true_iff in Hc as [_ Hc]. apply negb_true_iff in Hc.
    rewrite app_cons. cbn [fieldsFrom]. rewrite Hc.
    rewrite IH by assumption. rewrite app_assoc'. reflexivity.
Qed.

Lemma fields_space cur s :
  cur <> "" -> fieldsFrom cur (" " +:+ s) = cur :: fieldsFrom "" s.
Proof.
  intros H. rewrite app_cons, app_nil. cbn [fieldsFrom].
  destruct cur; [contradiction|reflexivity].
Qed.

Lemma fields_last cur w :
  plain w = true -> cur +:+ w <> "" -> fieldsFrom cur w = [cur +:+ w].
Proof.
  intros Hw Hne. rewrite <- (app_nil_r' w) at 1.
  rewrite fields_word by assumption. cbn [fieldsFrom].
  destruct (cur +:+ w); [contradiction|reflexivity].
Qed.

Lemma allASCII_app a b : allASCII (a +:+ b) = allASCII a && allASCII b.
Proof.
  induction a as [|c a IH]; [reflexivity|].
  rewrite app_cons. cbn [allASCII]. rewrite IH, andb_assoc. reflexivity.
Qed.

Lemma plain_allASCII w : plain w = true -> allASCII w = true.
Proof.
  induction w as [|c w IH]; [reflexivity|]. cbn [plain allASCII].
  intros H. apply andb_true_iff in H as [Hc Hw].
  apply andb_true_iff in Hc as [Hc _]. rewrite Hc, IH by assumption.
  reflexivity.
Qed.

Lemma dropLast_snoc s c : dropLast (s +:+ String c "") = Some s.
Proof.
  unfold dropLast.
  assert (Hl : String.length (s +:+ String c "") = S (String.length s)).
  { induction s as [|x s IH]; [reflexivity|].
    rewrite app_cons. cbn [String.length]. rewrite IH. reflexivity. }
  rewrite Hl. f_equal.
  induction s as [|x s IH]; [reflexivity|].
  rewrite app_cons. cbn [String.length String.substring].
  rewrite IH; [reflexivity|].
  clear -s. induction s as [|y s IH]; [reflexivity|].
  rewrite app_cons. cbn [String.length]. rewrite IH. reflexivity.
Qed.

Lemma isub_iadd_1 s : inrange s -> isub (iadd s 1) 1 = s.
Proof.
  intros H. unfold isub, iadd, wrap.
  unfold inrange, MinInt, MaxInt in H.
  change (2 ^ 63) with 9223372036854775808 in *.
  change (2 ^ 64) with 18446744073709551616.
  Z.div_mod_to_equations. lia.
Qed.

(** The fields of the attributes that [Write] builds. *)
Lemma fields_attributes id d1 d2 g :
  word id -> word d1 -> word d2 -> word g ->
  let a := "Target " +:+ id +:+ " " +:+ d1 +:+ " " +:+ d2
             +:+ "; maxe " +:+ g in
  allASCII a = true
  /\ fieldsFrom "" a = ["Target"; id; d1; d2 +:+ ";"; "maxe"; g].
Proof.
  intros [Hi Hip] [H1 H1p] [H2 H2p] [Hg Hgp] a. subst a. split.
  - rewrite !allASCII_app.
    rewrite (plain_allASCII id), (plain_allASCII d1), (plain_allASCII d2),
      (plain_allASCII g) by assumption.
    reflexivity.
  - change ("Target " +:+ id +:+ " " +:+ d1 +:+ " " +:+ d2 +:+ "; maxe " +:+ g)
      with ("Target" +:+ " " +:+ id +:+ " " +:+ d1 +:+ " " +:+ d2
            +:+ ";" +:+ " " +:+ "maxe" +:+ " " +:+ g).
    rewrite (fields_word "Target") by reflexivity.
    rewrite fields_space by discriminate.
    rewrite (fields_word id) by assumption. rewrite app_nil.
    rewrite fields_space by assumption.
    rewrite (fields_word d1) by assumption. rewrite app_nil.
    rewrite fields_space by assumption.
    rewrite (fields_word d2) by assumption. rewrite app_nil.
    rewrite (fields_word ";") by reflexivity.
    rewrite fields_space by (apply app_not_empty; assumption).
    rewrite (fields_word "maxe") by reflexivity.
    rewrite fields_space by discriminate.
    rewrite fields_last; rewrite ?app_nil; try assumption.
    reflexivity.
Qed.

Lemma prefix_check rest :
  (String.length ("Target " +:+ rest) <? 7)%nat
  || negb (String.eqb (String.substring 0 7 ("Target " +:+ rest)) "Target ")
  = false.
Proof. repeat rewrite app_cons. rewrite app_nil. destruct rest; reflexivity. Qed.

Lemma word_pretty (z : Z) : word (pretty z).
Proof. destruct (plain_pretty z). split; assumption. Qed.

Lemma fieldsFrom_nonempty s : forall cur,
  Forall (fun w => w <> "") (fieldsFrom cur s).
Proof.
  induction s as [|c s IH]; intros cur; cbn [fieldsFrom].
  - destruct cur; [constructor|]. constructor; [discriminate|constructor].
  - destruct (isSpace c); [|apply IH].
    destruct cur; [apply IH|]. constructor; [discriminate|apply IH].
Qed.

Lemma dropLast_nonempty s : s <> "" -> exists s', dropLast s = Some s'.
Proof.
  intros H. unfold dropLast. destruct s; [contradiction|].
  cbn [String.length]. eexists. reflexivity.
Qed.

Section RoundTrip.

Variable fmt_g2 : float -> string.
Variable atoiError : string -> numError -> error.
Variable ParseFloat : string -> float + error.
Variable FieldsUnicode : string -> list string.

(** X2.  What [Write] writes, [ExpandFeature] reads back with the sides
    exchanged: for a pair whose target id is a word and whose error
    prints as a word that [ParseFloat] reads, the expansion of the
    written record has the written record itself, without score,
    attributes and strand, as [A], and as [B] the target feature with
    its start and end, its id as location, and the id
    [<id>:<start>..<end>].  The score is the written one turned back
    into an integer, the strand is the pair's. *)
Theorem Write_then_ExpandFeature t p a b r x :
  pair.A p = Some a -> pair.B p = Some b ->
  word (feat.ID a) -> word (fmt_g2 (pair.Error p)) ->
  inrange (feat.Start a) -> inrange (feat.End_ a) ->
  ParseFloat (fmt_g2 (pair.Error p)) = inl x ->
  writer.Write fmt_g2 t p = Ok r ->
  ExpandFeature atoiError ParseFloat FieldsUnicode r
  = Ok (inl (pair.mkFeaturePair
               (Some (feat.mkFeature (feat.ID t) (feat.Source t) (feat.ID b)
                        (feat.Start b) (feat.End_ b) (feat.Feature_ t)
                        None 0 (-1) ""))
               (Some (feat.mkFeature
                        (feat.ID a +:+ ":" +:+ pretty (feat.Start a) +:+ ".."
                           +:+ pretty (feat.End_ a))
                        "" (feat.ID a) (feat.Start a) (feat.End_ a)
                        "" None 0 0 ""))
               (int_of_float (float64 (pair.Score p))) x (pair.Strand p))).
Proof.
  intros Ha Hb Hid Hg Hs He Hx. unfold writer.Write. rewrite Hb, Ha.
  intros [= <-]. unfold ExpandFeature. cbn [feat.Attributes].
  unfold writer.attributes, writer.fmt_d.
  destruct (fields_attributes (feat.ID a) (pretty (iadd (feat.Start a) 1))
              (pretty (feat.End_ a)) (fmt_g2 (pair.Error p))
              Hid (word_pretty _) (word_pretty _) Hg) as [Hascii Hfields].
  cbv zeta in Hascii, Hfields.
  rewrite prefix_check.
  unfold Fields. rewrite Hascii, Hfields.
  rewrite Atoi_pretty by apply wrap_inrange.
  rewrite dropLast_snoc. rewrite Atoi_pretty by assumption.
  rewrite Hx. cbn [feat.Score feat.ID feat.Source feat.Location feat.Start
                   feat.End_ feat.Feature_ feat.Frame feat.Strand].
  rewrite isub_iadd_1 by assumption. reflexivity.
Qed.

(** X3.  On ASCII attributes [ExpandFeature] panics only for want of a
    score: with a score it returns a pair or an error, and the last
    character of the fourth field can always be cut off.  Without a
    score it never returns a pair. *)
Theorem ExpandFeature_returns f :
  (expand.allASCII (feat.Attributes f) = true -> feat.Score f <> None ->
   exists r, ExpandFeature atoiError ParseFloat FieldsUnicode f = Ok r)
  /\ (feat.Score f = None ->
      forall fp,
        ExpandFeature atoiError ParseFloat FieldsUnicode f <> Ok (inl fp)).
Proof.
  split.
  - intros Hascii Hscore. unfold ExpandFeature, Fields. rewrite Hascii.
    destruct (_ || _); [eexists; reflexivity|].
    pose proof (fieldsFrom_nonempty (feat.Attributes f) "") as Hne.
    destruct (fieldsFrom "" (feat.Attributes f))
      as [|f0 [|f1 [|f2 [|f3 [|f4 [|f5 [|f6 fs]]]]]]];
      try (eexists; reflexivity).
    destruct (Atoi f2); [|eexists; reflexivity].
    assert (H3 : f3 <> "").
    { inversion Hne as [|? ? _ Hne1]; subst.
      inversion Hne1 as [|? ? _ Hne2]; subst.
      inversion Hne2 as [|? ? _ Hne3]; subst.
      inversion Hne3 as [|? ? H3 _]; subst. exact H3. }
    destruct (dropLast_nonempty f3 H3) as [f3' ->].
    destruct (Atoi f3'); [|eexists; reflexivity].
    destruct (ParseFloat f5); [|eexists; reflexivity].
    destruct (feat.Score f); [eexists; reflexivity|contradiction].
  - intros Hscore fp. unfold ExpandFeature. rewrite Hscore.
    destruct (_ || _); [discriminate|].
    destruct (Fields _ _) as [|f0 [|f1 [|f2 [|f3 [|f4 [|f5 [|f6 fs]]]]]]];
      try discriminate.
    destruct (Atoi f2); [|discriminate].
    destruct (dropLast f3); [|discriminate].
    destruct (Atoi s); [|discriminate].
    destruct (ParseFloat f5); discriminate.
Qed.

End RoundTrip.

Lemma Write_then_ExpandFeature_witness :
  ExpandFeature atoiError0 ParseFloat0 FieldsUnicode0 written0
  = Ok (inl (pair.mkFeaturePair
               (Some (feat.mkFeature "" "pals" "ctg7" 100 110 "hit"
                        None 0 (-1) ""))
               (Some (feat.mkFeature "chr1:10..20" "" "chr1" 10 20
                        "" None 0 0 ""))
               (int_of_float (float64 10)) 0%float 1)).
Proof.
  refine (Write_then_ExpandFeature fmt0 atoiError0 ParseFloat0 FieldsUnicode0
            writer.t_init pair0 _ _ written0 0%float
            eq_refl eq_refl _ _ _ _ eq_refl eq_refl).
  - split; [discriminate|reflexivity].
  - split; [discriminate|reflexivity].
  - cbn. unfold inrange, MinInt, MaxInt. lia.
  - cbn. unfold inrange, MinInt, MaxInt. lia.
Defined.

End expandFacts.

(** ** Signs of floats *)

Module floatFacts.
Import floats GoIntFacts.


Lemma round_aux_sign s m e l s' m' e' :
  binary_round_aux prec emax s m e l = S754_finite s' m' e' -> s' = s.
Proof.
  unfold binary_round_aux.
  destruct (shr_fexp prec emax m e l) as [mrs1 e1].
  destruct (shr_fexp prec emax _ e1 loc_Exact) as [mrs2 e2].
  destruct (shr_m mrs2); try discriminate.
  destruct (e2 <=? emax - prec); [|discriminate].
  intros [= <- _ _]. reflexivity.
Qed.

Lemma round_sign s m e s' m' e' :
  binary_round prec emax s m e = S754_finite s' m' e' -> s' = s.
Proof.
  unfold binary_round. destruct (shl_align _ _ _) as [mz ez].
  apply round_aux_sign.
Qed.

Lemma normalize_notNegative z e :
  0 <= z -> notNegative (binary_normalize prec emax z e false).
Proof.
  intros Hz m' e' H. destruct z as [|p|p]; cbn in H; [discriminate| |lia].
  apply round_sign in H. discriminate.
Qed.

Lemma float64_spec z :
  0 <= z < 2 ^ 63 ->
  Prim2SF (float64 z) = binary_normalize prec emax z 0 false.
Proof.
  intros Hz. unfold float64.
  assert (H : binary_normalize prec emax z 0 false
              = Prim2SF (of_uint63 (Uint63.of_Z z))).
  { rewrite of_uint63_spec, Uint63.of_Z_spec.
    rewrite Z.mod_small; [reflexivity|].
    change Uint63.wB with (2 ^ 63). lia. }
  rewrite H, SF2Prim_Prim2SF. reflexivity.
Qed.

Lemma mul_notNegative x y :
  notNegative x -> notNegative y -> notNegative (SFmul prec emax x y).
Proof.
  intros Hx Hy m e H.
  destruct x as [sx|sx| |sx mx ex], y as [sy|sy| |sy my ey];
    cbn in H; try discriminate.
  apply round_aux_sign in H.
  destruct sx; [exact (Hx _ _ eq_refl)|].
  destruct sy; [exact (Hy _ _ eq_refl)|]. discriminate.
Qed.

Lemma digits2_bound m : Z.pos m < 2 ^ Z.pos (digits2_pos m).
Proof.
  induction m as [m IH|m IH|]; cbn [digits2_pos]; [| |cbn; lia];
    rewrite Pos2Z.inj_succ, Z.pow_succ_r by lia; lia.
Qed.

Lemma iter_xO_double x d : 2 * Z.pos x <= Z.pos (Pos.iter xO x d).
Proof.
  induction d as [|d IH] using Pos.peano_ind.
  - cbn. lia.
  - rewrite Pos.iter_succ. lia.
Qed.

Lemma shl_align_fst mx ex ez :
  ez <= ex ->
  (ez = ex -> fst (shl_align mx ex ez) = mx)
  /\ (ez < ex -> 2 * Z.pos mx <= Z.pos (fst (shl_align mx ex ez))).
Proof.
  intros Hle. unfold shl_align.
  destruct (ez - ex) as [|d|d] eqn:Hd; cbn [fst]; split; intros H;
    try lia; try reflexivity.
  apply iter_xO_double.
Qed.

Lemma sub_finite sx mx ex sy my ey :
  SFsub prec emax (S754_finite sx mx ex) (S754_finite sy my ey)
  = binary_normalize prec emax
      (cond_Zopp sx (Z.pos (fst (shl_align mx ex (Z.min ex ey))))
       - cond_Zopp sy (Z.pos (fst (shl_align my ey (Z.min ex ey)))))
      (Z.min ex ey) false.
Proof. reflexivity. Qed.

Lemma one_minus_notNegative I :
  (I <? 0)%float = false -> (1 <? I)%float = false ->
  notNegative (Prim2SF (1 - I)%float).
Proof.
  intros H0 H1. rewrite sub_spec. rewrite ltb_spec in H0, H1.
  pose proof (Prim2SF_valid I) as Hv.
  assert (E1 : Prim2SF 1 = S754_finite false 4503599627370496 (-52))
    by reflexivity.
  assert (E0 : Prim2SF 0 = S754_zero false) by reflexivity.
  rewrite E1 in *. rewrite E0 in H0. clear E0 E1.
  destruct (Prim2SF I) as [s|s| |s m e]; intros m' e' H;
    try (unfold SF64sub, SFsub in H; discriminate H).
  destruct s; [discriminate H0|].
  unfold SF64sub in H. rewrite sub_finite in H.
  apply (fun Hge => normalize_notNegative _ _ Hge _ _ H). clear H.
  unfold cond_Zopp.
    unfold valid_binary, bounded in Hv.
    apply andb_true_iff in Hv as [Hc _]. unfold canonical_mantissa in Hc.
    apply Z.eqb_eq in Hc. unfold fexp in Hc.
    pose proof (digits2_bound m) as Hd.
    assert (Hdig : Z.pos (digits2_pos m) <= 53) by (unfold prec in Hc; lia).
    assert (Hm : Z.pos m < 2 ^ 53).
    { eapply Z.lt_le_trans; [exact Hd|]. apply Z.pow_le_mono_r; lia. }
    clear Hc Hd Hdig H0.
    unfold SFltb, SFcompare in H1.
    destruct (Z.compare_spec (-52) e) as [He|He|He]; try discriminate H1.
    + subst e. rewrite Pos.compare_cont_spec in H1.
      unfold Pos.switch_Eq in H1.
      destruct (Pos.compare_spec 4503599627370496 m) as [Hp|Hp|Hp];
        try discriminate H1; clear H1.
      * subst m. lia.
      * apply Pos2Z.pos_lt_pos in Hp.
        replace (Z.min (-52) (-52)) with (-52) by reflexivity.
        rewrite (proj1 (shl_align_fst 4503599627370496 (-52) (-52)
                          (Z.le_refl _)) eq_refl).
        rewrite (proj1 (shl_align_fst m (-52) (-52) (Z.le_refl _)) eq_refl).
        lia.
    + clear H1. replace (Z.min (-52) e) with e by lia.
      rewrite (proj1 (shl_align_fst m e e (Z.le_refl _)) eq_refl).
      pose proof (proj2 (shl_align_fst 4503599627370496 (-52) e
                           (Z.lt_le_incl _ _ He)) He) as HA.
      change (2 ^ 53) with 9007199254740992 in Hm. lia.
Qed.

Lemma int_of_float_notNegative f :
  notNegative (Prim2SF f) -> int_of_float f = MinInt \/ 0 <= int_of_float f.
Proof.
  intros H. unfold int_of_float.
  destruct (Prim2SF f) as [s|s| |s m e]; auto; [right; lia|].
  destruct s; [destruct (H _ _ eq_refl)|].
  match goal with |- context [if ?c then _ else _] => destruct c eqn:Hc end;
    [|auto].
  right. destruct (Z.leb_spec 0 e).
  - assert (0 <= 2 ^ e) by (apply Z.pow_nonneg; lia). nia.
  - apply Z.quot_pos; [lia|]. apply Z.pow_pos_nonneg; lia.
Qed.

End floatFacts.

(** ** The search for filter parameters *)

Module searchFacts.
Import pals checks floats GoIntFacts palsFacts floatFacts examples samples.

Ltac range := unfold inrange, MinInt, MaxInt in *; lia.


Lemma seedDiffsOf_sign L I :
  MinWordLength < L -> inrange L ->
  (I <? 0)%float = false -> (1 <? I)%float = false ->
  seedDiffsOf L I = MinInt \/ 0 <= seedDiffsOf L I.
Proof.
  intros HL Hr H0 H1. unfold seedDiffsOf.
  apply int_of_float_notNegative. rewrite mul_spec.
  apply mul_notNegative.
  - rewrite float64_spec by (unfold MinWordLength in HL; range).
    apply normalize_notNegative. unfold MinWordLength in HL. lia.
  - apply one_minus_notNegative; assumption.
Qed.

Lemma MemRequired_ok p fp :
  TubeOffset fp <> 0 -> exists mem, MemRequired p fp = Ok mem.
Proof.
  intros H. unfold MemRequired, filterMemRequired, iquo.
  destruct (Z.eqb_spec (TubeOffset fp) 0); [contradiction|].
  eexists. reflexivity.
Qed.

Lemma candidate_tube p s d k :
  inrange d -> d <> -32 -> TubeOffset (candidate p s d k) <> 0.
Proof.
  intros Hd Hne. unfold candidate. cbn [TubeOffset].
  destruct (Z.gtb_spec (tubeOffset p) 0); [lia|].
  unfold iadd, wrap, TubeOffsetDelta.
  change (2 ^ 63) with 9223372036854775808 in *.
  change (2 ^ 64) with 18446744073709551616 in *.
  unfold inrange, MinInt, MaxInt in Hd.
  change (2 ^ 63) with 9223372036854775808 in *.
  Z.div_mod_to_equations. lia.
Qed.

Lemma tryWordSizes_returns p s d mws (n : nat) : forall k fp lg,
  MinInt < mws -> inrange k -> inrange d -> d <> -32 ->
  (Z.to_nat (k - mws + 1) <= n)%nat ->
  exists r, tryWordSizes n p s d mws k fp lg = Ok r.
Proof.
  induction n as [|n IH]; intros k fp lg Hm Hk Hd Hne Hn;
    cbn [tryWordSizes]; destruct (Z.geb_spec k mws) as [Hge|Hlt];
    try (eexists; reflexivity); [lia|].
  fold (candidate p s d k).
  destruct (MemRequired_ok p (candidate p s d k)
              (candidate_tube p s d k Hd Hne)) as [mem ->].
  assert (Hnext : forall lg0, exists r,
             tryWordSizes n p s d mws (isub k 1) (candidate p s d k) lg0
             = Ok r).
  { intros lg0. apply IH; try assumption.
    - rewrite isub_exact by range. range.
    - rewrite isub_exact by range. lia. }
  destruct (match maxMem p with Some mx => mem >? mx | None => false end);
    [apply Hnext|].
  destruct (MinWordsPerFilterHit s k d <=? 0); [apply Hnext|].
  destruct (MaxAvgIndexListLen <? AvgIndexListLength p (candidate p s d k))%float;
    [apply Hnext|].
  eexists. reflexivity.
Qed.

Lemma firstPassing_returns p mws (sched : list (Z * Z)) : forall fp lg,
  MinInt < mws -> mws <= MaxInt ->
  Forall (fun sd => inrange (snd sd) /\ snd sd <> -32) sched ->
  exists r, firstPassing p mws sched fp lg = Ok r.
Proof.
  induction sched as [|[s d] rest IH]; intros fp lg Hm Hm' Hall;
    cbn [firstPassing]; [eexists; reflexivity|].
  inversion Hall as [|? ? [Hd Hne] Hrest]; subst. cbn [snd] in *.
  destruct (tryWordSizes_returns p s d mws (wordSizeCount mws) MaxKmerLen fp
              (if MaxKmerLen <? mws
               then logIf p lg (LogWordSizeTooSmall MaxKmerLen mws) else lg))
    as [[[mw fp1] lg1] ->]; try assumption.
  - unfold MaxKmerLen. range.
  - unfold wordSizeCount. lia.
  - destruct (mw >? 0); [eexists; reflexivity|]. apply IH; assumption.
Qed.

Lemma schedule_diffs L d :
  d = MinInt \/ 0 <= d -> inrange d ->
  Forall (fun sd => inrange (snd sd) /\ snd sd <> -32) (schedule L d).
Proof.
  intros Hd Hr. unfold schedule. apply Forall_app. split.
  - apply Forall_forall. intros [s d'] Hin.
    apply list_elem_of_In, in_map_iff in Hin.
    destruct Hin as (x & [= <- <-] & _). cbn. split; [assumption|].
    unfold MinInt in Hd. lia.
  - apply Forall_forall. intros [s d'] Hin.
    apply list_elem_of_In, in_map_iff in Hin.
    destruct Hin as (x & [= <- <-] & Hx). cbn.
    unfold countdown in Hx. apply in_map_iff in Hx.
    destruct Hx as (i & <- & Hi). apply in_seq in Hi.
    split; [range|lia].
Qed.


Lemma tryWordSizes_skips p s d mws (n : nat) : forall k fp lg mw fp' lg',
  inrange mws -> inrange k ->
  (n <= Z.to_nat (k - mws + 1))%nat ->
  tryWordSizes n p s d mws k fp lg = Ok (mw, fp', lg') ->
  0 < mw ->
  forall k', WordSize fp' < k' <= k -> failsCheck p (candidate p s d k').
Proof.
  induction n as [|n IH]; intros k fp lg mw fp' lg' Hm Hk Hn;
    cbn [tryWordSizes]; destruct (Z.geb_spec k mws) as [Hge|Hlt];
    try discriminate;
    try (intros [= <- <- <-]; lia).
  fold (candidate p s d k).
  destruct (MemRequired p (candidate p s d k)) as [mem| |] eqn:Hmem;
    try discriminate.
  assert (Hnext : forall lg0,
             failsCheck p (candidate p s d k) ->
             tryWordSizes n p s d mws (isub k 1) (candidate p s d k) lg0
             = Ok (mw, fp', lg') ->
             0 < mw ->
             forall k', WordSize fp' < k' <= k ->
                        failsCheck p (candidate p s d k')).
  { intros lg0 Hfail H Hmw k' Hk'. destruct (Z.eq_dec k mws) as [->|Hne].
    - destruct n as [|n']; [|lia].
      cbn [tryWordSizes] in H.
      destruct (isub mws 1 >=? mws); [discriminate|].
      injection H as <- <- <-. lia.
    - rewrite isub_exact in H by range.
      destruct (Z.eq_dec k' k) as [->|Hne']; [assumption|].
      eapply IH; [| | |exact H| |]; try assumption; try range; lia. }
  destruct (match maxMem p with Some mx => mem >? mx | None => false end)
    eqn:Hmx.
  { apply Hnext. left. destruct (maxMem p) as [mx|]; [|discriminate].
    exists mem, mx. destruct (Z.gtb_spec mem mx); [|discriminate]. auto. }
  destruct (Z.leb_spec (MinWordsPerFilterHit s k d) 0) as [Hw|Hw].
  { apply Hnext. right. left. exact Hw. }
  destruct (MaxAvgIndexListLen <? AvgIndexListLength p (candidate p s d k))%float
    eqn:Havg.
  { apply Hnext. right. right. exact Havg. }
  intros [= <- <- <-] _ k' Hk'. cbn [WordSize candidate] in Hk'. lia.
Qed.

Lemma search_skips p L mws (fuel : nat) : forall s d fp lg fp' lg',
  inrange mws ->
  search fuel p L mws s d fp lg = Ok (Some fp', lg') ->
  forall k', WordSize fp' < k' <= MaxKmerLen ->
    failsCheck p (candidate p (MinMatch fp') (MaxError fp') k').
Proof.
  induction fuel as [|fuel IH]; intros s d fp lg fp' lg' Hm;
    cbn [search]; [discriminate|].
  destruct (tryWordSizes _ p s d mws MaxKmerLen fp _)
    as [[[mw fp1] lg1]| |] eqn:Htry; try discriminate.
  pose proof Htry as Hpass.
  apply tryWordSizes_passed in Hpass;
    [|assumption|unfold MaxKmerLen; range|lia|unfold wordSizeCount; lia].
  destruct (Z.gtb_spec mw 0) as [Hpos|Hneg].
  - intros [= <- <-] k' Hk'.
    destruct Hpass as [[_ Hno]|(_ & _ & <- & <-)]; [lia|].
    eapply tryWordSizes_skips;
      [| | |exact Htry| |exact Hk']; try assumption;
      [unfold MaxKmerLen; range|unfold wordSizeCount; lia].
  - destruct (s >=? idiv L 4); [apply IH; assumption|].
    destruct (d >? 0); [apply IH; assumption|discriminate].
Qed.

Lemma tryWordSizes_quiet p s d mws (n : nat) : forall k fp lg r,
  log p = false ->
  tryWordSizes n p s d mws k fp lg = Ok r -> snd r = lg.
Proof.
  induction n as [|n IH]; intros k fp lg r Hlog; cbn [tryWordSizes];
    destruct (k >=? mws); try discriminate;
    try (intros [= <-]; reflexivity).
  destruct (MemRequired p _) as [mem| |]; try discriminate.
  unfold logIf. rewrite Hlog.
  destruct (match maxMem p with Some mx => mem >? mx | None => false end);
    [apply IH; assumption|].
  destruct (MinWordsPerFilterHit s k d <=? 0); [apply IH; assumption|].
  destruct (MaxAvgIndexListLen <? _)%float; [apply IH; assumption|].
  intros [= <-]. reflexivity.
Qed.

Lemma search_quiet p L mws (fuel : nat) : forall s d fp lg r,
  log p = false ->
  search fuel p L mws s d fp lg = Ok r -> snd r = lg.
Proof.
  induction fuel as [|fuel IH]; intros s d fp lg r Hlog;
    cbn [search]; [discriminate|].
  unfold logIf. rewrite Hlog.
  replace (if MaxKmerLen <? mws then lg else lg) with lg
    by (destruct (MaxKmerLen <? mws); reflexivity).
  destruct (tryWordSizes _ p s d mws MaxKmerLen fp lg)
    as [[[mw fp1] lg1]| |] eqn:Htry; try discriminate.
  apply tryWordSizes_quiet in Htry; [|assumption]. cbn [snd] in Htry.
  subst lg1.
  destruct (mw >? 0); [intros [= <-]; reflexivity|].
  destruct (s >=? idiv L 4); [apply IH; assumption|].
  destruct (d >? 0); [apply IH; assumption|].
  intros [= <-]. reflexivity.
Qed.

Section Optimise.

Variable Log4 : float -> float.


(** X7.  [Optimise] prefers long words: for the seed that it accepts,
    every word size above the accepted one, up to the greatest, fails
    one of the three checks. *)
Theorem Optimise_prefers_long_words fuel p L I p' lg :
  Optimise Log4 fuel p L I = Ok (None, p', lg) ->
  exists fp,
    FilterParams p' = Some fp
    /\ forall k, WordSize fp < k <= MaxKmerLen ->
         failsCheck p (candidate p (MinMatch fp) (MaxError fp) k).
Proof.
  unfold Optimise.
  destruct ((I <? 0)%float || (1 <? I)%float); [discriminate|].
  destruct (L <=? MinWordLength); [discriminate|].
  destruct (search _ _ _ _ _ _ _ _) as [[[fp|] lg1]| |] eqn:Hs;
    try discriminate.
  intros [= <- <-]. exists fp. split; [reflexivity|].
  eapply search_skips; [apply int_of_float_inrange|exact Hs].
Qed.

End Optimise.


(** Under a ceiling of 2^20 bytes the word size 8 is accepted, and the
    word sizes 9 to 15 fail a check. *)
Lemma Optimise_prefers_long_words_witness :
  exists fp,
    Some (mkParams 8 400 24 56) = Some fp
    /\ forall k, WordSize fp < k <= MaxKmerLen ->
         failsCheck selfTight (candidate selfTight (MinMatch fp) (MaxError fp) k).
Proof.
  apply (Optimise_prefers_long_words util.Log4 100 selfTight 400
           DefaultMinIdentity
           (mkPALS (target selfTight) (query selfTight) true
              (Some (mkParams 8 400 24 56))
              (Some (mkDPParams 400 DefaultMinIdentity)) false 0
              (Some (2 ^ 20)))
           []).
  vm_compute. reflexivity.
Defined.

End searchFacts.

(** ** The estimates *)

Module estimateFacts.
Import pals checks GoIntFacts palsFacts.
Ltac range := unfold inrange, MinInt, MaxInt in *; lia.


(** X8.  Of the memory estimate only the finger array depends on the
    word size: for lengths, tube offsets and errors below 2^40, going
    from the word size k to a greater k' adds 4*(4^k' - 4^k) bytes, so
    a shorter word never needs more memory. *)
Theorem MemRequired_word_size p fp k m m' :
  0 <= targetLen p < 2 ^ 40 -> 0 <= queryLen p < 2 ^ 40 ->
  0 < TubeOffset fp < 2 ^ 40 -> 0 <= MaxError fp < 2 ^ 40 ->
  0 <= WordSize fp <= k -> k <= MaxKmerLen ->
  MemRequired p fp = Ok m ->
  MemRequired p (withWordSize k fp) = Ok m' ->
  m' - m = 4 * (4 ^ k - 4 ^ WordSize fp) /\ m <= m'.
Proof.
  intros Ht Hq Hd He Hk Hk' Hm Hm'.
  apply MemRequired_exact in Hm; try assumption; try lia.
  apply MemRequired_exact in Hm'; try assumption;
    cbn [withWordSize WordSize TubeOffset MaxError]; try lia.
  unfold memEstimate in *.
  cbn [withWordSize WordSize TubeOffset MaxError] in Hm'.
  assert (4 ^ WordSize fp <= 4 ^ k) by (apply Z.pow_le_mono_r; lia).
  split; lia.
Qed.

Lemma MemRequired_word_size_witness :
  4294976784 - 9744 = 4 * (4 ^ 15 - 4 ^ 3) /\ 9744 <= 4294976784.
Proof.
  apply (MemRequired_word_size examples.selfSmall (mkParams 3 400 24 56) 15);
    vm_compute; repeat split; first [reflexivity | discriminate].
Defined.

(** X9.  The divisor of [AvgIndexListLength] is 4^k for the word sizes
    k from 0 to 31; from 32 on the shift leaves 0 and the estimate is a
    division by zero. *)
Theorem AvgIndexListLength_shift p fp :
  (0 <= WordSize fp <= 31 ->
   AvgIndexListLength p fp
   = (float64 (targetLen p) / float64 (4 ^ WordSize fp))%float)
  /\ (32 <= WordSize fp <= MaxInt ->
      AvgIndexListLength p fp = (float64 (targetLen p) / 0)%float).
Proof.
  unfold AvgIndexListLength, shl1, umul, uintptr.
  split; intros Hk.
  - rewrite (Z.mod_small (WordSize fp)) by lia.
    rewrite Z.mod_small by lia.
    destruct (Z.ltb_spec (WordSize fp * 2) 64); [|lia].
    replace (2 ^ (WordSize fp * 2)) with (4 ^ WordSize fp)
      by (rewrite Z.mul_comm, Z.pow_mul_r by lia; reflexivity).
    rewrite wrap_id; [reflexivity|].
    assert (0 < 4 ^ WordSize fp) by (apply Z.pow_pos_nonneg; lia).
    assert (4 ^ WordSize fp <= 4 ^ 31) by (apply Z.pow_le_mono_r; lia).
    change (4 ^ 31) with 4611686018427387904 in *. range.
  - rewrite (Z.mod_small (WordSize fp)) by range.
    rewrite Z.mod_small by range.
    destruct (Z.ltb_spec (WordSize fp * 2) 64); [lia|]. reflexivity.
Qed.

Lemma AvgIndexListLength_shift_witness :
  AvgIndexListLength examples.selfSmall (mkParams 15 400 24 56)
  = (float64 1000 / float64 (4 ^ 15))%float
  /\ AvgIndexListLength examples.selfSmall (mkParams 32 400 24 56)
     = (float64 1000 / 0)%float.
Proof.
  split.
  - apply (proj1 (AvgIndexListLength_shift examples.selfSmall
                    (mkParams 15 400 24 56))). cbn. lia.
  - apply (proj2 (AvgIndexListLength_shift examples.selfSmall
                    (mkParams 32 400 24 56))). cbn. unfold MaxInt. lia.
Defined.

End estimateFacts.

(** ** Offset slices and vectors *)

Module sliceFacts.
Import dp GoIntFacts convertFacts examples samples.

Lemma index_insert_eq {A} (xs : list A) (x : Z) (v : A) :
  0 <= x < Z.of_nat (length xs) ->
  index (<[Z.to_nat x := v]> xs) x = Some v.
Proof.
  intros H. unfold index. rewrite length_insert.
  destruct (Z.leb_spec 0 x); [|lia].
  destruct (Z.ltb_spec x (Z.of_nat (length xs))); [|lia]. cbn.
  apply list_lookup_insert_eq. lia.
Qed.

Lemma index_insert_ne {A} (xs : list A) (x y : Z) (v : A) :
  0 <= x -> x <> y ->
  index (<[Z.to_nat x := v]> xs) y = index xs y.
Proof.
  intros H Hne. unfold index. rewrite length_insert.
  destruct ((0 <=? y) && (y <? Z.of_nat (length xs))) eqn:E; [|reflexivity].
  apply andb_true_iff in E as [E1 E2].
  apply Z.leb_le in E1. 
  apply list_lookup_insert_ne. lia.
Qed.

Lemma array_set_vectors_eq v st k h :
  array (set_vectors v st k) h = default [] (st !! h).
Proof. reflexivity. Qed.

(** X10.  A value that [set] stores is what [at] reads back, through
    every view of the same array that maps its index to the same cell;
    every other cell, of this and of every other array, reads as
    before, and nothing but the store changes. *)
Theorem set_then_at o i v k k' :
  set o i v k = (Ok tt, k') ->
  (forall o' j,
     slice o' = slice o -> isub j (offset o') = isub i (offset o) ->
     at_ o' j k' = (Ok v, k'))
  /\ (forall o' j,
        slice o' <> slice o \/ isub j (offset o') <> isub i (offset o) ->
        fst (at_ o' j k') = fst (at_ o' j k))
  /\ outer k' = outer k /\ lowEnd k' = lowEnd k /\ highEnd k' = highEnd k
  /\ vectors k' = vectors k
  /\ length (store k') = length (store k).
Proof.
  unfold set.
  destruct ((0 <=? isub i (offset o))
            && (isub i (offset o) <? Z.of_nat (length (array k (slice o)))))
    eqn:E; [|discriminate].
  apply andb_true_iff in E as [E1 E2].
  apply Z.leb_le in E1. apply Z.ltb_lt in E2.
  intros [= <-].
  assert (Hh : (slice o < length (store k))%nat).
  { destruct (decide (slice o < length (store k))%nat) as [|Hn]; [assumption|].
    unfold array in E2. rewrite lookup_ge_None_2 in E2 by lia.
    cbn in E2. lia. }
  split; [|split; [|repeat split]].
  - intros o' j Hs Hj. unfold at_. rewrite array_set_vectors_eq, Hs.
    rewrite list_lookup_insert_eq by assumption. cbn [default from_option id].
    rewrite Hj, index_insert_eq by lia. reflexivity.
  - intros o' j H. unfold at_. rewrite array_set_vectors_eq.
    destruct (decide (slice o' = slice o)) as [Hs|Hs].
    + destruct H as [H|H]; [contradiction|].
      rewrite Hs, list_lookup_insert_eq by assumption. cbn [default from_option id].
      rewrite index_insert_ne by auto.
      fold (array k (slice o)). rewrite <- Hs.
      destruct (index _ _); reflexivity.
    + rewrite list_lookup_insert_ne by auto.
      fold (array k (slice o')).
      destruct (index _ _); reflexivity.
  - cbn. apply length_insert.
Qed.


Lemma set_then_at_witness :
  at_ (mkOffsetSlice 11 0) 12 (snd (set (mkOffsetSlice 10 0) 11 7 kernel1))
  = (Ok 7, snd (set (mkOffsetSlice 10 0) 11 7 kernel1)).
Proof.
  apply (proj1 (set_then_at (mkOffsetSlice 10 0) 11 7 kernel1 _ eq_refl)
           (mkOffsetSlice 11 0) 12); reflexivity.
Defined.

End sliceFacts.

Module vectorFacts.
Import dp GoIntFacts dpFacts.
Ltac range := unfold inrange, MinInt, MaxInt in *; lia.

Lemma vecMax_exact required :
  - 2 ^ 61 <= required <= 2 ^ 61 ->
  iadd (iadd required (Z.shiftr required 2)) vecBuffering
  = required + required / 4 + vecBuffering.
Proof.
  intros H. rewrite Z.shiftr_div_pow2 by lia. change (2 ^ 2) with 4.
  assert (- 2 ^ 59 <= required / 4 <= 2 ^ 59).
  { split; [apply Z.div_le_lower_bound|apply Z.div_le_upper_bound]; lia. }
  unfold vecBuffering.
  rewrite (iadd_exact required) by range. rewrite iadd_exact by range.
  reflexivity.
Qed.

(** X11.  [allocateVectors] panics where the length
    required + required/4 + 100000 is negative; otherwise it leaves two
    vectors of that length, all zero, in two arrays of their own: no
    array that was there before is a vector now, and all of them keep
    their contents.  The vectors are longer than required. *)
Theorem allocateVectors_fresh required k :
  - 2 ^ 61 <= required <= 2 ^ 40 ->
  let vecMax := required + required / 4 + vecBuffering in
  (vecMax < 0 -> exists msg, allocateVectors required k = (Panic msg, k))
  /\ (0 <= vecMax ->
      exists k',
        allocateVectors required k = (Ok tt, k')
        /\ array k' (fst (vectors k')) = repeat 0 (Z.to_nat vecMax)
        /\ array k' (snd (vectors k')) = repeat 0 (Z.to_nat vecMax)
        /\ fst (vectors k') <> snd (vectors k')
        /\ (forall h, (h < length (store k))%nat ->
              h <> fst (vectors k') /\ h <> snd (vectors k')
              /\ array k' h = array k h)
        /\ (0 <= required -> required < Z.of_nat (length (array k' (fst (vectors k')))))).
Proof.
  intros Hr vecMax. unfold allocateVectors.
  rewrite vecMax_exact by lia. fold vecMax.
  split; intros Hv.
  - destruct (Z.ltb_spec vecMax 0); [|lia]. eexists. reflexivity.
  - destruct (Z.ltb_spec vecMax 0); [lia|]. eexists. split; [reflexivity|].
    unfold array. cbn [vectors store set_vectors fst snd].
    split; [|split; [|split; [|split]]].
    + rewrite lookup_app_r by lia. rewrite Nat.sub_diag. reflexivity.
    + rewrite lookup_app_r by lia.
      replace (Datatypes.S (length (store k)) - length (store k))%nat
        with 1%nat by lia.
      reflexivity.
    + lia.
    + intros h Hh. split; [lia|]. split; [lia|].
      rewrite lookup_app_l by assumption. reflexivity.
    + intros H0. rewrite lookup_app_r by lia. rewrite Nat.sub_diag.
      cbn. rewrite repeat_length.
      assert (0 <= required / 4) by (apply Z.div_pos; lia).
      unfold vecMax, vecBuffering in *. lia.
Qed.

Lemma allocateVectors_fresh_witness :
  exists k',
    allocateVectors 8 examples.kernel0 = (Ok tt, k')
    /\ array k' (fst (vectors k')) = repeat 0 (Z.to_nat 100010)
    /\ array k' (snd (vectors k')) = repeat 0 (Z.to_nat 100010)
    /\ fst (vectors k') <> snd (vectors k')
    /\ (forall h, (h < length (store examples.kernel0))%nat ->
          h <> fst (vectors k') /\ h <> snd (vectors k')
          /\ array k' h = array examples.kernel0 h)
    /\ (0 <= 8 -> 8 < Z.of_nat (length (array k' (fst (vectors k'))))).
Proof.
  apply (allocateVectors_fresh 8 examples.kernel0); [lia|].
  vm_compute. discriminate.
Defined.
End vectorFacts.

(** ** Matching letters *)

Module matchFacts.
Import dp GoIntFacts dpFacts.

(** X12.  With a table made by [NewCTL], two positions match exactly
    when they hold the same letter and the map gives that letter a code
    that is not negative: a letter that the map does not have never
    matches, not even itself.  The test panics exactly when a position
    lies outside its sequence, and it leaves the state alone. *)
Theorem isMatch_known_letters (m : gmap Z Z) i j k :
  snd (isMatch (util.NewCTL m) i j k) = k
  /\ (fst (isMatch (util.NewCTL m) i j k) = Ok true
      <-> exists b code,
            index (seq.letters (query k)) i = Some b
            /\ index (seq.letters (target k)) j = Some b
            /\ m !! util.byteval b = Some code /\ 0 <= code)
  /\ ((exists msg, fst (isMatch (util.NewCTL m) i j k) = Panic msg)
      <-> index (seq.letters (query k)) i = None
          \/ index (seq.letters (target k)) j = None).
Proof.
  unfold isMatch, bind, queryAt, targetAt, ret.
  destruct (index (seq.letters (query k)) i) as [q|] eqn:Hq.
  2:{ cbn. split; [reflexivity|]. split.
      - split; [discriminate|]. intros (b & c & H & _). discriminate.
      - split; [auto|]. intros _. eexists. reflexivity. }
  destruct (index (seq.letters (target k)) j) as [t|] eqn:Ht.
  2:{ cbn. split; [reflexivity|]. split.
      - split; [discriminate|]. intros (b & c & _ & H & _). discriminate.
      - split; [auto|]. intros _. eexists. reflexivity. }
  destruct (Byte.eqb q t) eqn:Hqt.
  - rewrite Hq. cbn. apply Byte.byte_dec_bl in Hqt. subst t.
    split; [reflexivity|]. split.
    + destruct (m !! util.byteval q) as [code|] eqn:Hm.
      * destruct (Z.geb_spec code 0); split.
        -- intros _. exists q, code. auto.
        -- reflexivity.
        -- discriminate.
        -- intros (b & c & [= <-] & _ & Hc & Hge). rewrite Hm in Hc.
           injection Hc as <-. lia.
      * split; [discriminate|].
        intros (b & c & [= <-] & _ & Hc & _). rewrite Hm in Hc. discriminate.
    + split; [intros [msg H]; discriminate|intros [H|H]; discriminate].
  - cbn. split; [reflexivity|]. split.
    + split; [discriminate|].
      intros (b & c & [= <-] & [= <-] & _).
      rewrite (Byte.byte_dec_lb eq_refl) in Hqt. discriminate.
    + split; [intros [msg H]; discriminate|intros [H|H]; discriminate].
Qed.

End matchFacts.

(** ** What the recursion leaves alone *)

Module frameFacts.
Import dp dpViews GoIntFacts dpFacts.

Lemma settles_refl k : settles k k.
Proof. split; [reflexivity|]. split; auto. Qed.

Lemma settles_trans k1 k2 k3 : settles k1 k2 -> settles k2 k3 -> settles k1 k3.
Proof.
  intros [Hc [Hl H]] [Hc' [Hl' H']]. split; [congruence|].
  split; [congruence|auto].
Qed.

Lemma outer_settles k k' : outer k' = outer k -> settles k k'.
Proof.
  unfold outer. intros H.
  injection H as Ht Hq Hl Hd Hg Hdc Hsc Hmc Hbc Hr Htr Hc Hs _.
  split; [unfold config; congruence|]. rewrite Hc. split; auto.
Qed.

Lemma keeps_settles {A : Type} (m : M A) : keeps outer m -> steps settles m.
Proof. intros H k. apply outer_settles, H. Qed.

Lemma settles_markCovered i : steps settles (markCovered i).
Proof.
  intros k. unfold markCovered.
  destruct ((0 <=? i) && (i <? Z.of_nat (length (covered k)))) eqn:E;
    [|apply settles_refl].
  split; [reflexivity|]. cbn. split; [apply length_insert|].
  intros j Hj. destruct (decide (j = Z.to_nat i)) as [->|Hne].
  - apply list_lookup_insert_eq. apply lookup_lt_Some in Hj. exact Hj.
  - rewrite list_lookup_insert_ne by auto. exact Hj.
Qed.

Ltac settles_step :=
  first
    [ apply (steps_ret settles settles_refl)
    | apply (steps_panic settles settles_refl)
    | apply (steps_diverge settles settles_refl)
    | apply (steps_get settles settles_refl)
    | apply settles_markCovered
    | apply (steps_bind settles settles_trans); [|intros ?]
    | match goal with
      | |- steps _ (modify _) => intros ?; apply outer_settles; reflexivity
      | |- steps _ (if ?c then _ else _) => destruct c
      | |- steps _ (match ?x with _ => _ end) => destruct x
      end ].

Lemma settles_coverLoop traps : forall i, steps settles (coverLoop i traps).
Proof.
  induction traps as [|trap rest IH]; intros i; cbn [coverLoop];
    repeat first [apply IH | settles_step].
Qed.

Lemma settles_laterTrapezoids : steps settles laterTrapezoids.
Proof. unfold laterTrapezoids. cbv zeta. repeat settles_step. Qed.

Lemma settles_accept : steps settles accept.
Proof.
  unfold accept. cbv zeta.
  repeat first [apply settles_coverLoop | apply settles_laterTrapezoids
               | settles_step].
Qed.

Section Recursion.
Variable lookUp : util.CTL.

(** X13.  Whatever its outcome, [alignRecursion] leaves the sequences,
    the thresholds and costs, the trapezoids and the slot as they were;
    [covered] keeps its length, and no flag that was set is cleared. *)
Theorem alignRecursion_settles fuel : forall trap k,
  let k' := snd (alignRecursion lookUp fuel trap k) in
  config k' = config k
  /\ length (covered k') = length (covered k)
  /\ forall i, covered k !! i = Some true -> covered k' !! i = Some true.
Proof.
  enough (H : forall trap, steps settles (alignRecursion lookUp fuel trap)).
  { intros trap k. destruct (H trap k) as [Hc [Hl Hm]]. auto. }
  induction fuel as [|fuel IH]; intros trap; cbn [alignRecursion].
  - apply (steps_diverge settles settles_refl).
  - cbv zeta.
    repeat first
      [ apply IH
      | apply settles_accept
      | apply keeps_settles, outer_traceForward
      | apply keeps_settles, outer_reverseRetries
      | settles_step ].
Qed.
End Recursion.
End frameFacts.

(** ** The overflow guard and the place of the hits *)

Module guardFacts.
Import dp dpViews GoIntFacts dpFacts posFacts examples.
Ltac range := unfold inrange, MinInt, MaxInt in *; lia.

(** *** Panics of the parts *)

Lemma quiet_ret {A} (a : A) : quiet (ret a).
Proof. intros k msg H. discriminate H. Qed.

Lemma quiet_get : quiet get.
Proof. intros k msg H. discriminate H. Qed.

Lemma quiet_diverge {A} : quiet (@diverge A).
Proof. intros k msg H. discriminate H. Qed.

Lemma quiet_modify f : quiet (modify f).
Proof. intros k msg H. discriminate H. Qed.

Lemma quiet_panic {A} msg : msg <> weird -> quiet (@panic A msg).
Proof. intros Hne k msg' [= <-]. exact Hne. Qed.

Lemma quiet_bind {A B} (m : M A) (f : A -> M B) :
  quiet m -> (forall a, quiet (f a)) -> quiet (bind m f).
Proof.
  intros Hm Hf k msg. unfold bind. specialize (Hm k).
  destruct (m k) as [[a|msg'|] k1]; cbn [fst] in *.
  - apply Hf.
  - intros [= <-]. apply Hm. reflexivity.
  - discriminate.
Qed.

Lemma quiet_loop {S} (step : S -> M (S + S)) (n : nat) :
  (forall s, quiet (step s)) -> forall s, quiet (loop n step s).
Proof.
  intros Hstep. induction n as [|n IH]; intros s; cbn [loop];
    apply quiet_bind; try apply Hstep;
    intros [s'|s']; auto using quiet_ret, quiet_diverge.
Qed.

Lemma quiet_index {A} (o : option A) msg :
  msg <> weird ->
  quiet (fun k => match o with
                  | Some v => (Ok v, k)
                  | None => (Panic msg, k)
                  end).
Proof. intros Hne k msg'. destruct o; [discriminate|]. intros [= <-]. exact Hne. Qed.

Lemma quiet_at o i : quiet (at_ o i).
Proof.
  intros k msg. unfold at_. destruct (index _ _); [discriminate|].
  intros [= <-]. discriminate.
Qed.

Lemma quiet_set o i v : quiet (set o i v).
Proof.
  intros k msg. unfold set. destruct (_ && _); [discriminate|].
  intros [= <-]. discriminate.
Qed.

Lemma quiet_targetAt i : quiet (targetAt i).
Proof.
  intros k msg. unfold targetAt. destruct (index _ _); [discriminate|].
  intros [= <-]. discriminate.
Qed.

Lemma quiet_queryAt i : quiet (queryAt i).
Proof.
  intros k msg. unfold queryAt. destruct (index _ _); [discriminate|].
  intros [= <-]. discriminate.
Qed.

Lemma quiet_lenVectors0 : quiet lenVectors0.
Proof. intros k msg H. discriminate H. Qed.

Lemma quiet_allocateVectors r : quiet (allocateVectors r).
Proof.
  intros k msg. unfold allocateVectors. destruct (_ <? _); [|discriminate].
  intros [= <-]. discriminate.
Qed.

Lemma quiet_markCovered i : quiet (markCovered i).
Proof.
  intros k msg. unfold markCovered. destruct (_ && _); [discriminate|].
  intros [= <-]. discriminate.
Qed.

Ltac quiet_step :=
  first
    [ apply quiet_ret | apply quiet_get | apply quiet_diverge
    | apply quiet_modify | apply quiet_at | apply quiet_set
    | apply quiet_targetAt | apply quiet_queryAt | apply quiet_lenVectors0
    | apply quiet_allocateVectors | apply quiet_markCovered
    | apply quiet_panic; discriminate
    | apply quiet_bind; [|intros ?]
    | apply quiet_loop; intros ?
    | match goal with
      | |- quiet (if ?c then _ else _) => destruct c
      | |- quiet (match ?x with _ => _ end) => destruct x
      end ].

Section Kernel.

Variable lookUp : util.CTL.

Lemma quiet_isMatch i j : quiet (isMatch lookUp i j).
Proof. unfold isMatch. repeat quiet_step. Qed.

Lemma quiet_shrinkLow v b l h : quiet (shrinkLow v b l h).
Proof. unfold shrinkLow. repeat quiet_step. Qed.

Lemma quiet_shrinkHigh v b l h : quiet (shrinkHigh v b l h).
Proof. unfold shrinkHigh. repeat quiet_step. Qed.

Lemma quiet_growVectors b r : quiet (growVectors b r).
Proof. unfold growVectors. repeat quiet_step. Qed.

Ltac quiet_more :=
  first
    [ apply quiet_isMatch | apply quiet_shrinkLow | apply quiet_shrinkHigh
    | apply quiet_growVectors | quiet_step ].

Lemma quiet_forwardRow b : quiet (forwardRow lookUp b).
Proof. unfold forwardRow. cbv zeta. repeat quiet_more. Qed.

Lemma quiet_traceForward mid low high :
  quiet (traceForward lookUp mid low high).
Proof.
  unfold traceForward. cbv zeta.
  repeat first [apply quiet_forwardRow | quiet_more].
Qed.

Lemma quiet_reverseRow bottom b : quiet (reverseRow lookUp bottom b).
Proof. unfold reverseRow. cbv zeta. repeat quiet_more. Qed.

Lemma quiet_traceReverse top low high bottom xfactor :
  quiet (traceReverse lookUp top low high bottom xfactor).
Proof.
  unfold traceReverse. cbv zeta.
  repeat first [apply quiet_reverseRow | quiet_more].
Qed.

Lemma quiet_reverseRetries fuel mid : quiet (reverseRetries lookUp fuel mid).
Proof.
  unfold reverseRetries, retryStep.
  repeat first [apply quiet_traceReverse | quiet_more].
Qed.

End Kernel.

Lemma quiet_coverLoop traps : forall i, quiet (coverLoop i traps).
Proof.
  induction traps as [|trap rest IH]; intros i; cbn [coverLoop];
    repeat first [apply IH | quiet_step].
Qed.

Lemma quiet_laterTrapezoids : quiet laterTrapezoids.
Proof. unfold laterTrapezoids. cbv zeta. repeat quiet_step. Qed.


(** *** The acceptance block *)

Lemma endsOk_indel h :
  endsOk h -> 0 <= isub (Aepos h) (Abpos h) -> 0 <= isub (Bepos h) (Bbpos h) ->
  let indel := isub (isub (Abpos h) (Bbpos h)) (isub (Aepos h) (Bepos h)) in
  indel <> ineg indel \/ 0 <= indel.
Proof.
  intros (Ha & He & Hb & Hr) HA HB indel.
  destruct (Z.le_gt_cases 0 indel) as [|Hneg]; [right; assumption|left].
  assert (Hx : inrange (Aepos h - Abpos h)) by range.
  assert (Hy : inrange (Bepos h - Bbpos h)) by (destruct Hr; range).
  rewrite isub_exact in HA, HB by assumption.
  assert (Hi : indel = (Bepos h - Bbpos h) - (Aepos h - Abpos h)).
  { unfold indel, isub, wrap.
    unfold inrange, MinInt, MaxInt in *.
    change (2 ^ 63) with 9223372036854775808 in *.
    change (2 ^ 64) with 18446744073709551616.
    Z.div_mod_to_equations. lia. }
  unfold ineg. rewrite wrap_id by range. lia.
Qed.

Lemma accept_quiet k :
  endsOk (highEnd k) -> 0 <= minLen k ->
  forall msg, fst (accept k) = Panic msg -> msg <> weird.
Proof.
  intros Hends Hmin msg. unfold accept. unfold bind at 1. cbn [get].
  set (h := highEnd k) in *.
  destruct (Z.geb_spec (isub (Bepos h) (Bbpos h)) (minLen k)) as [HB|];
    [|discriminate].
  destruct (Z.geb_spec (isub (Aepos h) (Abpos h)) (minLen k)) as [HA|];
    [|discriminate].
  cbn [andb].
  pose proof (endsOk_indel h Hends ltac:(lia) ltac:(lia)) as Hind.
  cbv zeta in Hind.
  set (indel := isub (isub (Abpos h) (Bbpos h)) (isub (Aepos h) (Bepos h)))
    in *.
  match goal with |- fst (bind ?m ?f k) = _ -> _ =>
    assert (Hrest : forall a, quiet (f a));
    [|assert (Hm : exists a, m k = (Ok a, k))]
  end.
  - intros a. cbv zeta beta.
    repeat first [apply quiet_coverLoop | apply quiet_laterTrapezoids
                 | quiet_step].
  - destruct (Z.ltb_spec indel 0).
    + destruct (Z.eqb_spec indel (ineg indel)); [|eexists; reflexivity].
      destruct Hind; [contradiction|lia].
    + eexists. reflexivity.
  - destruct Hm as [a Hm]. unfold bind at 1. rewrite Hm. apply Hrest.
Qed.

(** *** The recursion *)

Lemma inPlace_emitted k e :
  endsOk (highEnd k) ->
  acceptable (minLen k) (maxDiff k) (rMatchCost k)
    (swapDiagonals (withError e (highEnd k))) ->
  inPlace (minLen k) (swapDiagonals (withError e (highEnd k))).
Proof.
  intros Hends (HA & HB & _). cbn in HA, HB.
  split; [exact Hends|]. intros Hpos. cbn.
  destruct (endsOk_spans _ Hends) as [Hx Hy].
  rewrite isub_exact in HA, HB by assumption.
  destruct Hends as (Ha & He & Hb & [Hr|Hr]); lia.
Qed.

Lemma sendsInPlace_refl k : sendsInPlace k k.
Proof.
  unfold sendsInPlace. repeat split. exists [].
  split; [symmetry; apply app_nil_r|]. constructor.
Qed.

Lemma sendsInPlace_trans k1 k2 k3 :
  sendsInPlace k1 k2 -> sendsInPlace k2 k3 -> sendsInPlace k1 k3.
Proof.
  intros (Hl & Ht & Hq & new1 & Hres1 & Hsp1)
         (Hl' & Ht' & Hq' & new2 & Hres2 & Hsp2).
  unfold sendsInPlace. repeat split; try congruence.
  exists (new1 ++ new2). split.
  - rewrite Hres2, Hres1, app_assoc. reflexivity.
  - intros Hb. apply Forall_app. split; [auto|].
    rewrite <- Hl. apply Hsp2. unfold bounded in *. rewrite Ht, Hq. exact Hb.
Qed.

Lemma outer_sendsInPlace k k' : outer k' = outer k -> sendsInPlace k k'.
Proof.
  unfold outer. intros H.
  injection H as Ht Hq Hl _ _ _ _ _ _ _ _ _ _ Hres.
  unfold sendsInPlace. repeat split; try assumption.
  exists []. split; [rewrite app_nil_r; assumption|]. constructor.
Qed.

Lemma emitted_sendsInPlace k k' :
  emitted k k' -> (bounded k -> endsOk (highEnd k)) -> sendsInPlace k k'.
Proof.
  intros (Hl & Hd & Hr & Ht & Hq & Hres) Hends.
  unfold sendsInPlace. repeat split; try assumption.
  destruct Hres as [Hres|(e & Hres & Hacc)].
  - exists []. split; [rewrite app_nil_r; assumption|]. constructor.
  - eexists. split; [exact Hres|]. intros Hb.
    constructor; [|constructor]. apply inPlace_emitted; auto.
Qed.

Section Recursion.

Variable lookUp : util.CTL.

(** The sequences are bounded and the minimum length is not negative. *)
Let sane (k : kernel) : Prop := bounded k /\ 0 <= minLen k.

Let tracesOf (fuel : nat) (trap : Trapezoid) : M unit :=
  let mid := idiv (iadd (Bottom trap) (Top trap)) 2 in
  run traceForward lookUp mid (isub mid (Right trap)) (isub mid (Left trap)) ;
  run reverseRetries lookUp fuel mid ;
  modify joinEnds.

Lemma alignRecursion_traces fuel trap k :
  exists rest : unit -> M unit,
    alignRecursion lookUp (Datatypes.S fuel) trap k
    = bind (tracesOf fuel trap) rest k
    /\ forall u k3,
         rest u k3
         = (run accept ;
            run (if (isub (isub (Bbpos (highEnd k3)) (maxIGap k3))
                          (Bottom trap) >? minLen k)
                    && (isub (Bbpos (highEnd k3)) (maxIGap k3)
                        <? isub (Top trap) (maxIGap k))
                 then alignRecursion lookUp fuel
                        (mkTrapezoid (isub (Bbpos (highEnd k3)) (maxIGap k3))
                           (Bottom trap) (Left trap) (Right trap))
                 else ret tt) ;
            if isub (Top trap) (iadd (Bepos (highEnd k3)) (maxIGap k3))
               >? minLen k
            then alignRecursion lookUp fuel
                   (mkTrapezoid (Top trap)
                      (iadd (Bepos (highEnd k3)) (maxIGap k3))
                      (Left trap) (Right trap))
            else ret tt) k3.
Proof.
  eexists. split.
  - cbn [alignRecursion]. unfold bind at 1. cbn [get]. cbv zeta.
    unfold tracesOf. cbv zeta. rewrite bind_assoc. apply bind_ext.
    intros [] k'. rewrite bind_assoc. apply bind_ext. intros x k''.
    reflexivity.
  - intros u k3. reflexivity.
Qed.

Lemma traces_facts fuel trap k :
  quiet (tracesOf fuel trap)
  /\ outer (snd (tracesOf fuel trap k)) = outer k
  /\ (bounded k ->
      match tracesOf fuel trap k with
      | (Ok _, k') => endsOk (highEnd k')
      | _ => True
      end).
Proof.
  split; [|split].
  - unfold tracesOf. cbv zeta.
    repeat first [apply quiet_traceForward | apply quiet_reverseRetries
                 | quiet_step].
  - unfold tracesOf. cbv zeta.
    apply (keeps_bind outer); [apply outer_traceForward|intros ?].
    apply (keeps_bind outer); [apply outer_reverseRetries|intros ?].
    apply keeps_modify. intros ?. reflexivity.
  - intros [HT HQ].
    pose proof (traces_endsOk lookUp k HT HQ fuel
                  (idiv (iadd (Bottom trap) (Top trap)) 2)
                  (isub (idiv (iadd (Bottom trap) (Top trap)) 2) (Right trap))
                  (isub (idiv (iadd (Bottom trap) (Top trap)) 2) (Left trap))
                  (mid_range _ _) (wrap_inrange _) k eq_refl) as H.
    unfold tracesOf. cbv zeta.
    destruct (bind _ _ k) as [[[]| |] k']; try exact I. apply H.
Qed.

Lemma sane_outer k k' : outer k' = outer k -> sane k -> sane k'.
Proof.
  unfold sane, bounded, outer. intros H [[Ht Hq] Hm].
  injection H as -> -> -> _ _ _ _ _ _ _ _ _ _ _. auto.
Qed.

Lemma sane_emitted k k' : emitted k k' -> sane k -> sane k'.
Proof.
  unfold sane, bounded. intros (Hl & _ & _ & Ht & Hq & _) [[HT HQ] Hm].
  rewrite Hl, Ht, Hq. auto.
Qed.

Lemma sane_sendsOk k k' : sendsOk k k' -> sane k -> sane k'.
Proof.
  unfold sane, bounded. intros (Hl & _ & _ & Ht & Hq & _) [[HT HQ] Hm].
  rewrite Hl, Ht, Hq. auto.
Qed.

Lemma alignRecursion_safe fuel : forall trap,
  safe sane (alignRecursion lookUp fuel trap) (fun _ k' => sane k').
Proof.
  induction fuel as [|fuel IH]; intros trap k Hk.
  - exact I.
  - destruct (alignRecursion_traces fuel trap k) as (rest & -> & Hrest).
    destruct (traces_facts fuel trap k) as (Hq & Hkeep & Hends).
    unfold bind at 1. specialize (Hq k).
    destruct (tracesOf fuel trap k) as [[[]|msg|] k3] eqn:Ht;
      cbn [fst snd] in *; [|apply Hq; reflexivity|exact I].
    rewrite Hrest.
    pose proof (sane_outer _ _ Hkeep Hk) as Hk3.
    pose proof (accept_quiet k3 (Hends (proj1 Hk)) (proj2 Hk3)) as Haq.
    pose proof (accept_emitted k3) as Hae.
    unfold bind at 1.
    destruct (accept k3) as [[[]|msg|] k4]; cbn [fst snd] in *;
      [|apply Haq; reflexivity|exact I].
    pose proof (sane_emitted _ _ Hae Hk3) as Hk4.
    unfold bind at 1.
    match goal with |- context [if ?c then alignRecursion lookUp fuel ?t
                                else ret tt] =>
      destruct c;
      [pose proof (IH t k4 Hk4) as H1;
       destruct (alignRecursion lookUp fuel t k4) as [[[]|msg|] k5];
       [|exact H1|exact I]
      |cbn [ret]; pose proof Hk4 as H1; set (k5 := k4) in *]
    end;
    (match goal with |- context [if ?c then alignRecursion lookUp fuel ?t
                                 else ret tt] =>
       destruct c; [exact (IH t k5 H1)|exact H1]
     end).
Qed.

Lemma alignRecursion_sendsInPlace fuel : forall trap,
  steps sendsInPlace (alignRecursion lookUp fuel trap).
Proof.
  induction fuel as [|fuel IH]; intros trap k.
  - apply sendsInPlace_refl.
  - destruct (alignRecursion_traces fuel trap k) as (rest & -> & Hrest).
    destruct (traces_facts fuel trap k) as (_ & Hkeep & Hends).
    unfold bind at 1.
    destruct (tracesOf fuel trap k) as [[[]|msg|] k3] eqn:Ht;
      cbn [fst snd] in *; try (apply outer_sendsInPlace; assumption).
    apply sendsInPlace_trans with (k2 := k3);
      [apply outer_sendsInPlace; assumption|].
    rewrite Hrest.
    assert (Hb3 : bounded k3 -> bounded k).
    { unfold bounded, outer in *.
      injection Hkeep as Ht' Hq' _ _ _ _ _ _ _ _ _ _ _ _.
      rewrite Ht', Hq'. auto. }
    assert (Hacc : sendsInPlace k3 (snd (accept k3)))
      by (apply emitted_sendsInPlace; [apply accept_emitted|auto]).
    unfold bind at 1.
    destruct (accept k3) as [[[]| |] k4]; cbn [snd] in Hacc |- *;
      try assumption.
    apply sendsInPlace_trans with (k2 := k4); [assumption|].
    apply (steps_bind sendsInPlace sendsInPlace_trans).
    + match goal with |- steps _ (if ?c then _ else _) => destruct c end;
        [apply IH|apply (steps_ret sendsInPlace sendsInPlace_refl)].
    + intros _.
      match goal with |- steps _ (if ?c then _ else _) => destruct c end;
        [apply IH|apply (steps_ret sendsInPlace sendsInPlace_refl)].
Qed.

(** X14.  The overflow guard of [alignRecursion] is never triggered:
    with sequences shorter than the greatest integer and a minimum
    length that is not negative, no run panics with
    "dp: weird number overflow". *)
Theorem alignRecursion_guard_never_fires fuel trap k :
  seq.Len (target k) < MaxInt -> seq.Len (query k) <= MaxInt ->
  0 <= minLen k ->
  fst (alignRecursion lookUp fuel trap k) <> Panic "dp: weird number overflow".
Proof.
  intros HT HQ Hm H.
  pose proof (alignRecursion_safe fuel trap k (conj (conj HT HQ) Hm)) as Hs.
  destruct (alignRecursion lookUp fuel trap k) as [[[]|msg|] k'];
    try discriminate.
  cbn [fst] in H. injection H as ->. apply Hs. reflexivity.
Qed.

(** X15.  The hits that [alignRecursion] sends lie in place: with
    sequences shorter than the greatest integer, the begin and the end
    on the target are not negative, the begin on the query is the end
    or lies from 0 up to the end, and with a positive minimum length
    the begin lies before the end on both sequences. *)
Theorem alignRecursion_hits_in_place fuel trap k :
  seq.Len (target k) < MaxInt -> seq.Len (query k) <= MaxInt ->
  exists new,
    result (snd (alignRecursion lookUp fuel trap k)) = result k ++ new
    /\ Forall (fun h =>
                 0 <= Abpos h <= MaxInt /\ 0 <= Aepos h <= MaxInt
                 /\ MinInt < Bepos h <= MaxInt
                 /\ (Bbpos h = Bepos h \/ 0 <= Bbpos h < Bepos h)
                 /\ (0 < minLen k ->
                     Abpos h < Aepos h /\ 0 <= Bbpos h < Bepos h)) new.
Proof.
  intros HT HQ.
  destruct (alignRecursion_sendsInPlace fuel trap k)
    as (_ & _ & _ & new & Hres & Hall).
  exists new. split; [exact Hres|].
  specialize (Hall (conj HT HQ)).
  eapply Forall_impl; [exact Hall|].
  intros h [(Ha & He & Hb & Hr) Hpos]. repeat split; try tauto; try lia.
Qed.

End Recursion.

Lemma alignRecursion_guard_never_fires_witness :
  fst (alignRecursion lookUpN 10 trap0 kernel0)
  <> Panic "dp: weird number overflow".
Proof.
  apply (alignRecursion_guard_never_fires lookUpN 10 trap0 kernel0).
  - vm_compute. reflexivity.
  - vm_compute. discriminate.
  - vm_compute. discriminate.
Defined.

Lemma alignRecursion_hits_in_place_witness :
  exists new,
    result (snd (alignRecursion lookUpN 10 trap0 kernel0))
    = result kernel0 ++ new
    /\ Forall (fun h =>
                 0 <= Abpos h <= MaxInt /\ 0 <= Aepos h <= MaxInt
                 /\ MinInt < Bepos h <= MaxInt
                 /\ (Bbpos h = Bepos h \/ 0 <= Bbpos h < Bepos h)
                 /\ (0 < minLen kernel0 ->
                     Abpos h < Aepos h /\ 0 <= Bbpos h < Bepos h)) new.
Proof.
  apply (alignRecursion_hits_in_place lookUpN 10 trap0 kernel0).
  - vm_compute. reflexivity.
  - vm_compute. discriminate.
Defined.

End guardFacts.

(** ** Sequences with qualities *)

Module nucleicFacts.
Import nucleic GoIntFacts convertFacts samples.
Ltac range := unfold inrange, MinInt, MaxInt in *; lia.

(** *** Reverse complement *)

Lemma index_middle {A} (pre : list A) x post i :
  i = Z.of_nat (length pre) -> index (pre ++ x :: post) i = Some x.
Proof.
  intros ->. unfold index. rewrite length_app. cbn [length].
  destruct (Z.leb_spec 0 (Z.of_nat (length pre))); [|lia].
  destruct (Z.ltb_spec (Z.of_nat (length pre))
              (Z.of_nat (length pre + Datatypes.S (length post)))); [|lia].
  cbn [andb]. rewrite Nat2Z.id. apply list_lookup_middle. reflexivity.
Qed.

Lemma insert_middle {A} (pre : list A) x y post :
  <[length pre := y]> (pre ++ x :: post) = pre ++ y :: post.
Proof.
  rewrite <- (Nat.add_0_r (length pre)), insert_app_r. reflexivity.
Qed.

Lemma insert_far {A} (pre : list A) x mid y post z :
  <[(length pre + Datatypes.S (length mid))%nat := z]> (pre ++ x :: mid ++ y :: post)
  = pre ++ x :: mid ++ z :: post.
Proof.
  replace (length pre + Datatypes.S (length mid))%nat
    with (length (pre ++ x :: mid)) by (rewrite length_app; reflexivity).
  replace (pre ++ x :: mid ++ y :: post) with ((pre ++ x :: mid) ++ y :: post)
    by (rewrite <- app_assoc; reflexivity).
  rewrite insert_middle, <- app_assoc. reflexivity.
Qed.

Lemma index_far {A} (pre : list A) x mid y post i :
  i = Z.of_nat (length pre + Datatypes.S (length mid))%nat ->
  index (pre ++ x :: mid ++ y :: post) i = Some y.
Proof.
  intros ->.
  replace (pre ++ x :: mid ++ y :: post) with ((pre ++ x :: mid) ++ y :: post)
    by (rewrite <- app_assoc; reflexivity).
  apply index_middle. rewrite length_app. reflexivity.
Qed.

Section RevComp.

Variable complement : list Byte.byte.

Let cc := complemented complement.

Lemma complemented_eq ql c :
  complementOf complement (L ql) = Some c -> mkQLetter c (Q ql) = cc ql.
Proof. intros H. unfold cc, complemented. rewrite H. reflexivity. Qed.

Lemma revCompFrom_short n pre mid post i j :
  (length mid <= 1)%nat ->
  i = Z.of_nat (length pre) -> j = i + Z.of_nat (length mid) - 1 ->
  Forall (fun ql => is_Some (complementOf complement (L ql))) mid ->
  revCompFrom n complement (pre ++ mid ++ post) i j
  = Ok (pre ++ map cc (rev mid) ++ post).
Proof.
  intros Hn -> -> Hall.
  destruct mid as [|a [|b mid]]; cbn [length] in *; [| |lia].
  - destruct n; cbn [revCompFrom app rev map];
      (destruct (Z.ltb_spec (Z.of_nat (length pre))
                   (Z.of_nat (length pre) + Z.of_nat 0 - 1)); [lia|]);
      (destruct (Z.eqb_spec (Z.of_nat (length pre))
                   (Z.of_nat (length pre) + Z.of_nat 0 - 1)); [lia|]);
      reflexivity.
  - inversion Hall as [|? ? [c Hc] _]; subst.
    destruct n; cbn [revCompFrom app rev map];
      (destruct (Z.ltb_spec (Z.of_nat (length pre))
                   (Z.of_nat (length pre) + Z.of_nat 1 - 1)); [lia|]);
      (destruct (Z.eqb_spec (Z.of_nat (length pre))
                   (Z.of_nat (length pre) + Z.of_nat 1 - 1)); [|lia]);
      rewrite index_middle by reflexivity; rewrite Hc;
      rewrite Nat2Z.id, insert_middle, (complemented_eq _ _ Hc); reflexivity.
Qed.

Lemma revCompFrom_middle (n : nat) : forall pre mid post i j,
  (length mid <= 2 * n + 1)%nat ->
  Z.of_nat (length (pre ++ mid ++ post)) <= MaxInt ->
  i = Z.of_nat (length pre) -> j = i + Z.of_nat (length mid) - 1 ->
  Forall (fun ql => is_Some (complementOf complement (L ql))) mid ->
  revCompFrom n complement (pre ++ mid ++ post) i j
  = Ok (pre ++ map cc (rev mid) ++ post).
Proof.
  induction n as [|n IH]; intros pre mid post i j Hn Hlen Hi Hj Hall.
  - apply revCompFrom_short; assumption || lia.
  - destruct (le_lt_dec (length mid) 1) as [Hshort|Hlong].
    { apply revCompFrom_short; assumption. }
    destruct mid as [|a mid]; [cbn [length] in Hlong; lia|].
    destruct (decide (mid = [])) as [->|Hne]; [cbn [length] in Hlong; lia|].
    destruct (exists_last Hne) as (mid' & b & ->).
    inversion Hall as [|? ? [ca Hca] Hrest]; subst.
    apply Forall_app in Hrest as [Hmid' Hb].
    inversion Hb as [|? ? [cb Hcb] _]; subst.
    assert (Hlen' : Z.of_nat (length pre) + Z.of_nat (length mid') + 2
                    + Z.of_nat (length post) <= MaxInt).
    { revert Hlen. rewrite !length_app. cbn [length].
      rewrite !length_app. cbn [length]. lia. }
    clear Hlen.
    cbn [length] in Hn |- *.
    rewrite !length_app in Hn |- *. cbn [length] in Hn |- *.
    set (i := Z.of_nat (length pre)).
    set (j := i + Z.of_nat (Datatypes.S (length mid' + 1)) - 1).
    assert (Hi : Z.to_nat i = length pre) by (unfold i; lia).
    assert (Hj : Z.to_nat j = (length pre + Datatypes.S (length mid'))%nat)
      by (unfold j, i; lia).
    replace (pre ++ (a :: mid' ++ [b]) ++ post)
      with (pre ++ a :: mid' ++ b :: post)
      by (cbn [app]; rewrite <- app_assoc; reflexivity).
    cbn [revCompFrom].
    destruct (Z.ltb_spec i j); [|unfold j, i in *; lia].
    rewrite (index_far pre a mid' b post j) by (unfold j, i; lia).
    rewrite (index_middle pre a _ i) by reflexivity.
    rewrite Hcb, Hca, Hi, Hj.
    rewrite insert_middle, insert_far, insert_middle, insert_far.
    rewrite (complemented_eq _ _ Hcb), (complemented_eq _ _ Hca).
    rewrite iadd_exact, isub_exact by (unfold j, i; range).
    replace (pre ++ cc b :: mid' ++ cc a :: post)
      with ((pre ++ [cc b]) ++ mid' ++ (cc a :: post))
      by (rewrite <- !app_assoc; reflexivity).
    rewrite (IH (pre ++ [cc b]) mid' (cc a :: post)); try assumption.
    + cbn [rev]. rewrite rev_unit. cbn [app map]. rewrite map_app.
      cbn [map]. rewrite <- !app_assoc. reflexivity.
    + lia.
    + rewrite ?length_app; cbn [length]; rewrite ?length_app; cbn [length];
        lia.
    + rewrite ?length_app; cbn [length]. unfold i. lia.
    + rewrite ?length_app; cbn [length]. unfold j, i. lia.
Qed.

(** X16.  [revComp] turns a sequence round and complements it: where
    the table has an entry for every letter of the sequence, the
    in-place exchange from both ends gives the letters in reverse
    order, each replaced by its complement and with its own quality. *)
Theorem revComp_reverses s :
  Z.of_nat (length s) <= MaxInt ->
  Forall (fun ql => is_Some (complementOf complement (L ql))) s ->
  revComp s complement = Ok (map (complemented complement) (rev s)).
Proof.
  intros Hlen Hall. unfold revComp.
  pose proof (revCompFrom_middle (length s) [] s [] 0
                (isub (Z.of_nat (length s)) 1)) as H.
  rewrite app_nil_r in H. cbn [app length] in H.
  rewrite H; [rewrite app_nil_r; reflexivity|lia|assumption|reflexivity
             |rewrite isub_exact by range; lia|assumption].
Qed.

End RevComp.

(** The sequence ACGN becomes NCGT, with the qualities in reverse. *)
Lemma revComp_reverses_witness :
  revComp (S acgn) (ComplementTable dna)
  = Ok (map (complemented (ComplementTable dna)) (rev (S acgn))).
Proof.
  apply (revComp_reverses (ComplementTable dna) (S acgn)).
  - vm_compute. discriminate.
  - apply Forall_forall. intros ql _. unfold complementOf.
    apply lookup_lt_is_Some. pose proof (Byte.to_N_bounded (L ql)).
    change (length (ComplementTable dna)) with 256%nat. lia.
Defined.


Lemma complementOf_total complement b :
  length complement = 256%nat -> is_Some (complementOf complement b).
Proof.
  intros H. unfold complementOf. apply lookup_lt_is_Some. rewrite H.
  pose proof (Byte.to_N_bounded b). lia.
Qed.

Lemma wrap8_neg x : -127 <= x <= 127 -> wrap8 (- x) = - x.
Proof. intros H. unfold wrap8. Z.div_mod_to_equations. lia. Qed.

Lemma wrap8_neg_neg x : -127 <= x <= 127 -> wrap8 (- wrap8 (- x)) = x.
Proof. intros H. rewrite (wrap8_neg x H), wrap8_neg by lia. lia. Qed.

(** X17.  [RevComp] twice is no change: with a table of 256 entries
    that is its own inverse, the first call gives the reverse
    complement on the opposite strand and the second call gives the
    sequence back as it was. *)
Theorem RevComp_involutive q :
  length (ComplementTable (alphabet q)) = 256%nat ->
  (forall b c, complementOf (ComplementTable (alphabet q)) b = Some c ->
               complementOf (ComplementTable (alphabet q)) c = Some b) ->
  Z.of_nat (length (S q)) <= MaxInt ->
  -127 <= Strand q <= 127 ->
  exists q1,
    RevComp q = Ok q1
    /\ S q1 = map (complemented (ComplementTable (alphabet q))) (rev (S q))
    /\ Strand q1 = - Strand q
    /\ RevComp q1 = Ok q.
Proof.
  intros Hlen Hinv Hs Hstrand.
  assert (Hall : forall s : list QLetter,
            Forall (fun ql => is_Some (complementOf
                                         (ComplementTable (alphabet q)) (L ql))) s).
  { intros s. apply Forall_forall. intros ql _.
    apply complementOf_total. assumption. }
  unfold RevComp at 1. rewrite revComp_reverses by auto.
  eexists. split; [reflexivity|]. cbn [S Strand]. split; [reflexivity|].
  split; [apply wrap8_neg; assumption|].
  unfold RevComp. cbn [S alphabet Strand ID Desc Loc Threshold Meta circular
                       offset encoding].
  rewrite revComp_reverses; [|rewrite length_map, length_rev; assumption|auto].
  rewrite <- map_rev, rev_involutive, map_map.
  rewrite wrap8_neg_neg by assumption.
  assert (Hid : map (fun x => complemented (ComplementTable (alphabet q))
                                (complemented (ComplementTable (alphabet q)) x))
                  (S q) = S q).
  { rewrite <- (map_id (S q)) at 2. apply map_ext. intros [l qv].
    unfold complemented. cbn [L Q].
    destruct (complementOf_total (ComplementTable (alphabet q)) l Hlen)
      as [c Hc].
    rewrite Hc. cbn [default from_option id]. rewrite (Hinv _ _ Hc).
    reflexivity. }
  rewrite Hid. destruct q. reflexivity.
Qed.

Lemma RevComp_involutive_witness :
  exists q1,
    RevComp acgn = Ok q1
    /\ S q1 = map (complemented (ComplementTable (alphabet acgn))) (rev (S acgn))
    /\ Strand q1 = - Strand acgn
    /\ RevComp q1 = Ok acgn.
Proof.
  apply (RevComp_involutive acgn).
  - reflexivity.
  - intros b c H. destruct b; vm_compute in H; injection H as <-; reflexivity.
  - vm_compute. discriminate.
  - vm_compute. split; discriminate.
Defined.

(** *** Letters by position *)

(** X18.  The letter that [Set] stores at a position is the letter that
    [At] finds there; at every other position of the sequence [At]
    finds what it found before, and the length and all other fields
    stay. *)
Theorem Set_then_At pos l q q' :
  Set_ pos l q = Ok q' ->
  At pos q' = Ok l
  /\ (forall pos',
        Ind pos' = 0 ->
        isub (Pos pos') (offset q) <> isub (Pos pos) (offset q) ->
        At pos' q' = At pos' q)
  /\ Len q' = Len q
  /\ q' = set_S (S q') q.
Proof.
  unfold Set_, At.
  destruct (Z.eqb_spec (Ind pos) 0) as [Hind|]; [|discriminate]. cbn [negb].
  destruct ((0 <=? isub (Pos pos) (offset q))
            && (isub (Pos pos) (offset q) <? Len q)) eqn:E; [|discriminate].
  apply andb_true_iff in E as [E1 E2].
  apply Z.leb_le in E1. apply Z.ltb_lt in E2. unfold Len in E2.
  intros [= <-]. cbn [S offset set_S].
  split; [|split; [|split]].
  - unfold index. rewrite length_insert.
    destruct (Z.leb_spec 0 (isub (Pos pos) (offset q))); [|lia].
    destruct (Z.ltb_spec (isub (Pos pos) (offset q))
                (Z.of_nat (length (S q)))); [|lia].
    cbn [andb]. rewrite list_lookup_insert_eq by lia. reflexivity.
  - intros pos' Hind' Hne. rewrite Hind'. cbn [negb Z.eqb].
    unfold index. rewrite length_insert.
    destruct ((0 <=? isub (Pos pos') (offset q))
              && (isub (Pos pos') (offset q) <? Z.of_nat (length (S q))))
      eqn:E'; [|reflexivity].
    apply andb_true_iff in E' as [E1' E2']. apply Z.leb_le in E1'.
    rewrite list_lookup_insert_ne by lia. reflexivity.
  - unfold Len. cbn [S set_S]. rewrite length_insert. reflexivity.
  - reflexivity.
Qed.

(** A T with quality 40 in the place of the C of ACGN. *)
Lemma Set_then_At_witness :
  At (mkPosition 1 0)
    (set_S (<[1%nat := mkQLetter Byte.x54 40]> (S acgn)) acgn)
  = Ok (mkQLetter Byte.x54 40).
Proof.
  refine (proj1 (Set_then_At (mkPosition 1 0) (mkQLetter Byte.x54 40) acgn
                   _ _)).
  vm_compute. reflexivity.
Defined.

(** *** Validation *)

Lemma validateFrom_spec valid (s : list QLetter) : forall i pre,
  i = Z.of_nat (length pre) ->
  Z.of_nat (length (pre ++ s)) <= MaxInt ->
  match validateFrom valid i s with
  | (true, k) => k = -1 /\ Forall (fun ql => valid (L ql) = true) s
  | (false, k) =>
      exists before ql after,
        s = before ++ ql :: after
        /\ k = i + Z.of_nat (length before)
        /\ valid (L ql) = false
        /\ Forall (fun ql' => valid (L ql') = true) before
  end.
Proof.
  induction s as [|ql s IH]; intros i pre Hi Hlen; cbn [validateFrom].
  - split; [reflexivity|constructor].
  - destruct (valid (L ql)) eqn:Hv; cbn [negb].
    + assert (Hl : Z.of_nat (length pre) + 1 + Z.of_nat (length s) <= MaxInt).
      { revert Hlen. rewrite length_app. cbn [length]. lia. }
      assert (Hi1 : iadd i 1 = i + 1) by (apply iadd_exact; range).
      assert (Hi' : iadd i 1 = Z.of_nat (length (pre ++ [ql])))
        by (rewrite Hi1, length_app; cbn [length]; lia).
      assert (Hlen' : Z.of_nat (length ((pre ++ [ql]) ++ s)) <= MaxInt)
        by (rewrite <- app_assoc; exact Hlen).
      specialize (IH _ _ Hi' Hlen'). rewrite Hi1 in IH |- *.
      destruct (validateFrom valid (i + 1) s) as [[] k];
        cbv beta iota in IH |- *.
      * destruct IH as [-> Hall]. split; [reflexivity|].
        constructor; assumption.
      * destruct IH as (before & x & after & -> & -> & Hx & Hall).
        exists (ql :: before), x, after. cbn [length app].
        repeat split; try assumption; [lia|constructor; assumption].
    + exists [], ql, s. cbn [length app].
      repeat split; [lia|assumption|constructor].
Qed.

(** X19.  [Validate] answers true and -1 exactly for a sequence of valid
    letters; otherwise it answers false and the index of the first
    letter that is not valid. *)
Theorem Validate_first_invalid q :
  Z.of_nat (length (S q)) <= MaxInt ->
  match Validate q with
  | (true, k) =>
      k = -1 /\ Forall (fun ql => IsValid (alphabet q) (L ql) = true) (S q)
  | (false, k) =>
      exists before ql after,
        S q = before ++ ql :: after
        /\ k = Z.of_nat (length before)
        /\ IsValid (alphabet q) (L ql) = false
        /\ Forall (fun ql' => IsValid (alphabet q) (L ql') = true) before
  end.
Proof.
  intros Hlen. unfold Validate.
  pose proof (validateFrom_spec (IsValid (alphabet q)) (S q) 0 []
                eq_refl Hlen) as H.
  destruct (validateFrom _ 0 (S q)) as [[] k]; exact H.
Qed.

(** In ACGN the first letter that is not valid is the N, at index 3. *)
Lemma Validate_first_invalid_witness :
  exists before ql after,
    S acgn = before ++ ql :: after
    /\ 3 = Z.of_nat (length before)
    /\ IsValid (alphabet acgn) (L ql) = false
    /\ Forall (fun ql' => IsValid (alphabet acgn) (L ql') = true) before.
Proof.
  refine (Validate_first_invalid acgn _).
  vm_compute. discriminate.
Defined.

(** *** Appending *)

Section Append.

Variable DefaultQphred : Z.

Lemma fold_append (a : list Byte.byte) : forall s : list QLetter,
  fold_left (fun s v => s ++ [mkQLetter v DefaultQphred]) a s
  = s ++ map (fun v => mkQLetter v DefaultQphred) a.
Proof.
  induction a as [|v a IH]; intros s; cbn [fold_left map].
  - rewrite app_nil_r. reflexivity.
  - rewrite IH, <- app_assoc. reflexivity.
Qed.

(** X20.  [AppendLetters] appends the letters, each with the default
    quality, behind the letters that are there and leaves those alone;
    the length grows by the number of letters. *)
Theorem AppendLetters_appends a q :
  AppendLetters DefaultQphred a q
  = set_S (S q ++ map (fun v => mkQLetter v DefaultQphred) a) q
  /\ Len (AppendLetters DefaultQphred a q)
     = Len q + Z.of_nat (length a)
  /\ forall i, (i < length (S q))%nat ->
       S (AppendLetters DefaultQphred a q) !! i = S q !! i.
Proof.
  assert (H : AppendLetters DefaultQphred a q
              = set_S (S q ++ map (fun v => mkQLetter v DefaultQphred) a) q).
  { unfold AppendLetters, Len. rewrite Nat2Z.id, take_app_length, fold_append.
    reflexivity. }
  split; [exact H|]. rewrite H. unfold Len. cbn [S set_S].
  split.
  - rewrite length_app, length_map. lia.
  - intros i Hi. apply lookup_app_l. assumption.
Qed.

End Append.

(** *** Subsequences *)

Section Subseq.

Variable Truncate : list QLetter -> Z -> Z -> bool -> list QLetter + error.


End Subseq.

End nucleicFacts.
